(** * Lightning payment path finding (electrum/lnrouter.py)

    A shallow embedding of the fee primitives, the route sanity check, the
    edge cost heuristic, the reverse Dijkstra search [get_distances], the
    backtracking [get_path] and [create_route_from_path], followed by the
    properties proved about them.

    Conventions.
    - Python [bytes] values (node ids, short channel ids) are [string]s:
      sequences of 8-bit characters, compared lexicographically.
    - Python [int] is [Z]; [//] by a positive constant is [Z.div].
    - Python [float] is IEEE 754 binary64, kept as the integer number of
      2^-1074 units of its value, with round-to-nearest-even written out.
    - Exceptions are values of [exn]; a computation that may raise returns
      [result].
    - Loops without a syntactic bound ([while]) take a [fuel] argument and
      return [None] when it runs out; termination theorems show that enough
      fuel always exists. *)

From Stdlib Require Import ZArith NArith String List Lia.
From stdpp Require Import gmap strings list fin_maps.

Local Open Scope Z_scope.

(** ** Identifiers, exceptions *)

Abbreviation NodeId := string (only parsing).
Abbreviation ShortChannelID := string (only parsing).

Inductive exn : Type :=
| PyException (msg : string)
| NoChannelPolicy (short_channel_id : ShortChannelID)
| AttributeError
| AssertionError
| KeyError
| TypeError
| OverflowError
| ZeroDivisionError.

Inductive result (A : Type) : Type :=
| Ok (a : A)
| Raise (e : exn).
Arguments Ok {A} a.
Arguments Raise {A} e.

Definition result_map {A B} (f : A -> B) (r : result A) : result B :=
  match r with
  | Ok a => Ok (f a)
  | Raise e => Raise e
  end.

(** [ShortChannelID.normalize] (lnutil.py).  The path finder handles short
    channel ids as [bytes] ([short_channel_id: bytes] in its signatures), so
    the [bytes] branch of the method applies: [assert len(data) == 8], then
    the same bytes as a [ShortChannelID]. *)
Definition normalize (data : string) : result ShortChannelID :=
  if Nat.eqb (String.length data) 8 then Ok data else Raise AssertionError.

(** [raise NoChannelPolicy(short_channel_id)]: the constructor of the
    exception normalizes its argument first. *)
Definition raise_NoChannelPolicy {A} (scid : string) : result A :=
  match normalize scid with
  | Ok s => Raise (NoChannelPolicy s)
  | Raise e => Raise e
  end.

(** lnutil.py *)
Definition NUM_MAX_HOPS_IN_PAYMENT_PATH : Z := 20.
Definition NUM_MAX_EDGES_IN_PAYMENT_PATH : Z := NUM_MAX_HOPS_IN_PAYMENT_PATH.
Definition NBLOCK_CLTV_EXPIRY_TOO_FAR_INTO_FUTURE : Z := 28 * 144.

(** ** The channel database interface

    [channel_db.py] ([ChannelDB], [Policy], [NodeInfo], the channel info
    records) and [lnchannel.py] ([Channel]) are not among the sources; the
    path finder only reads them through the fields and methods below. *)

Module Policy.
(** Modelled from the spec: the [Policy] class of [channel_db.py] is missing.
    Section 3 gives a directional policy the unsigned fields
    [fee_base_msat], [fee_proportional_millionths], [cltv_expiry_delta],
    [htlc_minimum_msat], an optional [htlc_maximum_msat] and [disabled]. *)
Record t : Type := mk {
  fee_base_msat : N;
  fee_proportional_millionths : N;
  cltv_expiry_delta : N;
  htlc_minimum_msat : N;
  htlc_maximum_msat : option N;
  disabled : bool
}.
(** Modelled from the spec: [Policy.is_disabled()] is missing; it reads the
    [disabled] flag of section 3. *)
Definition is_disabled (p : t) : bool := disabled p.
End Policy.

(** Modelled from the spec: the channel info record of [channel_db.py] is
    missing.  Section 3: two endpoints and an optional capacity in sat. *)
Record ChannelInfo : Type := mkChannelInfo {
  node1_id : NodeId;
  node2_id : NodeId;
  capacity_sat : option N
}.

(** Modelled from the spec: [NodeInfo] of [channel_db.py] is missing.
    Section 3: a feature bit field. *)
Record NodeInfo : Type := mkNodeInfo {
  features : N
}.

(** Modelled from the spec: [Channel] of [lnchannel.py] is missing.
    Section 4.C: [can_pay(amount_msat, check_frozen)] and
    [can_receive(amount_msat, check_frozen)]. *)
Record Channel : Type := mkChannel {
  can_pay : Z -> bool -> bool;
  can_receive : Z -> bool -> bool
}.

Abbreviation MyChannels := (gmap string Channel) (only parsing).

(** Modelled from the spec: the [ChannelDB] class is missing.  Section 4.B
    lists the read operations the search uses; each receives the caller's
    local channel view ([my_channels], possibly [None]) as the calls in
    [lnrouter.py] pass it.  A database is any four such functions. *)
Record ChannelDB : Type := mkChannelDB {
  get_channels_for_node : NodeId -> option MyChannels -> list ShortChannelID;
  get_channel_info : ShortChannelID -> option MyChannels -> option ChannelInfo;
  get_policy_for_node :
    ShortChannelID -> NodeId -> option MyChannels -> option Policy.t;
  get_node_info_for_node_id : NodeId -> option NodeInfo
}.

(** ** Fee primitives and route edges *)

Definition fee_for_edge_msat
    (forwarded_amount_msat fee_base_msat fee_proportional_millionths : Z) : Z :=
  fee_base_msat
  + (forwarded_amount_msat * fee_proportional_millionths) / 1000000.

Definition is_fee_sane (fee_msat payment_amount_msat : Z) : bool :=
  if fee_msat <=? 5000 then true
  else if 100 * fee_msat <=? payment_amount_msat then true
  else false.

Record RouteEdge : Type := mkRouteEdge {
  node_id : NodeId;
  short_channel_id : ShortChannelID;
  fee_base_msat : Z;
  fee_proportional_millionths : Z;
  cltv_expiry_delta : Z;
  node_features : Z
}.

Definition fee_for_edge (self : RouteEdge) (amount_msat : Z) : Z :=
  fee_for_edge_msat amount_msat (fee_base_msat self)
                    (fee_proportional_millionths self).

Definition from_channel_policy (channel_policy : Policy.t)
    (scid : string) (end_node : NodeId)
    (node_info : option NodeInfo) : result RouteEdge :=
  match normalize scid with
  | Raise e => Raise e
  | Ok short_channel_id =>
      Ok {| node_id := end_node;
            short_channel_id := short_channel_id;
            fee_base_msat := Z.of_N (Policy.fee_base_msat channel_policy);
            fee_proportional_millionths :=
              Z.of_N (Policy.fee_proportional_millionths channel_policy);
            cltv_expiry_delta :=
              Z.of_N (Policy.cltv_expiry_delta channel_policy);
            node_features :=
              match node_info with
              | Some ni => Z.of_N (features ni)
              | None => 0
              end |}
  end.

Definition is_sane_to_use (self : RouteEdge) (amount_msat : Z) : bool :=
  if cltv_expiry_delta self >? 14 * 144 then false
  else
    let total_fee := fee_for_edge self amount_msat in
    if negb (is_fee_sane total_fee amount_msat) then false
    else true.

Abbreviation LNPaymentRoute := (list RouteEdge) (only parsing).

(** ** [is_route_sane_to_use] *)

(** The body of [for route_edge in ...]: the running [(amt, cltv)], or
    [None] when an edge fails [is_sane_to_use] (the function then returns
    [False]). *)
Fixpoint route_loop (edges : list RouteEdge) (amt cltv : Z) : option (Z * Z) :=
  match edges with
  | [] => Some (amt, cltv)
  | route_edge :: rest =>
      if negb (is_sane_to_use route_edge amt) then None
      else route_loop rest (amt + fee_for_edge route_edge amt)
                      (cltv + cltv_expiry_delta route_edge)
  end.

(** [for route_edge in reversed(route[1:])], started from the invoice
    amount and the final cltv. *)
Definition route_accumulation (route : LNPaymentRoute)
    (invoice_amount_msat min_final_cltv_expiry : Z) : option (Z * Z) :=
  route_loop (rev (drop 1 route)) invoice_amount_msat min_final_cltv_expiry.

Definition is_route_sane_to_use (route : LNPaymentRoute)
    (invoice_amount_msat min_final_cltv_expiry : Z) : bool :=
  if Z.of_nat (length route) >? NUM_MAX_EDGES_IN_PAYMENT_PATH then false
  else
    match route_accumulation route invoice_amount_msat min_final_cltv_expiry with
    | None => false
    | Some (amt, cltv) =>
        let total_fee := amt - invoice_amount_msat in
        if cltv >? NBLOCK_CLTV_EXPIRY_TOO_FAR_INTO_FUTURE then false
        else if negb (is_fee_sane total_fee invoice_amount_msat) then false
        else true
    end.

(** The accumulation as the specification words it: "walking backward from
    last-but-one edge to first", i.e. over every edge except the last. *)
Definition accumulation_skipping_last (route : LNPaymentRoute)
    (invoice_amount_msat min_final_cltv_expiry : Z) : option (Z * Z) :=
  route_loop (rev (removelast route)) invoice_amount_msat min_final_cltv_expiry.

(** ** Python numbers: [int] and [float]

    The heuristic cost is an [int] ([base_cost] when costs are ignored, the
    0 of the destination) or a [float] ([float('inf')], and
    [... * 15 / 1_000_000_000] is a true division).  A finite binary64 value
    is an integer multiple of 2^-1074; [Finite u] stands for [u * 2^-1074].
    Every operation rounds the exact result to the nearest value with 53
    significant bits, ties to even; a result of magnitude 2^1024 or more
    overflows.  The two zeros are not told apart (no operation below
    depends on the sign of a zero). *)

Definition UNIT : Z := 2 ^ 1074.        (* 1.0 in units *)
Definition OVERFLOW : Z := 2 ^ 2098.    (* 2^1024 in units *)

Inductive float : Type :=
| Finite (units : Z)
| PInf
| NInf
| NaN.

(** The integer nearest to [n / d], ties to the even one ([0 < d]). *)
Definition round_half_even (n d : Z) : Z :=
  let q := n / d in
  match 2 * (n mod d) ?= d with
  | Lt => q
  | Gt => q + 1
  | Eq => if Z.even q then q else q + 1
  end.

(** The spacing, as a power of two of units, of the binary64 values around
    a magnitude whose integer part in units is [x]: values below 2^53 units
    (the subnormal numbers and the first binades) are one unit apart. *)
Definition float_exponent (x : Z) : Z := Z.max 0 (Z.log2 x - 52).

(** [n / d] units rounded to 53 significant bits, exponent unbounded. *)
Definition round_units (n d : Z) : Z :=
  let e := float_exponent (Z.abs n / d) in
  round_half_even n (d * 2 ^ e) * 2 ^ e.

(** IEEE rounding of [n / d] units: overflow gives an infinity. *)
Definition float_round (n d : Z) : float :=
  let r := round_units n d in
  if OVERFLOW <=? r then PInf
  else if r <=? - OVERFLOW then NInf
  else Finite r.

(** [float(z)] for an [int], as in [int + float]:
    "OverflowError: int too large to convert to float". *)
Definition float_of_int (z : Z) : result float :=
  match float_round (z * UNIT) 1 with
  | Finite u => Ok (Finite u)
  | _ => Raise OverflowError
  end.

(** [a / b] on two [int]s: the correctly rounded quotient, or
    "OverflowError: integer division result too large for a float". *)
Definition int_true_div (a b : Z) : result float :=
  if b =? 0 then Raise ZeroDivisionError
  else
    match float_round (Z.sgn b * a * UNIT) (Z.abs b) with
    | Finite u => Ok (Finite u)
    | _ => Raise OverflowError
    end.

(** [x + y] on two [float]s; it never raises. *)
Definition float_add (x y : float) : float :=
  match x, y with
  | NaN, _ | _, NaN => NaN
  | PInf, NInf | NInf, PInf => NaN
  | PInf, _ | _, PInf => PInf
  | NInf, _ | _, NInf => NInf
  | Finite a, Finite b => float_round (a + b) 1
  end.

Definition float_ltb (x y : float) : bool :=
  match x, y with
  | NaN, _ | _, NaN => false
  | Finite a, Finite b => a <? b
  | _, NInf => false
  | NInf, _ => true
  | PInf, _ => false
  | Finite _, PInf => true
  end.

Definition float_eqb (x y : float) : bool :=
  match x, y with
  | Finite a, Finite b => a =? b
  | PInf, PInf => true
  | NInf, NInf => true
  | _, _ => false
  end.

(** A cost or distance of the search: a Python [int] or [float]. *)
Inductive Cost : Type :=
| Int (z : Z)
| Float (f : float).

(** [float('inf')] *)
Definition Infinity : Cost := Float PInf.

(** The exact value of a number, in units.  Python compares an [int] with
    a [float] by value, without converting the [int]. *)
Definition exact (c : Cost) : float :=
  match c with
  | Int z => Finite (z * UNIT)
  | Float f => f
  end.

(** [a + b]: exact on two [int]s; an [int] added to a [float] is converted
    first. *)
Definition cost_add (a b : Cost) : result Cost :=
  match a, b with
  | Int x, Int y => Ok (Int (x + y))
  | Int x, Float g =>
      match float_of_int x with
      | Ok f => Ok (Float (float_add f g))
      | Raise e => Raise e
      end
  | Float f, Int y =>
      match float_of_int y with
      | Ok g => Ok (Float (float_add f g))
      | Raise e => Raise e
      end
  | Float f, Float g => Ok (Float (float_add f g))
  end.

(** [a < b] and [a == b] *)
Definition cost_ltb (a b : Cost) : bool := float_ltb (exact a) (exact b).
Definition cost_eqb (a b : Cost) : bool := float_eqb (exact a) (exact b).

(** ** The priority queue

    [queue.PriorityQueue] holding tuples [(dist, amount_msat, node)]:
    [get] returns a least tuple in Python's tuple order (first differing
    component decides).  The queue is kept as a sorted list. *)

Abbreviation QueueItem := (Cost * Z * string)%type (only parsing).

Definition item_ltb (x y : QueueItem) : bool :=
  let '(d1, a1, n1) := x in
  let '(d2, a2, n2) := y in
  if negb (cost_eqb d1 d2) then cost_ltb d1 d2
  else if negb (a1 =? a2) then a1 <? a2
  else String.ltb n1 n2.

Fixpoint pq_put (x : QueueItem) (q : list QueueItem) : list QueueItem :=
  match q with
  | [] => [x]
  | y :: q' => if item_ltb y x then y :: pq_put x q' else x :: q
  end.

Definition pq_get (q : list QueueItem) : option (QueueItem * list QueueItem) :=
  match q with
  | [] => None
  | x :: q' => Some (x, q')
  end.

(** ** [LNPathFinder] *)

Record LNPathFinder : Type := mkLNPathFinder {
  channel_db : ChannelDB;
  blacklist : gset string
}.

Definition add_to_blacklist (self : LNPathFinder) (scid : ShortChannelID)
  : LNPathFinder :=
  {| channel_db := channel_db self;
     blacklist := blacklist self ∪ {[ scid ]} |}.

(** Truth value of an [Optional[bytes]]: [None] and [b''] are false. *)
Definition truthy (nodeA : option NodeId) : bool :=
  match nodeA with
  | Some a => negb (String.eqb a "")
  | None => false
  end.

(** [node == nodeA] for [nodeA : Optional[bytes]]. *)
Definition eq_node (node : NodeId) (nodeA : option NodeId) : bool :=
  match nodeA with
  | Some a => String.eqb node a
  | None => false
  end.

Definition base_cost : Z := 500.

Definition _edge_cost (self : LNPathFinder) (scid : ShortChannelID)
    (start_node end_node : NodeId) (payment_amt_msat : Z)
    (ignore_costs is_mine : bool) (my_channels : option MyChannels)
  : result (Cost * Z) :=
  match get_channel_info (channel_db self) scid my_channels with
  | None => Ok (Infinity, 0)
  | Some channel_info =>
  match get_policy_for_node (channel_db self) scid start_node my_channels with
  | None => Ok (Infinity, 0)
  | Some channel_policy =>
    if Policy.is_disabled channel_policy then Ok (Infinity, 0)
    else if payment_amt_msat <? Z.of_N (Policy.htlc_minimum_msat channel_policy)
    then Ok (Infinity, 0)
    else if match capacity_sat channel_info with
            | Some cap => payment_amt_msat / 1000 >? Z.of_N cap
            | None => false
            end
    then Ok (Infinity, 0)
    else if match Policy.htlc_maximum_msat channel_policy with
            | Some hmax => payment_amt_msat >? Z.of_N hmax
            | None => false
            end
    then Ok (Infinity, 0)
    else
      let node_info := get_node_info_for_node_id (channel_db self) end_node in
      match from_channel_policy channel_policy scid end_node node_info with
      | Raise e => Raise e
      | Ok route_edge =>
        if negb (is_sane_to_use route_edge payment_amt_msat)
        then Ok (Infinity, 0)
        else if ignore_costs then Ok (Int base_cost, 0)
        else
          let fee_msat := fee_for_edge route_edge payment_amt_msat in
          match int_true_div
                  (cltv_expiry_delta route_edge * payment_amt_msat * 15)
                  1000000000 with
          | Raise e => Raise e
          | Ok cltv_cost =>
            (* base_cost + fee_msat + cltv_cost *)
            match cost_add (Int (base_cost + fee_msat)) (Float cltv_cost) with
            | Raise e => Raise e
            | Ok overall_cost => Ok (overall_cost, fee_msat)
            end
          end
      end
  end
  end.

(** The tests of [_edge_cost] that an edge with channel info [ci] and policy
    [pol] passes before it gets a cost other than [float('inf')]. *)
Definition admissible (ci : ChannelInfo) (pol : Policy.t)
    (scid : ShortChannelID) (amt : Z) : Prop :=
  Policy.disabled pol = false
  /\ Z.of_N (Policy.htlc_minimum_msat pol) <= amt
  /\ (forall cap, capacity_sat ci = Some cap -> amt / 1000 <= Z.of_N cap)
  /\ (forall hmax, Policy.htlc_maximum_msat pol = Some hmax ->
        amt <= Z.of_N hmax)
  /\ String.length scid = 8%nat
  /\ Z.of_N (Policy.cltv_expiry_delta pol) <= 14 * 144
  /\ is_fee_sane
       (fee_for_edge_msat amt (Z.of_N (Policy.fee_base_msat pol))
          (Z.of_N (Policy.fee_proportional_millionths pol))) amt = true.

(** ** [get_distances]: the reverse Dijkstra search *)

Record SearchState : Type := mkSearchState {
  distance_from_start : gmap string Cost;   (* defaultdict, default inf *)
  prev_node : gmap string (string * string);
  nodes_to_explore : list QueueItem
}.

(** Reading the [defaultdict(lambda: float('inf'))]. *)
Definition dist_get (d : gmap string Cost) (n : NodeId) : Cost :=
  default Infinity (d !! n).

(** The checks on one of our own channels: [Ok true] to go on with the edge,
    [Ok false] for [continue], [Raise] when the assertion fails. *)
Definition local_gate (nodeA : option NodeId) (mc : MyChannels)
    (edge_channel_id : ShortChannelID) (edge_startnode edge_endnode : NodeId)
    (amount_msat : Z) : result bool :=
  match mc !! edge_channel_id with
  | Some chan =>
      if eq_node edge_startnode nodeA then
        (* payment outgoing, on our channel *)
        if negb (can_pay chan amount_msat true) then Ok false else Ok true
      else
        (* payment incoming, on our channel *)
        if negb (eq_node edge_endnode nodeA) then Raise AssertionError
        else if negb (can_receive chan amount_msat true) then Ok false
        else Ok true
  | None => Ok true
  end.

(** One iteration of [for edge_channel_id in ...get_channels_for_node(...)]. *)
Definition relax_edge (self : LNPathFinder) (nodeA : option NodeId)
    (is_source : bool) (my_channels : option MyChannels)
    (amount_msat : Z) (edge_endnode : NodeId)
    (st : SearchState) (edge_channel_id : ShortChannelID)
  : result SearchState :=
  if bool_decide (edge_channel_id ∈ blacklist self) then Ok st
  else
    match get_channel_info (channel_db self) edge_channel_id my_channels with
    | None => Raise AttributeError       (* channel_info.node1_id on None *)
    | Some channel_info =>
      let edge_startnode :=
        if String.eqb (node1_id channel_info) edge_endnode
        then node2_id channel_info else node1_id channel_info in
      match my_channels with
      | None => Raise TypeError          (* edge_channel_id in None *)
      | Some mc =>
        let is_mine := bool_decide (is_Some (mc !! edge_channel_id)) in
        match local_gate nodeA mc edge_channel_id edge_startnode edge_endnode
                         amount_msat with
        | Raise e => Raise e
        | Ok false => Ok st
        | Ok true =>
          match _edge_cost self edge_channel_id
                  (if is_source then edge_startnode else edge_endnode)
                  (if is_source then edge_endnode else edge_startnode)
                  amount_msat
                  (if truthy nodeA then eq_node edge_startnode nodeA else false)
                  is_mine my_channels with
          | Raise e => Raise e
          | Ok (edge_cost, fee_for_edge_msat) =>
            match cost_add (dist_get (distance_from_start st) edge_endnode)
                           edge_cost with
            | Raise e => Raise e
            | Ok alt_dist_to_neighbour =>
              if cost_ltb alt_dist_to_neighbour
                          (dist_get (distance_from_start st) edge_startnode)
              then
                let amount_to_forward_msat :=
                  amount_msat + fee_for_edge_msat in
                Ok {| distance_from_start :=
                        <[edge_startnode := alt_dist_to_neighbour]>
                          (distance_from_start st);
                      prev_node :=
                        <[edge_startnode := (edge_endnode, edge_channel_id)]>
                          (prev_node st);
                      nodes_to_explore :=
                        pq_put (alt_dist_to_neighbour, amount_to_forward_msat,
                                edge_startnode) (nodes_to_explore st) |}
              else Ok st
            end
          end
        end
      end
    end.

Fixpoint for_channels (self : LNPathFinder) (nodeA : option NodeId)
    (is_source : bool) (my_channels : option MyChannels)
    (amount_msat : Z) (edge_endnode : NodeId)
    (channels : list ShortChannelID) (st : SearchState) : result SearchState :=
  match channels with
  | [] => Ok st
  | edge_channel_id :: rest =>
      match relax_edge self nodeA is_source my_channels amount_msat
                       edge_endnode st edge_channel_id with
      | Ok st' =>
          for_channels self nodeA is_source my_channels amount_msat
                       edge_endnode rest st'
      | Raise e => Raise e
      end
  end.

(** How the [while] loop was left. *)
Inductive LoopExit : Type :=
| QueueEmpty                       (* nodes_to_explore.qsize() == 0 *)
| SourcePopped (node : NodeId).    (* break *)

Fixpoint main_loop (fuel : nat) (self : LNPathFinder) (nodeA : option NodeId)
    (is_source : bool) (my_channels : option MyChannels) (st : SearchState)
  : option (result (LoopExit * SearchState)) :=
  match fuel with
  | O => None
  | S fuel' =>
    match pq_get (nodes_to_explore st) with
    | None => Some (Ok (QueueEmpty, st))
    | Some ((dist_to_edge_endnode, amount_msat, edge_endnode), q') =>
      let st1 := {| distance_from_start := distance_from_start st;
                    prev_node := prev_node st;
                    nodes_to_explore := q' |} in
      if truthy nodeA && eq_node edge_endnode nodeA
      then Some (Ok (SourcePopped edge_endnode, st1))
      else if negb (cost_eqb dist_to_edge_endnode
                             (dist_get (distance_from_start st) edge_endnode))
      then main_loop fuel' self nodeA is_source my_channels st1
      else
        match for_channels self nodeA is_source my_channels amount_msat
                edge_endnode
                (get_channels_for_node (channel_db self) edge_endnode
                                       my_channels)
                st1 with
        | Ok st2 => main_loop fuel' self nodeA is_source my_channels st2
        | Raise e => Some (Raise e)
        end
    end
  end.

Definition initial_state (nodeB : NodeId) (invoice_amount_msat : Z)
  : SearchState :=
  {| distance_from_start := <[nodeB := Int 0]> ∅;
     prev_node := ∅;
     nodes_to_explore := pq_put (Int 0, invoice_amount_msat, nodeB) [] |}.

Definition get_distances (fuel : nat) (self : LNPathFinder)
    (nodeA : option NodeId) (nodeB : NodeId) (invoice_amount_msat : Z)
    (is_source : bool) (my_channels : option MyChannels)
  : option (result (gmap string (string * string))) :=
  match main_loop fuel self nodeA is_source my_channels
                  (initial_state nodeB invoice_amount_msat) with
  | None => None
  | Some r => Some (result_map (fun out => prev_node (snd out)) r)
  end.

(** ** [get_path], [find_path_for_payment], [create_route_from_path] *)

Abbreviation Path := (list (string * string)) (only parsing).

(** The [while edge_startnode != nodeB] loop. *)
Fixpoint get_path_loop (fuel : nat) (nodeB : NodeId)
    (prev : gmap string (string * string))
    (edge_startnode : NodeId) (path : Path) : option (result Path) :=
  if String.eqb edge_startnode nodeB then Some (Ok path)
  else
    match fuel with
    | O => None
    | S fuel' =>
        match prev !! edge_startnode with
        | None => Some (Raise KeyError)
        | Some (edge_endnode, edge_taken) =>
            get_path_loop fuel' nodeB prev edge_endnode
                          (path ++ [(edge_endnode, edge_taken)])
        end
    end.

Definition get_path (fuel : nat) (nodeA nodeB : NodeId)
    (prev : gmap string (string * string)) : option (result (option Path)) :=
  match prev !! nodeA with
  | None => Some (Ok None)     (* no path found *)
  | Some _ =>
      match get_path_loop fuel nodeB prev nodeA [] with
      | None => None
      | Some r => Some (result_map Some r)
      end
  end.

Definition find_path_for_payment (fuel : nat) (self : LNPathFinder)
    (nodeA nodeB : NodeId) (invoice_amount_msat : Z)
    (my_channels : option MyChannels) : option (result (option Path)) :=
  let my_channels := Some (default ∅ my_channels) in
  match get_distances fuel self (Some nodeA) nodeB invoice_amount_msat true
                      my_channels with
  | None => None
  | Some (Raise e) => Some (Raise e)
  | Some (Ok prev) => get_path fuel nodeA nodeB prev
  end.

(** The [for node_id, short_channel_id in path] loop. *)
Fixpoint route_from_pairs (self : LNPathFinder)
    (my_channels : option MyChannels) (path : Path) (prev_node_id : NodeId)
    (route : list RouteEdge) : result LNPaymentRoute :=
  match path with
  | [] => Ok route
  | (node, scid) :: rest =>
      match get_policy_for_node (channel_db self) scid prev_node_id
                                my_channels with
      | None => raise_NoChannelPolicy scid
      | Some channel_policy =>
          let node_info := get_node_info_for_node_id (channel_db self) node in
          match from_channel_policy channel_policy scid node node_info with
          | Raise e => Raise e
          | Ok route_edge =>
              route_from_pairs self my_channels rest node (route ++ [route_edge])
          end
      end
  end.

Definition create_route_from_path (self : LNPathFinder) (path : option Path)
    (from_node_id : NodeId) (my_channels : option MyChannels)
  : result LNPaymentRoute :=
  match path with
  | None => Raise (PyException "cannot create route from None path")
  | Some path => route_from_pairs self my_channels path from_node_id []
  end.

(** ** Concrete graphs used in examples *)

Local Open Scope string_scope.

Definition zero_fee_policy : Policy.t :=
  Policy.mk 0 0 40 0 None false.

(** Scenario: nodes A, B, D; channel C1 between A and B with zero-fee
    policies in both directions; channel C2 between B and D, where B's
    outgoing policy is base 1000, ppm 100, cltv 40.  [d_policy] is whatever
    D published for C2. *)
Definition three_node_db (d_policy : option Policy.t) : ChannelDB :=
  {| get_channels_for_node := fun node _ =>
       if String.eqb node "A" then ["chan0001"]
       else if String.eqb node "B" then ["chan0001"; "chan0002"]
       else if String.eqb node "D" then ["chan0002"]
       else [];
     get_channel_info := fun scid _ =>
       if String.eqb scid "chan0001" then Some (mkChannelInfo "A" "B" None)
       else if String.eqb scid "chan0002" then Some (mkChannelInfo "B" "D" None)
       else None;
     get_policy_for_node := fun scid node _ =>
       if String.eqb scid "chan0001" then
         if String.eqb node "A" || String.eqb node "B"
         then Some zero_fee_policy else None
       else if String.eqb scid "chan0002" then
         if String.eqb node "B"
         then Some (Policy.mk 1000 100 40 0 None false)
         else if String.eqb node "D" then d_policy
         else None
       else None;
     get_node_info_for_node_id := fun _ => None |}.

Definition three_node_finder (d_policy : option Policy.t) : LNPathFinder :=
  {| channel_db := three_node_db d_policy; blacklist := ∅ |}.

(** The distances the search for 1_000_000 msat from A to D records in this
    graph: for B the cost of the edge from B to D,
    [500 + 1100 + 40 * 1_000_000 * 15 / 1_000_000_000], the float nearest to
    1600.6; for A that distance plus [base_cost]. *)
Definition three_node_dist_B : Cost :=
  Eval vm_compute in
    match int_true_div (40 * 1000000 * 15) 1000000000 with
    | Ok cltv_cost =>
        match cost_add (Int (500 + 1100)) (Float cltv_cost) with
        | Ok c => c
        | Raise _ => Infinity
        end
    | Raise _ => Infinity
    end.

Definition three_node_dist_A : Cost :=
  Eval vm_compute in
    match cost_add three_node_dist_B (Int 500) with
    | Ok c => c
    | Raise _ => Infinity
    end.

(** The same graph with a direct channel C3 between A and D. *)
Definition direct_db : ChannelDB :=
  {| get_channels_for_node := fun node mc =>
       if String.eqb node "A" || String.eqb node "D"
       then "chan0003" :: get_channels_for_node (three_node_db None) node mc
       else get_channels_for_node (three_node_db None) node mc;
     get_channel_info := fun scid mc =>
       if String.eqb scid "chan0003" then Some (mkChannelInfo "A" "D" None)
       else get_channel_info (three_node_db None) scid mc;
     get_policy_for_node := fun scid node mc =>
       if String.eqb scid "chan0003" then
         if String.eqb node "A" || String.eqb node "D"
         then Some zero_fee_policy else None
       else get_policy_for_node (three_node_db None) scid node mc;
     get_node_info_for_node_id := fun _ => None |}.

(** A line of [n] channels: node [i] and node [i+1] share channel [i], every
    policy is [zero_fee_policy]. *)
Definition line_node (i : nat) : NodeId :=
  String (Ascii.ascii_of_nat (65 + i)) "".

Definition line_chan (i : nat) : ShortChannelID :=
  "chan000" ++ String (Ascii.ascii_of_nat (65 + i)) "".

Fixpoint index_of (x : string) (l : list string) : option nat :=
  match l with
  | [] => None
  | y :: l' => if String.eqb x y then Some O else S <$> index_of x l'
  end.

Definition line_db (n : nat) : ChannelDB :=
  {| get_channels_for_node := fun node _ =>
       match index_of node (line_node <$> seq 0 (S n)) with
       | Some i =>
           ((if Nat.eqb i 0 then [] else [line_chan (i - 1)])
            ++ (if Nat.ltb i n then [line_chan i] else []))%list
       | None => []
       end;
     get_channel_info := fun scid _ =>
       match index_of scid (line_chan <$> seq 0 n) with
       | Some i => Some (mkChannelInfo (line_node i) (line_node (S i)) None)
       | None => None
       end;
     get_policy_for_node := fun scid node _ =>
       match index_of scid (line_chan <$> seq 0 n) with
       | Some i =>
           if String.eqb node (line_node i) || String.eqb node (line_node (S i))
           then Some zero_fee_policy else None
       | None => None
       end;
     get_node_info_for_node_id := fun _ => None |}.

Definition line_finder (n : nat) : LNPathFinder :=
  {| channel_db := line_db n; blacklist := ∅ |}.

Local Close Scope string_scope.

(** ** Predicates used in the statements *)

(** The hops of a path as [(start_node, short_channel_id)] pairs: the start
    node of a hop is the previous node on the path, [from_node_id] for the
    first hop. *)
Fixpoint hops (from_node_id : NodeId) (path : Path)
  : list (string * string) :=
  match path with
  | [] => []
  | (node, scid) :: rest => (from_node_id, scid) :: hops node rest
  end.

(** [path] follows the predecessor map from [start]. *)
Fixpoint is_chain (prev : gmap string (string * string)) (start : NodeId)
    (path : Path) : Prop :=
  match path with
  | [] => True
  | (node, scid) :: rest =>
      prev !! start = Some (node, scid) /\ is_chain prev node rest
  end.

(** The value of a finite number, in units. *)
Definition units (c : Cost) : Z :=
  match exact c with
  | Finite u => u
  | _ => 0
  end.

(** A finite number that is not negative. *)
Definition finite_nonneg (c : Cost) : Prop :=
  match c with
  | Int z => 0 <= z
  | Float (Finite u) => 0 <= u
  | Float _ => False
  end.

(** A number that is not negative: the above, or [float('inf')]. *)
Definition cost_nonneg (c : Cost) : Prop :=
  c = Infinity \/ finite_nonneg c.

(** A number of units that is a binary64 value: rounding leaves it alone. *)
Definition representable (u : Z) : Prop := round_units u 1 = u.

(** The invariant of the main loop of [get_distances]. *)
Record search_inv (self : LNPathFinder) (nodeB : NodeId) (is_source : bool)
    (my_channels : option MyChannels) (st : SearchState) : Prop := {
  inv_root : distance_from_start st !! nodeB = Some (Int 0);
  inv_root_prev : prev_node st !! nodeB = None;
  inv_nonneg : forall u c,
    distance_from_start st !! u = Some c -> finite_nonneg c;
  inv_reached : forall u c,
    distance_from_start st !! u = Some c ->
    u = nodeB \/ is_Some (prev_node st !! u);
  inv_prev : forall u v s,
    prev_node st !! u = Some (v, s) ->
    is_Some (distance_from_start st !! u)
    /\ is_Some (distance_from_start st !! v)
    /\ (s ∉ blacklist self)
    /\ String.length s = 8%nat
    /\ is_Some (get_policy_for_node (channel_db self) s
                  (if is_source then u else v) my_channels)
}.

(** The order kept by the main loop: stored [float]s are binary64 values,
    an [int] is stored for the destination or the source only, a
    predecessor is never farther than the node it leads from, and the
    predecessor entries lead every node that has one to [nodeB]. *)
Record search_inv_order (nodeA : option NodeId) (nodeB : NodeId)
    (st : SearchState) : Prop := {
  ord_float : forall u x,
    distance_from_start st !! u = Some (Float (Finite x)) -> representable x;
  ord_int : forall u z,
    distance_from_start st !! u = Some (Int z) ->
    u = nodeB \/ truthy nodeA && eq_node u nodeA = true;
  ord_prev : forall u v s cu cv,
    prev_node st !! u = Some (v, s) ->
    distance_from_start st !! u = Some cu ->
    distance_from_start st !! v = Some cv ->
    units cv <= units cu;
  ord_chain : forall u,
    is_Some (prev_node st !! u) ->
    exists chain,
      is_chain (prev_node st) u chain /\ last (u :: chain.*1) = Some nodeB
}.

(** A finite graph snapshot: every channel joins two nodes of [nodes]. *)
Definition finite_graph (db : ChannelDB) (my_channels : option MyChannels)
    (nodes : list NodeId) : Prop :=
  forall scid ci,
    get_channel_info db scid my_channels = Some ci ->
    node1_id ci ∈ nodes /\ node2_id ci ∈ nodes.

(** Graph integrity: a channel listed for a node is known and has that node
    as an endpoint. *)
Definition snapshot_consistent (db : ChannelDB)
    (my_channels : option MyChannels) : Prop :=
  forall v scid,
    scid ∈ get_channels_for_node db v my_channels ->
    exists ci, get_channel_info db scid my_channels = Some ci
               /\ (node1_id ci = v \/ node2_id ci = v).

(** Every short channel id listed for a node is 8 bytes long. *)
Definition ids_well_formed (db : ChannelDB) (my_channels : option MyChannels)
  : Prop :=
  forall v scid,
    scid ∈ get_channels_for_node db v my_channels ->
    String.length scid = 8%nat.

(** The local view is a dict, and each of our channels has [nodeA], a
    non-empty id, as an endpoint. *)
Definition local_view_ok (db : ChannelDB) (nodeA : option NodeId)
    (my_channels : option MyChannels) : Prop :=
  exists mc, my_channels = Some mc
    /\ forall scid chan ci,
         mc !! scid = Some chan ->
         get_channel_info db scid my_channels = Some ci ->
         exists a, nodeA = Some a /\ truthy nodeA = true
                   /\ (node1_id ci = a \/ node2_id ci = a).

(** [(e.node_id, e.short_channel_id)] *)
Definition pair_of_edge (e : RouteEdge) : string * string :=
  (node_id e, short_channel_id e).

(** Termination measure: unreached nodes, then the sum of the stored
    distances (in units), then the queue length, in lexicographic order. *)
Fixpoint unreached (d : gmap string Cost) (nodes : list NodeId) : nat :=
  match nodes with
  | [] => O
  | u :: rest =>
      ((match d !! u with None => 1 | Some _ => 0 end)
       + unreached d rest)%nat
  end.

Fixpoint total_dist (d : gmap string Cost) (nodes : list NodeId) : nat :=
  match nodes with
  | [] => O
  | u :: rest =>
      ((match d !! u with Some c => Z.to_nat (units c) | None => 0 end)
       + total_dist d rest)%nat
  end.

Definition lex3 (x y : nat * nat * nat) : Prop :=
  let '(a, b, c) := x in
  let '(a', b', c') := y in
  ((a < a')%nat \/ (a = a' /\ ((b < b')%nat \/ (b = b' /\ (c < c')%nat)))).

Definition search_measure (nodes : list NodeId) (st : SearchState)
  : nat * nat * nat :=
  (unreached (distance_from_start st) nodes,
   total_dist (distance_from_start st) nodes,
   length (nodes_to_explore st)).

(** The amount entering a list of edges when [invoice_amount_msat] leaves
    it: each edge, from the last back to the first, adds its fee on the
    amount it forwards. *)
Definition amount_entering (edges : list RouteEdge) (invoice_amount_msat : Z)
  : Z :=
  fold_right (fun e a => a + fee_for_edge e a) invoice_amount_msat edges.

Definition cltv_total (edges : list RouteEdge) : Z :=
  fold_right (fun e c => c + cltv_expiry_delta e) 0 edges.

(** Two route edges with different fees, for examples. *)
Definition edge_to_B : RouteEdge := mkRouteEdge "B" "chan0001" 7 0 5 0.
Definition edge_to_D : RouteEdge := mkRouteEdge "D" "chan0002" 1000 100 40 0.

(** What a step of the inner loop does to the state: nothing, or one
    relaxation of [u] through channel [scid] of the explored node [v]. *)
Inductive relaxed (self : LNPathFinder) (is_source : bool)
    (my_channels : option MyChannels) (v : NodeId) (scid : ShortChannelID)
    (st st' : SearchState)
  : Prop :=
| relaxed_none : st' = st -> relaxed self is_source my_channels v scid st st'
| relaxed_some (u : NodeId) (alt : Cost) (amt : Z) :
    finite_nonneg alt ->
    cost_ltb alt (dist_get (distance_from_start st) u) = true ->
    is_Some (distance_from_start st !! v) ->
    scid ∉ blacklist self ->
    String.length scid = 8%nat ->
    is_Some (get_policy_for_node (channel_db self) scid
               (if is_source then u else v) my_channels) ->
    (exists ci, get_channel_info (channel_db self) scid my_channels = Some ci
                /\ (u = node1_id ci \/ u = node2_id ci)) ->
    st' = {| distance_from_start := <[u := alt]> (distance_from_start st);
             prev_node := <[u := (v, scid)]> (prev_node st);
             nodes_to_explore := pq_put (alt, amt, u) (nodes_to_explore st) |} ->
    relaxed self is_source my_channels v scid st st'.

Definition lex2 (x y : nat * nat) : Prop :=
  ((x.1 < y.1)%nat \/ (x.1 = y.1 /\ (x.2 < y.2)%nat)).

Definition distance_measure (nodes : list NodeId) (st : SearchState)
  : nat * nat :=
  (unreached (distance_from_start st) nodes,
   total_dist (distance_from_start st) nodes).

(** The ways [main_loop] ends: the queue is empty, the specified source was
    popped, or the loop body raised: [channel_info.node1_id] on [None],
    a failed [assert], [in] on a [None] local view, or a cost too large for
    a [float]. *)
Definition exit_ok (nodeA : option NodeId)
    (out : result (LoopExit * SearchState)) : Prop :=
  match out with
  | Ok (QueueEmpty, st) => nodes_to_explore st = []
  | Ok (SourcePopped a, st) => nodeA = Some a /\ truthy nodeA = true
  | Raise e =>
      e = AttributeError \/ e = AssertionError \/ e = TypeError
      \/ e = OverflowError
  end.

Definition returns_normally {A} (out : result A) : Prop :=
  exists a, out = Ok a.

(** Two nodes A and B joined by one channel with id [chan]; both directions
    publish [pol]. *)
Definition two_node_finder_ids (chan : string) (pol : Policy.t)
  : LNPathFinder :=
  {| channel_db :=
       {| get_channels_for_node := fun node _ =>
            if String.eqb node "A" || String.eqb node "B"
            then [chan] else [];
          get_channel_info := fun scid _ =>
            if String.eqb scid chan
            then Some (mkChannelInfo "A" "B" (Some 100000000%N)) else None;
          get_policy_for_node := fun scid node _ =>
            if String.eqb scid chan
               && (String.eqb node "A" || String.eqb node "B")
            then Some pol else None;
          get_node_info_for_node_id := fun _ => None |};
     blacklist := ∅ |}.

Definition two_node_finder (pol : Policy.t) : LNPathFinder :=
  two_node_finder_ids "chan0001" pol.

(** ** Further predicates on paths and on the search *)

(** The hops of a path as [(start_node, end_node, short_channel_id)]. *)
Fixpoint hop_triples (from_node_id : NodeId) (path : Path)
  : list (string * string * string) :=
  match path with
  | [] => []
  | (node, scid) :: rest =>
      (from_node_id, node, scid) :: hop_triples node rest
  end.

(** What the loop body of [get_distances] has established when it records
    [scid] as the way from [u] to the explored node [v] at [amount_msat]:
    the channel is not blacklisted, [u] is the endpoint computed from the
    channel info, the checks on our own channels passed, and [_edge_cost]
    returned a finite cost. *)
Definition relaxed_through (self : LNPathFinder) (nodeA : option NodeId)
    (is_source : bool) (my_channels : option MyChannels) (amount_msat : Z)
    (u v : NodeId) (scid : ShortChannelID) : Prop :=
  (scid ∉ blacklist self)
  /\ exists ci mc c fee,
       get_channel_info (channel_db self) scid my_channels = Some ci
       /\ u = (if String.eqb (node1_id ci) v
               then node2_id ci else node1_id ci)
       /\ my_channels = Some mc
       /\ local_gate nodeA mc scid u v amount_msat = Ok true
       /\ _edge_cost self scid
            (if is_source then u else v) (if is_source then v else u)
            amount_msat
            (if truthy nodeA then eq_node u nodeA else false)
            (bool_decide (is_Some (mc !! scid))) my_channels
          = Ok (c, fee)
       /\ c <> Infinity.

(** A second invariant of the main loop: amounts in the queue are never
    below the invoice amount, and every predecessor entry was recorded by a
    relaxation of a channel listed for the explored node. *)
Record search_inv_hops (self : LNPathFinder) (nodeA : option NodeId)
    (is_source : bool) (my_channels : option MyChannels)
    (invoice_amount_msat : Z) (st : SearchState) : Prop := {
  hops_queue : forall d amt n,
    (d, amt, n) ∈ nodes_to_explore st -> invoice_amount_msat <= amt;
  hops_prev : forall u v s,
    prev_node st !! u = Some (v, s) ->
    exists amt,
      invoice_amount_msat <= amt
      /\ s ∈ get_channels_for_node (channel_db self) v my_channels
      /\ relaxed_through self nodeA is_source my_channels amt u v s
}.

(** The invariants of the main loop together. *)
Definition search_inv_all (self : LNPathFinder) (nodeA : option NodeId)
    (nodeB : NodeId) (is_source : bool) (my_channels : option MyChannels)
    (invoice_amount_msat : Z) (st : SearchState) : Prop :=
  search_inv self nodeB is_source my_channels st
  /\ search_inv_hops self nodeA is_source my_channels invoice_amount_msat st
  /\ search_inv_order nodeA nodeB st.

Definition nonneg_fees (e : RouteEdge) : Prop :=
  0 <= fee_base_msat e /\ 0 <= fee_proportional_millionths e.

(** ** lnutil.py: short channel ids, shachain, commitment fees *)

Module lnutil.

(** The exceptions raised by the functions below. *)
Inductive error : Type :=
| OverflowError            (* int.to_bytes out of range *)
| UnableToDeriveSecret
| IndexError               (* bytearray index out of range *)
| KeyError                 (* self.buckets[i] *)
| AssertionError
| HashNotDerivable.        (* Exception("hash is not derivable: ...") *)

Inductive outcome (A : Type) : Type :=
| Returns (a : A)
| Raises (e : error).
Arguments Returns {A} a.
Arguments Raises {A} e.

(** [x.to_bytes(length, byteorder='big')] for [x] in range: the digits of
    [x] in base 256, most significant first. *)
Fixpoint be_bytes (length : nat) (x : Z) : string :=
  match length with
  | O => EmptyString
  | S n =>
      String.append (be_bytes n (x / 256))
        (String (Ascii.ascii_of_N (Z.to_N (x mod 256))) EmptyString)
  end.

Definition to_bytes (x : Z) (length : nat) : outcome string :=
  if x <? 0 then Raises OverflowError
  else if 256 ^ Z.of_nat length <=? x then Raises OverflowError
  else Returns (be_bytes length x).

(** [int.from_bytes(s, byteorder='big')] *)
Fixpoint from_bytes_loop (acc : Z) (s : string) : Z :=
  match s with
  | EmptyString => acc
  | String c s' => from_bytes_loop (acc * 256 + Z.of_N (Ascii.N_of_ascii c)) s'
  end.

Definition from_bytes (s : string) : Z := from_bytes_loop 0 s.

(** [ShortChannelID.from_components] *)
Definition from_components (block_height tx_pos_in_block output_index : Z)
  : outcome ShortChannelID :=
  match to_bytes block_height 3 with
  | Raises e => Raises e
  | Returns bh =>
    match to_bytes tx_pos_in_block 3 with
    | Raises e => Raises e
    | Returns tpos =>
      match to_bytes output_index 2 with
      | Raises e => Raises e
      | Returns oi => Returns (String.append bh (String.append tpos oi))
      end
    end
  end.

(** The properties [block_height], [txpos], [output_index]: slices
    [self[:3]], [self[3:6]], [self[6:8]]. *)
Definition block_height (self : ShortChannelID) : Z :=
  from_bytes (substring 0 3 self).
Definition txpos (self : ShortChannelID) : Z :=
  from_bytes (substring 3 3 self).
Definition output_index (self : ShortChannelID) : Z :=
  from_bytes (substring 6 2 self).

(** [bin(z)] *)
Fixpoint pos_bin (p : positive) : string :=
  match p with
  | xH => "1"
  | xO p' => String.append (pos_bin p') "0"
  | xI p' => String.append (pos_bin p') "1"
  end.

Definition bin (z : Z) : string :=
  match z with
  | Z0 => "0b0"
  | Zpos p => String.append "0b" (pos_bin p)
  | Zneg p => String.append "-0b" (pos_bin p)
  end.

(** [s[n:]] *)
Fixpoint drop_chars (n : nat) (s : string) : string :=
  match n, s with
  | O, _ => s
  | S n', EmptyString => EmptyString
  | S n', String _ s' => drop_chars n' s'
  end.

(** [l.index(c)], [None] for [ValueError]. *)
Fixpoint index_of_char (c : Ascii.ascii) (l : list Ascii.ascii) : option nat :=
  match l with
  | [] => None
  | x :: l' => if Ascii.eqb x c then Some O else S <$> index_of_char c l'
  end.

(** The character ['1']. *)
Definition char_one : Ascii.ascii := Ascii.ascii_of_nat 49.

Definition count_trailing_zeros (index : Z) : Z :=
  match index_of_char char_one
          (rev (list_ascii_of_string (drop_chars 2 (bin index)))) with
  | Some i => Z.of_nat i
  | None => 48
  end.

(** [ShachainElement = namedtuple("ShachainElement", ["secret", "index"])] *)
Record ShachainElement : Type := mkShachainElement {
  secret : string;
  index : Z
}.

#[global] Instance ShachainElement_eq_dec : EqDecision ShachainElement.
Proof. solve_decision. Defined.

(** [b[i] ^= m] on a bytearray; [None] when [i] is out of range. *)
Fixpoint xor_at (i : nat) (m : N) (s : string) : option string :=
  match s, i with
  | EmptyString, _ => None
  | String c s', O =>
      Some (String (Ascii.ascii_of_N (N.lxor (Ascii.N_of_ascii c) m)) s')
  | String c s', S i' => String c <$> xor_at i' m s'
  end.

Section Shachain.

(** [crypto.sha256] is not among the sources; any function on bytes. *)
Variable sha256 : string -> string.

(** The loop of [get_per_commitment_secret_from_seed] with [n] bit indexes
    left: [bitindex] runs from [n - 1] down to 0. *)
Fixpoint secret_loop (i : Z) (n : nat) (per_commitment_secret : string)
  : outcome string :=
  match n with
  | O => Returns per_commitment_secret
  | S bitindex =>
      let mask := Z.shiftl 1 (Z.of_nat bitindex) in
      if negb (Z.land i mask =? 0) then
        match xor_at (bitindex / 8)%nat
                     (N.shiftl 1 (N.of_nat (bitindex mod 8)%nat))
                     per_commitment_secret with
        | None => Raises IndexError
        | Some flipped => secret_loop i bitindex (sha256 flipped)
        end
      else secret_loop i bitindex per_commitment_secret
  end.

Definition get_per_commitment_secret_from_seed (seed : string) (i bits : Z)
  : outcome string :=
  secret_loop i (Z.to_nat bits) seed.

Definition get_prefix (index pos : Z) : Z :=
  let mask := Z.shiftl 1 64 - 1 - (Z.shiftl 1 pos - 1) in
  Z.land index mask.

Definition shachain_derive (element : ShachainElement) (to_index : Z)
  : outcome ShachainElement :=
  let from_index := index element in
  let zeros := count_trailing_zeros from_index in
  if negb (from_index =? get_prefix to_index zeros)
  then Raises UnableToDeriveSecret
  else
    match get_per_commitment_secret_from_seed (secret element) to_index zeros
    with
    | Raises e => Raises e
    | Returns s => Returns (mkShachainElement s to_index)
    end.

(** [RevocationStore]: the stored index and the buckets. *)
Record RevocationStore : Type := mkRevocationStore {
  store_index : Z;
  buckets : gmap Z ShachainElement
}.

Definition START_INDEX : Z := 2 ^ 48 - 1.

(** [RevocationStore(storage)] on an empty storage. *)
Definition new_store : RevocationStore :=
  {| store_index := START_INDEX; buckets := ∅ |}.

(** [for i in range(0, bucket)] of [add_next_entry]. *)
Fixpoint check_buckets (bkts : gmap Z ShachainElement)
    (new_element : ShachainElement) (idxs : list nat) : outcome unit :=
  match idxs with
  | [] => Returns tt
  | i :: rest =>
      match bkts !! Z.of_nat i with
      | None => Raises KeyError
      | Some this_bucket =>
          match shachain_derive new_element (index this_bucket) with
          | Raises e => Raises e
          | Returns e =>
              if negb (bool_decide (e = this_bucket))
              then Raises HashNotDerivable
              else check_buckets bkts new_element rest
          end
      end
  end.

Definition add_next_entry (self : RevocationStore) (hsh : string)
  : outcome RevocationStore :=
  let idx := store_index self in
  let new_element := mkShachainElement hsh idx in
  let bucket := count_trailing_zeros idx in
  match check_buckets (buckets self) new_element (seq 0 (Z.to_nat bucket)) with
  | Raises e => Raises e
  | Returns _ =>
      Returns {| store_index := idx - 1;
                 buckets := <[bucket := new_element]> (buckets self) |}
  end.

(** [for i in range(0, 49)] of [retrieve_secret]. *)
Fixpoint retrieve_loop (bkts : gmap Z ShachainElement) (idx : Z)
    (idxs : list nat) : outcome string :=
  match idxs with
  | [] => Raises UnableToDeriveSecret
  | i :: rest =>
      match bkts !! Z.of_nat i with
      | None => Raises UnableToDeriveSecret
      | Some bucket =>
          match shachain_derive bucket idx with
          | Raises UnableToDeriveSecret => retrieve_loop bkts idx rest
          | Raises e => Raises e
          | Returns element => Returns (secret element)
          end
      end
  end.

Definition retrieve_secret (self : RevocationStore) (idx : Z)
  : outcome string :=
  if negb (idx <=? START_INDEX) then Raises AssertionError
  else retrieve_loop (buckets self) idx (seq 0 49).

End Shachain.

(** BOLT-03 weights *)
Definition HTLC_TIMEOUT_WEIGHT : Z := 663.
Definition HTLC_SUCCESS_WEIGHT : Z := 703.
Definition COMMITMENT_TX_WEIGHT : Z := 724.
Definition HTLC_OUTPUT_WEIGHT : Z := 172.

Inductive HTLCOwner : Type := LOCAL | REMOTE.

Definition offered_htlc_trim_threshold_sat (dust_limit_sat feerate : Z) : Z :=
  let weight := HTLC_TIMEOUT_WEIGHT in
  dust_limit_sat + weight * feerate / 1000.

Definition received_htlc_trim_threshold_sat (dust_limit_sat feerate : Z) : Z :=
  let weight := HTLC_SUCCESS_WEIGHT in
  dust_limit_sat + weight * feerate / 1000.

Definition fee_for_htlc_output (feerate : Z) : Z :=
  feerate * HTLC_OUTPUT_WEIGHT.

(** The returned dict [{LOCAL: ..., REMOTE: ...}] as a function of its key. *)
Definition calc_fees_for_commitment_tx (num_htlcs feerate : Z)
    (is_local_initiator round_to_sat : bool) : HTLCOwner -> Z :=
  let overall_weight := COMMITMENT_TX_WEIGHT + num_htlcs * HTLC_OUTPUT_WEIGHT in
  let fee := feerate * overall_weight in
  let fee := if round_to_sat then fee / 1000 * 1000 else fee in
  fun owner =>
    match owner with
    | LOCAL => if is_local_initiator then fee else 0
    | REMOTE => if negb is_local_initiator then fee else 0
    end.

Definition get_ln_flag_pair_of_bit (flag_bit : Z) : Z :=
  if flag_bit mod 2 =? 0 then flag_bit + 1 else flag_bit - 1.

End lnutil.

(** A stand-in for [sha256] in examples: any function on bytes will do. *)
Definition toy_hash (s : string) : string := String.append s "#".

(** * Properties *)

(** ** Rounding to binary64 *)

Lemma UNIT_pos : 0 < UNIT.
Proof. reflexivity. Qed.

Lemma round_half_even_bounds n d :
  0 < d -> n / d <= round_half_even n d <= n / d + 1.
Proof.
  intros Hd. unfold round_half_even.
  destruct (2 * (n mod d) ?= d); [destruct (Z.even (n / d))|..]; lia.
Qed.

Lemma round_half_even_exact k d : 0 < d -> round_half_even (k * d) d = k.
Proof.
  intros Hd. unfold round_half_even.
  rewrite Z.mod_mul, Z.div_mul by lia.
  destruct (Z.compare_spec (2 * 0) d); lia.
Qed.

Lemma round_half_even_mono n1 n2 d :
  0 < d -> n1 <= n2 -> round_half_even n1 d <= round_half_even n2 d.
Proof.
  intros Hd Hn.
  assert (n1 / d <= n2 / d) as Hq by (apply Z.div_le_mono; lia).
  destruct (Z.eq_dec (n1 / d) (n2 / d)) as [E|NE].
  - assert (n1 mod d <= n2 mod d) as Hr.
    { pose proof (Z.div_mod n1 d). pose proof (Z.div_mod n2 d).
      rewrite E in *. lia. }
    unfold round_half_even. rewrite E.
    destruct (Z.compare_spec (2 * (n1 mod d)) d),
             (Z.compare_spec (2 * (n2 mod d)) d);
      try lia; destruct (Z.even (n2 / d)); lia.
  - pose proof (round_half_even_bounds n1 d Hd).
    pose proof (round_half_even_bounds n2 d Hd). lia.
Qed.

Lemma float_exponent_nonneg x : 0 <= float_exponent x.
Proof. unfold float_exponent. lia. Qed.

Lemma float_exponent_small x : x < 2 ^ 53 -> float_exponent x = 0.
Proof.
  intros Hx. unfold float_exponent.
  destruct (Z.le_gt_cases x 0) as [Hle|Hpos].
  - rewrite Z.log2_nonpos by done. lia.
  - assert (Z.log2 x < 53) by (apply Z.log2_lt_pow2; lia). lia.
Qed.

Lemma float_exponent_big x :
  2 ^ 53 <= x ->
  1 <= float_exponent x
  /\ 2 ^ 52 * 2 ^ float_exponent x <= x < 2 ^ 53 * 2 ^ float_exponent x.
Proof.
  intros Hx. unfold float_exponent.
  assert (0 < x) as Hpos by lia.
  assert (53 <= Z.log2 x) as Hlog by (apply Z.log2_le_pow2; lia).
  destruct (Z.log2_spec x Hpos) as [Hlo Hhi].
  rewrite Z.max_r by lia.
  rewrite <- !Z.pow_add_r by lia.
  replace (52 + (Z.log2 x - 52)) with (Z.log2 x) by lia.
  replace (53 + (Z.log2 x - 52)) with (Z.succ (Z.log2 x)) by lia.
  lia.
Qed.

Lemma float_exponent_mono x y :
  x <= y -> float_exponent x <= float_exponent y.
Proof.
  intros Hxy. unfold float_exponent.
  pose proof (Z.log2_le_mono x y Hxy). lia.
Qed.

(** What [round_units] computes on a magnitude that is not negative: below
    2^53 units the nearest integer; above, the nearest multiple of the
    spacing [P], between [2^52 * P] and [2^53 * P]. *)
Lemma round_units_spec n d :
  0 <= n -> 0 < d ->
  (n / d < 2 ^ 53 /\ round_units n d = round_half_even n d)
  \/ (exists P,
        P = 2 ^ float_exponent (n / d) /\ 2 <= P
        /\ 2 ^ 52 * P <= n / d < 2 ^ 53 * P
        /\ 2 ^ 52 <= round_half_even n (d * P) <= 2 ^ 53
        /\ round_units n d = round_half_even n (d * P) * P).
Proof.
  intros Hn Hd. unfold round_units. rewrite Z.abs_eq by done.
  destruct (Z.lt_ge_cases (n / d) (2 ^ 53)) as [Hsmall|Hbig].
  - left. split; [done|].
    rewrite float_exponent_small by done.
    change (2 ^ 0) with 1. by rewrite !Z.mul_1_r.
  - right. destruct (float_exponent_big _ Hbig) as (He & Hlo & Hhi).
    set (e := float_exponent (n / d)) in *.
    exists (2 ^ e).
    assert (2 ^ 1 <= 2 ^ e) as HP by (apply Z.pow_le_mono_r; lia).
    change (2 ^ 1) with 2 in HP.
    split; [done|]. split; [done|]. split; [done|]. split; [|done].
    assert (0 < d * 2 ^ e) as HD by nia.
    pose proof (Z.div_mod n d ltac:(lia)) as Hdm.
    pose proof (Z.mod_pos_bound n d Hd) as Hmod.
    pose proof (round_half_even_exact (2 ^ 52) (d * 2 ^ e) HD) as E52.
    pose proof (round_half_even_exact (2 ^ 53) (d * 2 ^ e) HD) as E53.
    split.
    + rewrite <- E52 at 1. apply round_half_even_mono; [done|]. nia.
    + rewrite <- E53. apply round_half_even_mono; [done|]. nia.
Qed.

Lemma round_units_nonneg n d : 0 <= n -> 0 < d -> 0 <= round_units n d.
Proof.
  intros Hn Hd.
  destruct (round_units_spec n d Hn Hd)
    as [[_ ->]|(P & _ & HP & _ & Hm & ->)].
  - pose proof (round_half_even_bounds n d Hd).
    pose proof (Z.div_pos n d Hn Hd). lia.
  - nia.
Qed.

(** Rounding never crosses a power of two from below. *)
Lemma round_units_le_pow2 n d k :
  0 <= n -> 0 < d -> 53 <= k -> n < d * 2 ^ k -> round_units n d <= 2 ^ k.
Proof.
  intros Hn Hd Hk Hlt.
  assert (n / d < 2 ^ k) as Hq.
  { apply Z.div_lt_upper_bound; lia. }
  assert (2 ^ 53 <= 2 ^ k) as H53 by (apply Z.pow_le_mono_r; lia).
  destruct (round_units_spec n d Hn Hd)
    as [[Hsmall ->]|(P & HPe & HP & [Hlo Hhi] & Hm & ->)].
  - pose proof (round_half_even_bounds n d Hd). lia.
  - set (e := float_exponent (n / d)) in *.
    assert (e <= k - 53) as He.
    { destruct (Z.le_gt_cases e (k - 53)) as [|Hgt]; [done|exfalso].
      assert (2 ^ (k - 52) <= 2 ^ e) by (apply Z.pow_le_mono_r; lia).
      assert (2 ^ 52 * 2 ^ (k - 52) = 2 ^ k) as Hk2.
      { rewrite <- Z.pow_add_r by lia. f_equal. lia. }
      subst P. nia. }
    assert (2 ^ e <= 2 ^ (k - 53)) as HPk.
    { apply Z.pow_le_mono_r; [lia|done]. }
    assert (2 ^ 53 * 2 ^ (k - 53) = 2 ^ k) as Hk3.
    { rewrite <- Z.pow_add_r by lia. f_equal. lia. }
    subst P. nia.
Qed.

(** Rounding is monotone (on whole numbers of units). *)
Lemma round_units_mono a b :
  0 <= a -> a <= b -> round_units a 1 <= round_units b 1.
Proof.
  intros Ha Hab.
  destruct (round_units_spec a 1 Ha ltac:(lia))
    as [[Hsa ->]|(P & HPe & HP & [Hlo Hhi] & Hm & ->)];
    destruct (round_units_spec b 1 ltac:(lia) ltac:(lia))
      as [[Hsb ->]|(Q & HQe & HQ & [Hlo' Hhi'] & Hm' & ->)];
    rewrite ?Z.div_1_r, ?Z.mul_1_l in *.
  - apply round_half_even_mono; lia.
  - pose proof (round_half_even_bounds a 1 ltac:(lia)) as Hb.
    rewrite Z.div_1_r in Hb.
    assert (round_half_even a 1 = a) as ->.
    { rewrite <- (Z.mul_1_r a) at 1. apply round_half_even_exact. lia. }
    nia.
  - lia.
  - pose proof (float_exponent_mono a b Hab) as He.
    destruct (Z.eq_dec (float_exponent a) (float_exponent b)) as [E|NE].
    + assert (P = Q) as -> by (subst; by rewrite E).
      assert (round_half_even a Q <= round_half_even b Q)
        by (apply round_half_even_mono; lia).
      nia.
    + assert (2 * P <= Q) as HPQ.
      { subst P Q.
        assert (2 ^ (float_exponent a + 1) <= 2 ^ float_exponent b)
          by (apply Z.pow_le_mono_r; lia).
        rewrite Z.pow_add_r in * by
          (pose proof (float_exponent_nonneg a); lia).
        lia. }
      nia.
Qed.

Lemma representable_mant m e :
  0 <= m <= 2 ^ 53 -> 0 <= e -> representable (m * 2 ^ e).
Proof.
  intros Hm He. unfold representable.
  assert (0 < 2 ^ e) as Hpe by (apply Z.pow_pos_nonneg; lia).
  assert (0 <= m * 2 ^ e) as Ha by nia.
  destruct (round_units_spec (m * 2 ^ e) 1 Ha ltac:(lia))
    as [[_ ->]|(Q & HQe & HQ & [Hlo Hhi] & _ & ->)];
    rewrite ?Z.div_1_r, ?Z.mul_1_l in *.
  - rewrite <- (Z.mul_1_r (m * 2 ^ e)) at 1.
    apply round_half_even_exact. lia.
  - set (E := float_exponent (m * 2 ^ e)) in *.
    assert (0 <= E) by apply float_exponent_nonneg.
    destruct (Z.le_gt_cases E e) as [HEe|HEe].
    + assert (2 ^ e = 2 ^ (e - E) * Q) as Hsplit.
      { subst Q. rewrite <- Z.pow_add_r by lia. f_equal. lia. }
      rewrite Hsplit, Z.mul_assoc.
      rewrite round_half_even_exact by lia. done.
    + assert (Q = 2 ^ (E - e) * 2 ^ e) as Hsplit.
      { subst Q. rewrite <- Z.pow_add_r by lia. f_equal. lia. }
      assert (2 ^ 1 <= 2 ^ (E - e)) as H2 by (apply Z.pow_le_mono_r; lia).
      change (2 ^ 1) with 2 in H2.
      assert (m = 2 ^ 53) as -> by nia.
      assert (2 ^ (E - e) = 2) as HEq by nia.
      rewrite HEq in Hsplit.
      replace (2 ^ 53 * 2 ^ e) with (2 ^ 52 * Q) by (rewrite Hsplit; lia).
      rewrite round_half_even_exact by lia. done.
Qed.

(** The result of a rounding is a binary64 value. *)
Lemma representable_round n d :
  0 <= n -> 0 < d -> representable (round_units n d).
Proof.
  intros Hn Hd.
  destruct (round_units_spec n d Hn Hd)
    as [[Hsmall ->]|(P & -> & HP & _ & Hm & ->)].
  - pose proof (round_half_even_bounds n d Hd).
    pose proof (Z.div_pos n d Hn Hd).
    rewrite <- (Z.mul_1_r (round_half_even n d)).
    apply (representable_mant _ 0); lia.
  - apply representable_mant; [lia|apply float_exponent_nonneg].
Qed.

Lemma representable_ge a x :
  representable x -> 0 <= x -> x <= a -> x <= round_units a 1.
Proof.
  intros Hx H0 Hxa. rewrite <- Hx. by apply round_units_mono.
Qed.

Lemma representable_500 : representable (500 * UNIT).
Proof.
  unfold UNIT. replace 500 with (500 * 2 ^ 0) by reflexivity.
  rewrite <- Z.mul_assoc, <- Z.pow_add_r by lia.
  apply representable_mant; [|lia].
  split; [lia|]. change (2 ^ 0) with 1. vm_compute. discriminate.
Qed.

(** ** Arithmetic on costs *)

Lemma float_round_nonneg n d :
  0 <= n -> 0 < d ->
  float_round n d = PInf
  \/ (float_round n d = Finite (round_units n d)
      /\ 0 <= round_units n d < OVERFLOW
      /\ representable (round_units n d)).
Proof.
  intros Hn Hd. unfold float_round.
  pose proof (round_units_nonneg n d Hn Hd) as H0.
  pose proof (representable_round n d Hn Hd) as Hrep.
  destruct (OVERFLOW <=? round_units n d) eqn:E1; [by left|].
  apply Z.leb_gt in E1.
  assert (0 < OVERFLOW) by reflexivity.
  destruct (round_units n d <=? - OVERFLOW) eqn:E2;
    [apply Z.leb_le in E2; lia|].
  right. done.
Qed.

(** Below a power of two under 2^1024 a rounding does not overflow. *)
Lemma float_round_in_range n d k :
  0 <= n -> 0 < d -> 53 <= k <= 2097 -> n < d * 2 ^ k ->
  float_round n d = Finite (round_units n d)
  /\ 0 <= round_units n d <= 2 ^ k.
Proof.
  intros Hn Hd Hk Hlt.
  pose proof (round_units_le_pow2 n d k Hn Hd ltac:(lia) Hlt) as Hle.
  pose proof (round_units_nonneg n d Hn Hd) as H0.
  split; [|done]. unfold float_round.
  assert (2 ^ k < OVERFLOW) as Hov.
  { unfold OVERFLOW. apply Z.pow_lt_mono_r; lia. }
  destruct (OVERFLOW <=? round_units n d) eqn:E1;
    [apply Z.leb_le in E1; lia|].
  destruct (round_units n d <=? - OVERFLOW) eqn:E2;
    [apply Z.leb_le in E2; lia|].
  done.
Qed.

Lemma float_of_int_ok z f :
  0 <= z -> float_of_int z = Ok f ->
  exists u, f = Finite u /\ 0 <= u /\ representable u
            /\ u = round_units (z * UNIT) 1.
Proof.
  intros Hz. unfold float_of_int.
  pose proof UNIT_pos.
  destruct (float_round_nonneg (z * UNIT) 1 ltac:(nia) ltac:(lia))
    as [->|(-> & H0 & Hrep)]; [discriminate|].
  intros [= <-]. eexists. split; [done|]. split; [lia|done].
Qed.

Lemma int_true_div_ok a b f :
  0 <= a -> 0 < b -> int_true_div a b = Ok f ->
  exists u, f = Finite u /\ 0 <= u /\ representable u.
Proof.
  intros Ha Hb. unfold int_true_div.
  destruct (b =? 0) eqn:E; [apply Z.eqb_eq in E; lia|].
  rewrite Z.sgn_pos, Z.abs_eq, Z.mul_1_l by lia.
  pose proof UNIT_pos.
  destruct (float_round_nonneg (a * UNIT) b ltac:(nia) Hb)
    as [->|(-> & H0 & Hrep)]; [discriminate|].
  intros [= <-]. eexists. split; [done|]. split; [lia|done].
Qed.

Lemma int_true_div_raise a b e :
  0 < b -> int_true_div a b = Raise e -> e = OverflowError.
Proof.
  intros Hb. unfold int_true_div.
  destruct (b =? 0) eqn:E; [apply Z.eqb_eq in E; lia|].
  destruct (float_round _ _); [discriminate|..]; by intros [= <-].
Qed.

Lemma float_of_int_raise z e :
  float_of_int z = Raise e -> e = OverflowError.
Proof.
  unfold float_of_int.
  destruct (float_round _ _); [discriminate|..]; by intros [= <-].
Qed.

Lemma cost_add_raise a b e : cost_add a b = Raise e -> e = OverflowError.
Proof.
  destruct a as [x|f], b as [y|g]; simpl; try discriminate.
  - destruct (float_of_int x) eqn:E; [discriminate|].
    intros [= <-]. by eapply float_of_int_raise.
  - destruct (float_of_int y) eqn:E; [discriminate|].
    intros [= <-]. by eapply float_of_int_raise.
Qed.

Lemma float_add_nonneg x y :
  0 <= x -> 0 <= y ->
  float_add (Finite x) (Finite y) = PInf
  \/ (float_add (Finite x) (Finite y) = Finite (round_units (x + y) 1)
      /\ 0 <= round_units (x + y) 1
      /\ representable (round_units (x + y) 1)).
Proof.
  intros Hx Hy. cbn [float_add].
  destruct (float_round_nonneg (x + y) 1 ltac:(lia) ltac:(lia))
    as [->|(-> & H0 & Hrep)]; [by left|right].
  split; [done|]. split; [lia|done].
Qed.

Lemma cost_nonneg_cases c :
  cost_nonneg c ->
  (exists z, c = Int z /\ 0 <= z)
  \/ (exists u, c = Float (Finite u) /\ 0 <= u)
  \/ c = Infinity.
Proof.
  intros [->|H]; [auto|].
  destruct c as [z|[u| | |]]; simpl in H; try done; eauto.
Qed.

Lemma float_of_int_nonneg z g :
  0 <= z -> float_of_int z = Ok g -> exists u, g = Finite u /\ 0 <= u.
Proof.
  intros Hz E. destruct (float_of_int_ok _ _ Hz E) as (u & -> & Hu & _). eauto.
Qed.

(** The sum of two numbers that are not negative is not negative; when it
    is finite, so are both operands. *)
Lemma cost_add_nonneg a b r :
  cost_nonneg a -> cost_nonneg b -> cost_add a b = Ok r ->
  cost_nonneg r
  /\ (finite_nonneg r -> finite_nonneg a /\ finite_nonneg b).
Proof.
  intros Ha Hb.
  destruct (cost_nonneg_cases _ Ha) as [(x & -> & Hx)|[(x & -> & Hx)| ->]];
    destruct (cost_nonneg_cases _ Hb) as [(y & -> & Hy)|[(y & -> & Hy)| ->]];
    unfold Infinity; cbn [cost_add].
  - intros [= <-]. split; [right; simpl; lia|done].
  - destruct (float_of_int x) as [g|] eqn:E; [|discriminate].
    destruct (float_of_int_nonneg _ _ Hx E) as (u & -> & Hu).
    intros [= <-].
    pose proof (float_add_nonneg u y Hu Hy) as Hadd; cbn [float_add] in Hadd |- *;
    destruct Hadd as [->|(-> & H0 & _)].
    + split; [by left|done].
    + split; [by right|done].
  - destruct (float_of_int x) as [g|] eqn:E; [|discriminate].
    destruct (float_of_int_nonneg _ _ Hx E) as (u & -> & Hu).
    intros [= <-]. split; [by left|done].
  - destruct (float_of_int y) as [g|] eqn:E; [|discriminate].
    destruct (float_of_int_nonneg _ _ Hy E) as (u & -> & Hu).
    intros [= <-].
    pose proof (float_add_nonneg x u Hx Hu) as Hadd; cbn [float_add] in Hadd |- *;
    destruct Hadd as [->|(-> & H0 & _)].
    + split; [by left|done].
    + split; [by right|done].
  - intros [= <-].
    pose proof (float_add_nonneg x y Hx Hy) as Hadd; cbn [float_add] in Hadd |- *;
    destruct Hadd as [->|(-> & H0 & _)].
    + split; [by left|done].
    + split; [by right|done].
  - intros [= <-]. split; [by left|done].
  - destruct (float_of_int y) as [g|] eqn:E; [|discriminate].
    destruct (float_of_int_nonneg _ _ Hy E) as (u & -> & Hu).
    intros [= <-]. split; [by left|done].
  - intros [= <-]. split; [by left|done].
  - intros [= <-]. split; [by left|done].
Qed.

(** A [float] sum is a binary64 value, and it is not below a binary64 left
    operand (the right operand may be absorbed, never more). *)
Lemma cost_add_float x c r :
  0 <= x -> cost_nonneg c -> cost_add (Float (Finite x)) c = Ok r ->
  finite_nonneg r ->
  exists u, r = Float (Finite u) /\ representable u
            /\ (representable x -> x <= u).
Proof.
  intros Hx Hc.
  destruct (cost_nonneg_cases _ Hc) as [(y & -> & Hy)|[(y & -> & Hy)| ->]];
    unfold Infinity; cbn [cost_add].
  - destruct (float_of_int y) as [g|] eqn:E; [|discriminate].
    destruct (float_of_int_nonneg _ _ Hy E) as (u & -> & Hu).
    intros [= <-].
    pose proof (float_add_nonneg x u Hx Hu) as Hadd; cbn [float_add] in Hadd |- *;
    destruct Hadd as [->|(-> & H0 & Hrep)]; [done|].
    intros _. eexists. split; [done|]. split; [done|].
    intros Hrx. apply representable_ge; [done|done|lia].
  - intros [= <-].
    pose proof (float_add_nonneg x y Hx Hy) as Hadd; cbn [float_add] in Hadd |- *;
    destruct Hadd as [->|(-> & H0 & Hrep)]; [done|].
    intros _. eexists. split; [done|]. split; [done|].
    intros Hrx. apply representable_ge; [done|done|lia].
  - intros [= <-]. done.
Qed.

(** The sum of an [int] and a [float] is a binary64 value. *)
Lemma cost_add_int_float z y r :
  0 <= z -> 0 <= y -> cost_add (Int z) (Float (Finite y)) = Ok r ->
  finite_nonneg r ->
  exists u, r = Float (Finite u) /\ representable u
            /\ round_units (z * UNIT) 1 <= u.
Proof.
  intros Hz Hy. cbn [cost_add].
  destruct (float_of_int z) as [g|] eqn:E; [|discriminate].
  destruct (float_of_int_ok _ _ Hz E) as (u & -> & Hu & Hrep & ->).
  intros [= <-].
  pose proof (float_add_nonneg _ y Hu Hy) as Hadd; cbn [float_add] in Hadd |- *;
    destruct Hadd as [->|(-> & H0 & Hrep')]; [done|].
  intros _. eexists. split; [done|]. split; [done|].
  apply representable_ge; [done|done|lia].
Qed.

Lemma cost_ltb_units a b :
  finite_nonneg a -> finite_nonneg b ->
  cost_ltb a b = (units a <? units b).
Proof.
  unfold cost_ltb, units.
  destruct a as [x|[x| | |]], b as [y|[y| | |]]; simpl; done.
Qed.

Lemma cost_ltb_infinity a :
  finite_nonneg a -> cost_ltb a Infinity = true.
Proof. destruct a as [x|[x| | |]]; simpl; done. Qed.

Lemma units_nonneg c : finite_nonneg c -> 0 <= units c.
Proof.
  pose proof UNIT_pos.
  destruct c as [x|[x| | |]]; unfold units; simpl; try done. nia.
Qed.

(** Nothing that is not negative is below zero. *)
Lemma cost_ltb_zero a : cost_nonneg a -> cost_ltb a (Int 0) = false.
Proof.
  pose proof UNIT_pos.
  intros [->|Ha]; [done|].
  destruct a as [x|[x| | |]]; unfold cost_ltb; simpl in *; try done.
  - apply Z.ltb_ge. nia.
  - apply Z.ltb_ge. lia.
Qed.

Lemma cost_ltb_finite a b :
  cost_nonneg a -> cost_ltb a b = true -> finite_nonneg a.
Proof.
  intros [->|Ha]; [|done].
  unfold cost_ltb. simpl. by destruct (exact b).
Qed.

Lemma cost_add_representable a b w :
  finite_nonneg a -> finite_nonneg b ->
  cost_add a b = Ok (Float (Finite w)) -> representable w.
Proof.
  intros Ha Hb.
  destruct a as [x|[x| | |]], b as [y|[y| | |]]; simpl in Ha, Hb; try done;
    cbn [cost_add].
  - destruct (float_of_int x) as [g|] eqn:E; [|discriminate].
    destruct (float_of_int_nonneg _ _ Ha E) as (u & -> & Hu).
    pose proof (float_add_nonneg u y Hu Hb) as Hadd; cbn [float_add] in Hadd |- *.
    destruct Hadd as [->|(-> & _ & Hrep)]; [discriminate|].
    by intros [= <-].
  - destruct (float_of_int y) as [g|] eqn:E; [|discriminate].
    destruct (float_of_int_nonneg _ _ Hb E) as (u & -> & Hu).
    pose proof (float_add_nonneg x u Ha Hu) as Hadd; cbn [float_add] in Hadd |- *.
    destruct Hadd as [->|(-> & _ & Hrep)]; [discriminate|].
    by intros [= <-].
  - pose proof (float_add_nonneg x y Ha Hb) as Hadd; cbn [float_add] in Hadd |- *.
    destruct Hadd as [->|(-> & _ & Hrep)]; [discriminate|].
    by intros [= <-].
Qed.

Lemma cost_add_int a b z :
  cost_add a b = Ok (Int z) -> exists x y, a = Int x /\ b = Int y.
Proof.
  destruct a as [x|f], b as [y|g]; cbn [cost_add]; eauto.
  - destruct (float_of_int x); discriminate.
  - destruct (float_of_int y); discriminate.
  - discriminate.
Qed.

(** Adding a small [int] or a [float] to a [float] raises nothing. *)
Lemma cost_add_float_returns f c :
  (forall y, c = Int y -> 0 <= y < 2 ^ 1000) ->
  exists r, cost_add (Float f) c = Ok r.
Proof.
  intros Hc. destruct c as [y|g]; cbn [cost_add]; [|eauto].
  destruct (Hc y eq_refl) as [Hy0 Hy].
  unfold float_of_int.
  pose proof UNIT_pos.
  assert (y * UNIT < 1 * 2 ^ 2097) as Hlt.
  { unfold UNIT.
    assert (2 ^ 1000 * 2 ^ 1074 = 2 ^ 2074) as E
      by (rewrite <- Z.pow_add_r by lia; done).
    assert (2 ^ 2074 < 2 ^ 2097) by (apply Z.pow_lt_mono_r; lia).
    nia. }
  destruct (float_round_in_range (y * UNIT) 1 2097 ltac:(nia) ltac:(lia)
              ltac:(lia) Hlt) as [-> _].
  eauto.
Qed.

(** ** Short channel ids and route creation *)

Lemma normalize_ok s : String.length s = 8%nat -> normalize s = Ok s.
Proof. unfold normalize. by intros ->. Qed.

Lemma normalize_inv s r :
  normalize s = Ok r -> r = s /\ String.length s = 8%nat.
Proof.
  unfold normalize.
  destruct (Nat.eqb_spec (String.length s) 8); [|discriminate].
  by intros [= <-].
Qed.

Lemma normalize_raise s e :
  normalize s = Raise e -> e = AssertionError /\ String.length s <> 8%nat.
Proof.
  unfold normalize.
  destruct (Nat.eqb_spec (String.length s) 8); [discriminate|].
  by intros [= <-].
Qed.

Lemma from_channel_policy_inv pol scid node ni e :
  from_channel_policy pol scid node ni = Ok e ->
  String.length scid = 8%nat
  /\ e = {| node_id := node;
            short_channel_id := scid;
            fee_base_msat := Z.of_N (Policy.fee_base_msat pol);
            fee_proportional_millionths :=
              Z.of_N (Policy.fee_proportional_millionths pol);
            cltv_expiry_delta := Z.of_N (Policy.cltv_expiry_delta pol);
            node_features :=
              match ni with
              | Some i => Z.of_N (features i)
              | None => 0
              end |}.
Proof.
  unfold from_channel_policy.
  destruct (normalize scid) as [s|] eqn:E; [|discriminate].
  apply normalize_inv in E as [-> Hlen]. by intros [= <-].
Qed.

Lemma from_channel_policy_ok pol scid node ni :
  String.length scid = 8%nat ->
  exists e, from_channel_policy pol scid node ni = Ok e
            /\ pair_of_edge e = (node, scid).
Proof.
  intros Hlen. unfold from_channel_policy. rewrite normalize_ok by done.
  eexists. split; reflexivity.
Qed.

Lemma from_channel_policy_raise pol scid node ni e :
  from_channel_policy pol scid node ni = Raise e ->
  e = AssertionError /\ String.length scid <> 8%nat.
Proof.
  unfold from_channel_policy.
  destruct (normalize scid) as [s|] eqn:E; [discriminate|].
  intros [= <-]. by apply normalize_raise in E.
Qed.

Lemma route_from_pairs_ok self mc path prev_id acc :
  Forall (fun p => String.length p.2 = 8%nat) path ->
  (forall start scid, (start, scid) ∈ hops prev_id path ->
     is_Some (get_policy_for_node (channel_db self) scid start mc)) ->
  exists r, route_from_pairs self mc path prev_id acc = Ok (acc ++ r)
            /\ pair_of_edge <$> r = path.
Proof.
  intros Hlen. revert prev_id acc.
  induction Hlen as [|[node scid] rest Hscid _ IH]; intros prev_id acc Hres;
    simpl.
  - exists []. by rewrite app_nil_r.
  - destruct (Hres prev_id scid) as [pol Hpol]; [simpl; left|].
    rewrite Hpol.
    destruct (from_channel_policy_ok pol scid node
                (get_node_info_for_node_id (channel_db self) node) Hscid)
      as (e & -> & He).
    destruct (IH node (acc ++ [e])) as (r & Hr & Hmap).
    { intros start s Hin. apply Hres. simpl. by right. }
    exists (e :: r). rewrite Hr, <- app_assoc. split; [done|].
    rewrite fmap_cons, Hmap, He. done.
Qed.

Lemma route_from_pairs_raise self mc path prev_id acc e :
  Forall (fun p => String.length p.2 = 8%nat) path ->
  route_from_pairs self mc path prev_id acc = Raise e ->
  exists start scid,
    (start, scid) ∈ hops prev_id path
    /\ get_policy_for_node (channel_db self) scid start mc = None
    /\ e = NoChannelPolicy scid.
Proof.
  intros Hlen. revert prev_id acc.
  induction Hlen as [|[node scid] rest Hscid _ IH]; intros prev_id acc; simpl.
  - discriminate.
  - simpl in Hscid.
    destruct (get_policy_for_node _ scid prev_id mc) as [pol|] eqn:Hpol.
    + destruct (from_channel_policy_ok pol scid node
                  (get_node_info_for_node_id (channel_db self) node) Hscid)
        as (e' & -> & _).
      intros H. destruct (IH _ _ H) as (start & s & Hin & Hnone & ->).
      exists start, s. split; [by right|done].
    + unfold raise_NoChannelPolicy. rewrite normalize_ok by done.
      intros [= <-]. exists prev_id, scid. split; [by left|done].
Qed.

Lemma route_from_pairs_unresolved self mc path prev_id acc start scid :
  Forall (fun p => String.length p.2 = 8%nat) path ->
  (start, scid) ∈ hops prev_id path ->
  get_policy_for_node (channel_db self) scid start mc = None ->
  exists s, route_from_pairs self mc path prev_id acc = Raise (NoChannelPolicy s).
Proof.
  intros Hlen. revert prev_id acc.
  induction Hlen as [|[node s0] rest Hscid _ IH]; intros prev_id acc; simpl.
  - intros Hin. by apply elem_of_nil in Hin.
  - simpl in Hscid. intros Hin Hnone.
    destruct (get_policy_for_node _ s0 prev_id mc) as [pol|] eqn:Hpol.
    + apply elem_of_cons in Hin as [[= -> ->]|Hin]; [congruence|].
      destruct (from_channel_policy_ok pol s0 node
                  (get_node_info_for_node_id (channel_db self) node) Hscid)
        as (e' & -> & _).
      by apply IH.
    + unfold raise_NoChannelPolicy. rewrite normalize_ok by done.
      by exists s0.
Qed.

(** C8, as far as the code goes: on a path that is not [None] and whose
    short channel ids are all 8 bytes long, [create_route_from_path] raises
    [NoChannelPolicy] exactly when some hop has no policy published by its
    start node (the previous node on the path); it raises nothing else, and
    when every hop resolves it returns a route. *)
Theorem create_route_from_path_raises_iff
    (self : LNPathFinder) (path : Path) (from_node_id : NodeId)
    (mc : option MyChannels) :
  Forall (fun p => String.length p.2 = 8%nat) path ->
  ((exists scid, create_route_from_path self (Some path) from_node_id mc
                 = Raise (NoChannelPolicy scid))
   <-> (exists start scid,
          (start, scid) ∈ hops from_node_id path
          /\ get_policy_for_node (channel_db self) scid start mc = None))
  /\ (forall e, create_route_from_path self (Some path) from_node_id mc = Raise e ->
        exists start scid,
          (start, scid) ∈ hops from_node_id path
          /\ get_policy_for_node (channel_db self) scid start mc = None
          /\ e = NoChannelPolicy scid)
  /\ ((forall start scid, (start, scid) ∈ hops from_node_id path ->
         is_Some (get_policy_for_node (channel_db self) scid start mc)) ->
      exists route,
        create_route_from_path self (Some path) from_node_id mc = Ok route).
Proof.
  intros Hlen. unfold create_route_from_path. repeat split.
  - intros [scid H]. apply route_from_pairs_raise in H; [|done].
    destruct H as (start & s & Hin & Hnone & _). eauto.
  - intros (start & scid & Hin & Hnone).
    eapply route_from_pairs_unresolved; eauto.
  - intros e H. by apply route_from_pairs_raise in H.
  - intros Hres.
    destruct (route_from_pairs_ok self mc path from_node_id [] Hlen Hres)
      as (r & Hr & _).
    eauto.
Qed.

Lemma create_route_from_path_raises_iff_witness :
  ((exists scid,
      create_route_from_path (three_node_finder None)
        (Some [("D", "chan0002"); ("A", "chan0001")]) "B" None
      = Raise (NoChannelPolicy scid))
   <-> (exists start scid,
          (start, scid) ∈ hops "B" [("D", "chan0002"); ("A", "chan0001")]
          /\ get_policy_for_node (three_node_db None) scid start None = None))
  /\ create_route_from_path (three_node_finder None)
       (Some [("D", "chan0002"); ("A", "chan0001")]) "B" None
     = Raise (NoChannelPolicy "chan0001").
Proof.
  split; [|reflexivity].
  apply (create_route_from_path_raises_iff (three_node_finder None)
           [("D", "chan0002"); ("A", "chan0001")] "B" None).
  repeat constructor.
Defined.

(** C8 as stated fails on a short channel id that is not 8 bytes long: the
    hop below has no policy, yet the exception is the [AssertionError] of
    [ShortChannelID.normalize], raised while [NoChannelPolicy] is being
    constructed; and a hop whose policy resolves raises it too. *)
Lemma create_route_from_path_counterexample :
  get_policy_for_node (three_node_db None) "ab" "A" None = None
  /\ create_route_from_path (three_node_finder None) (Some [("B", "ab")]) "A"
       None = Raise AssertionError
  /\ (forall scid,
        create_route_from_path (three_node_finder None) (Some [("B", "ab")])
          "A" None <> Raise (NoChannelPolicy scid))
  /\ is_Some (get_policy_for_node
                (channel_db (two_node_finder_ids "c1" zero_fee_policy))
                "c1" "A" None)
  /\ create_route_from_path (two_node_finder_ids "c1" zero_fee_policy)
       (Some [("B", "c1")]) "A" None = Raise AssertionError.
Proof. repeat split; try done; by eexists. Qed.

(** C10: with [path = None], [create_route_from_path] raises the plain
    [Exception]; it neither raises [NoChannelPolicy] nor returns. *)
Theorem create_route_from_path_None
    (self : LNPathFinder) (from_node_id : NodeId) (mc : option MyChannels) :
  create_route_from_path self None from_node_id mc
  = Raise (PyException "cannot create route from None path")
  /\ (forall scid, create_route_from_path self None from_node_id mc
                   <> Raise (NoChannelPolicy scid))
  /\ (forall route, create_route_from_path self None from_node_id mc
                    <> Ok route).
Proof. repeat split; intros; simpl; discriminate. Qed.

(** ** The edge cost *)

Lemma float_of_int_in_range z k :
  0 <= z -> z < 2 ^ k -> 0 <= k <= 1023 ->
  exists u, float_of_int z = Ok (Finite u) /\ 0 <= u <= 2 ^ (k + 1074).
Proof.
  intros Hz Hlt Hk. unfold float_of_int.
  pose proof UNIT_pos.
  assert (z * UNIT < 1 * 2 ^ (k + 1074)) as Hb.
  { rewrite Z.pow_add_r by lia. fold UNIT. nia. }
  destruct (float_round_in_range (z * UNIT) 1 (k + 1074) ltac:(nia)
              ltac:(lia) ltac:(lia) Hb) as [-> Hr].
  eauto.
Qed.

Lemma int_true_div_in_range a b k :
  0 <= a -> 0 < b -> a < b * 2 ^ k -> 0 <= k <= 1023 ->
  exists u, int_true_div a b = Ok (Finite u) /\ 0 <= u <= 2 ^ (k + 1074).
Proof.
  intros Ha Hb Hlt Hk. unfold int_true_div.
  destruct (b =? 0) eqn:E; [apply Z.eqb_eq in E; lia|].
  rewrite Z.sgn_pos, Z.abs_eq, Z.mul_1_l by lia.
  pose proof UNIT_pos.
  assert (a * UNIT < b * 2 ^ (k + 1074)) as Hbound.
  { rewrite Z.pow_add_r by lia. fold UNIT. nia. }
  destruct (float_round_in_range (a * UNIT) b (k + 1074) ltac:(nia)
              Hb ltac:(lia) Hbound) as [-> Hr].
  eauto.
Qed.

Lemma float_add_in_range x y k :
  0 <= x <= 2 ^ k -> 0 <= y <= 2 ^ k -> 53 <= k <= 2095 ->
  exists w, float_add (Finite x) (Finite y) = Finite w
            /\ 0 <= w /\ representable w.
Proof.
  intros Hx Hy Hk. cbn [float_add].
  assert (x + y < 1 * 2 ^ (k + 2)) as Hb.
  { rewrite Z.pow_add_r by lia. change (2 ^ 2) with 4.
    assert (0 < 2 ^ k) by (apply Z.pow_pos_nonneg; lia). lia. }
  destruct (float_round_in_range (x + y) 1 (k + 2) ltac:(lia) ltac:(lia)
              ltac:(lia) Hb) as [-> Hr].
  eexists. split; [done|]. split; [lia|].
  apply representable_round; lia.
Qed.

Lemma is_fee_sane_bound fee amt :
  is_fee_sane fee amt = true -> fee <= 5000 \/ 100 * fee <= amt.
Proof.
  unfold is_fee_sane.
  destruct (fee <=? 5000) eqn:E1; [apply Z.leb_le in E1; auto|].
  destruct (100 * fee <=? amt) eqn:E2; [apply Z.leb_le in E2; auto|done].
Qed.

Lemma fee_for_edge_msat_nonneg amt (base ppm : N) :
  0 <= amt -> 0 <= fee_for_edge_msat amt (Z.of_N base) (Z.of_N ppm).
Proof.
  intros Hamt. unfold fee_for_edge_msat.
  assert (0 <= amt * Z.of_N ppm / 1000000) by (apply Z.div_pos; [nia|lia]).
  lia.
Qed.

(** What [_edge_cost] does once the channel info and the policy are found:
    on an admissible edge it returns [base_cost] or the cost formula; on the
    others, when it returns, [float('inf')]. *)
Lemma edge_cost_admissible self scid start_node end_node amt ign mine mc
    ci pol :
  get_channel_info (channel_db self) scid mc = Some ci ->
  get_policy_for_node (channel_db self) scid start_node mc = Some pol ->
  admissible ci pol scid amt ->
  _edge_cost self scid start_node end_node amt ign mine mc
  = if ign then Ok (Int base_cost, 0)
    else
      let fee :=
        fee_for_edge_msat amt (Z.of_N (Policy.fee_base_msat pol))
          (Z.of_N (Policy.fee_proportional_millionths pol)) in
      match int_true_div (Z.of_N (Policy.cltv_expiry_delta pol) * amt * 15)
                         1000000000 with
      | Raise e => Raise e
      | Ok cltv_cost =>
          match cost_add (Int (base_cost + fee)) (Float cltv_cost) with
          | Raise e => Raise e
          | Ok overall_cost => Ok (overall_cost, fee)
          end
      end.
Proof.
  intros Hci Hpol (Hdis & Hmin & Hcap & Hmax & Hlen & Hcltv & Hsane).
  unfold _edge_cost. rewrite Hci, Hpol.
  unfold Policy.is_disabled. rewrite Hdis.
  destruct (amt <? _) eqn:E; [apply Z.ltb_lt in E; lia|].
  assert ((match capacity_sat ci with
           | Some cap => amt / 1000 >? Z.of_N cap
           | None => false
           end) = false) as ->.
  { destruct (capacity_sat ci) as [cap|]; [|done].
    specialize (Hcap cap eq_refl). lia. }
  assert ((match Policy.htlc_maximum_msat pol with
           | Some hmax => amt >? Z.of_N hmax
           | None => false
           end) = false) as ->.
  { destruct (Policy.htlc_maximum_msat pol) as [hmax|]; [|done].
    specialize (Hmax hmax eq_refl). lia. }
  unfold from_channel_policy. rewrite normalize_ok by done.
  unfold is_sane_to_use, fee_for_edge.
  cbn [cltv_expiry_delta fee_base_msat fee_proportional_millionths].
  destruct (Z.of_N (Policy.cltv_expiry_delta pol) >? 14 * 144) eqn:E2; [lia|].
  rewrite Hsane. done.
Qed.

Lemma edge_cost_inv self scid start_node end_node amt ign mine mc c fee :
  _edge_cost self scid start_node end_node amt ign mine mc = Ok (c, fee) ->
  (c = Infinity /\ fee = 0)
  \/ exists ci pol,
       get_channel_info (channel_db self) scid mc = Some ci
       /\ get_policy_for_node (channel_db self) scid start_node mc = Some pol
       /\ admissible ci pol scid amt.
Proof.
  unfold _edge_cost.
  destruct (get_channel_info _ _ _) as [ci|] eqn:Hci; [|intros [= <- <-]; auto].
  destruct (get_policy_for_node _ _ _ _) as [pol|] eqn:Hpol;
    [|intros [= <- <-]; auto].
  unfold Policy.is_disabled.
  destruct (Policy.disabled pol) eqn:Hdis; [intros [= <- <-]; auto|].
  destruct (amt <? _) eqn:Hmin; [intros [= <- <-]; auto|].
  apply Z.ltb_ge in Hmin.
  destruct (match capacity_sat ci with Some _ => _ | None => _ end) eqn:Hcap;
    [intros [= <- <-]; auto|].
  destruct (match Policy.htlc_maximum_msat pol with Some _ => _ | None => _ end)
    eqn:Hmax; [intros [= <- <-]; auto|].
  destruct (from_channel_policy _ _ _ _) as [e|] eqn:He; [|discriminate].
  apply from_channel_policy_inv in He as [Hlen ->].
  unfold is_sane_to_use, fee_for_edge.
  cbn [cltv_expiry_delta fee_base_msat fee_proportional_millionths].
  destruct (Z.of_N (Policy.cltv_expiry_delta pol) >? 14 * 144) eqn:Hcl;
    [intros [= <- <-]; auto|].
  destruct (is_fee_sane _ amt) eqn:Hsane; [|intros [= <- <-]; auto].
  cbn [negb]. intros _. right. exists ci, pol.
  split; [done|]. split; [done|].
  repeat split; try done; try lia.
  - intros cap E. rewrite E in Hcap. lia.
  - intros hmax E. rewrite E in Hmax. lia.
Qed.

(** When [_edge_cost] returns, the cost is not negative and neither is the
    fee; a cost other than [float('inf')] is finite, belongs to an
    admissible edge, and is an [int] only when costs are ignored. *)
Lemma edge_cost_finite self scid start_node end_node amt ign mine mc c fee :
  _edge_cost self scid start_node end_node amt ign mine mc = Ok (c, fee) ->
  cost_nonneg c /\ 0 <= fee
  /\ (c <> Infinity ->
      finite_nonneg c
      /\ (forall z, c = Int z -> ign = true /\ z = base_cost)
      /\ exists ci pol,
           get_channel_info (channel_db self) scid mc = Some ci
           /\ get_policy_for_node (channel_db self) scid start_node mc
              = Some pol
           /\ admissible ci pol scid amt).
Proof.
  intros H.
  destruct (edge_cost_inv _ _ _ _ _ _ _ _ _ _ H)
    as [[-> ->]|(ci & pol & Hci & Hpol & Hadm)].
  { split; [by left|]. split; [lia|done]. }
  rewrite (edge_cost_admissible _ _ _ _ _ _ _ _ _ _ Hci Hpol Hadm) in H.
  pose proof Hadm as (_ & Hmin & _ & _ & _ & _ & _).
  assert (0 <= amt) as Hamt by lia.
  destruct ign.
  - injection H as <- <-.
    split; [right; simpl; unfold base_cost; lia|]. split; [lia|].
    intros _. split; [simpl; unfold base_cost; lia|].
    split; [by intros z [= <-]|eauto].
  - cbn zeta in H.
    pose proof (fee_for_edge_msat_nonneg amt (Policy.fee_base_msat pol)
                  (Policy.fee_proportional_millionths pol) Hamt) as Hfee.
    assert (0 <= Z.of_N (Policy.cltv_expiry_delta pol) * amt * 15) as Hn
      by (apply Z.mul_nonneg_nonneg; [apply Z.mul_nonneg_nonneg|]; lia).
    destruct (int_true_div _ _) as [cltv_cost|] eqn:Hdiv; [|discriminate].
    destruct (int_true_div_ok _ 1000000000 _ Hn ltac:(lia) Hdiv)
      as (u & -> & Hu & _).
    destruct (cost_add _ _) as [oc|] eqn:Hadd; [|discriminate].
    injection H as <- <-.
    assert (cost_nonneg (Int (base_cost + fee_for_edge_msat amt
                (Z.of_N (Policy.fee_base_msat pol))
                (Z.of_N (Policy.fee_proportional_millionths pol))))) as Hi
      by (right; simpl; unfold base_cost; lia).
    assert (cost_nonneg (Float (Finite u))) as Hf by by right.
    destruct (cost_add_nonneg _ _ _ Hi Hf Hadd) as [Hnn _].
    split; [done|]. split; [done|].
    intros Hc. destruct Hnn as [?|Hfin]; [done|].
    split; [done|]. split; [|eauto].
    intros z ->. cbn [cost_add] in Hadd.
    destruct (float_of_int _); discriminate.
Qed.

(** The exceptions of [_edge_cost]: the assertion of [normalize] on a short
    channel id that is not 8 bytes long, and a cost too large for a
    [float]. *)
Lemma edge_cost_raise self scid start_node end_node amt ign mine mc e :
  _edge_cost self scid start_node end_node amt ign mine mc = Raise e ->
  (e = AssertionError /\ String.length scid <> 8%nat) \/ e = OverflowError.
Proof.
  unfold _edge_cost.
  destruct (get_channel_info _ _ _) as [ci|]; [|discriminate].
  destruct (get_policy_for_node _ _ _ _) as [pol|]; [|discriminate].
  destruct (Policy.is_disabled pol); [discriminate|].
  destruct (amt <? _); [discriminate|].
  destruct (match capacity_sat ci with Some _ => _ | None => _ end);
    [discriminate|].
  destruct (match Policy.htlc_maximum_msat pol with Some _ => _ | None => _ end);
    [discriminate|].
  destruct (from_channel_policy _ _ _ _) as [re|e'] eqn:He.
  - destruct (negb _); [discriminate|].
    destruct ign; [discriminate|].
    destruct (int_true_div _ _) as [cltv_cost|e'] eqn:Hdiv.
    + destruct (cost_add _ _) as [oc|e'] eqn:Hadd; [discriminate|].
      intros [= <-]. right. by eapply cost_add_raise.
    + intros [= <-]. right. eapply int_true_div_raise; [|exact Hdiv]. lia.
  - intros [= <-]. left. by eapply from_channel_policy_raise.
Qed.

(** Below 2^1000 msat the cost of an admissible edge is finite. *)
Lemma edge_cost_in_range self scid start_node end_node amt ign mine mc ci pol :
  get_channel_info (channel_db self) scid mc = Some ci ->
  get_policy_for_node (channel_db self) scid start_node mc = Some pol ->
  admissible ci pol scid amt ->
  amt < 2 ^ 1000 ->
  exists c fee,
    _edge_cost self scid start_node end_node amt ign mine mc = Ok (c, fee)
    /\ finite_nonneg c.
Proof.
  intros Hci Hpol Hadm Hamt.
  rewrite (edge_cost_admissible _ _ _ _ _ _ _ _ _ _ Hci Hpol Hadm).
  destruct ign.
  { eexists _, _. split; [done|]. simpl. unfold base_cost. lia. }
  cbn zeta.
  destruct Hadm as (_ & Hmin & _ & _ & _ & Hcltv & Hsane).
  assert (0 <= amt) as H0 by lia.
  pose proof (fee_for_edge_msat_nonneg amt (Policy.fee_base_msat pol)
                (Policy.fee_proportional_millionths pol) H0) as Hfee.
  set (fee := fee_for_edge_msat _ _ _) in *.
  apply is_fee_sane_bound in Hsane.
  assert (2 ^ 13 <= 2 ^ 1000) as Hp by (apply Z.pow_le_mono_r; lia).
  change (2 ^ 13) with 8192 in Hp.
  assert (2 ^ 1001 = 2 * 2 ^ 1000) as E1
    by (rewrite <- Z.pow_succ_r by lia; done).
  assert (2 ^ 1015 = 32768 * 2 ^ 1000) as E2.
  { change 32768 with (2 ^ 15). rewrite <- Z.pow_add_r by lia. done. }
  assert (0 <= Z.of_N (Policy.cltv_expiry_delta pol) * amt * 15) as Hn
    by (apply Z.mul_nonneg_nonneg; [apply Z.mul_nonneg_nonneg|]; lia).
  assert (Z.of_N (Policy.cltv_expiry_delta pol) * amt * 15
          < 1000000000 * 2 ^ 1015) as Hq.
  { assert (Z.of_N (Policy.cltv_expiry_delta pol) * amt <= 2016 * amt)
      by (apply Z.mul_le_mono_nonneg_r; lia).
    lia. }
  destruct (int_true_div_in_range
              (Z.of_N (Policy.cltv_expiry_delta pol) * amt * 15) 1000000000
              1015 Hn ltac:(lia) Hq ltac:(lia))
    as (u & -> & Hu).
  cbn [cost_add].
  destruct (float_of_int_in_range (base_cost + fee) 1001
              ltac:(unfold base_cost; lia) ltac:(unfold base_cost; lia)
              ltac:(lia)) as (g & -> & Hg).
  assert (2 ^ (1001 + 1074) <= 2 ^ (1015 + 1074))
    by (apply Z.pow_le_mono_r; lia).
  destruct (float_add_in_range g u (1015 + 1074) ltac:(lia) ltac:(lia)
              ltac:(lia)) as (w & -> & Hw & _).
  eexists _, _. split; [done|]. done.
Qed.

Lemma edge_cost_no_overflow self scid start_node end_node amt ign mine mc e :
  amt < 2 ^ 1000 ->
  _edge_cost self scid start_node end_node amt ign mine mc = Raise e ->
  e = AssertionError /\ String.length scid <> 8%nat.
Proof.
  intros Hamt H.
  destruct (edge_cost_raise _ _ _ _ _ _ _ _ _ H) as [?| ->]; [done|].
  exfalso. revert H. unfold _edge_cost.
  destruct (get_channel_info _ _ _) as [ci|] eqn:Hci; [|discriminate].
  destruct (get_policy_for_node _ _ _ _) as [pol|] eqn:Hpol; [|discriminate].
  unfold Policy.is_disabled.
  destruct (Policy.disabled pol) eqn:Hdis; [discriminate|].
  destruct (amt <? _) eqn:Hmin; [discriminate|].
  apply Z.ltb_ge in Hmin.
  destruct (match capacity_sat ci with Some _ => _ | None => _ end) eqn:Hcap;
    [discriminate|].
  destruct (match Policy.htlc_maximum_msat pol with Some _ => _ | None => _ end)
    eqn:Hmax; [discriminate|].
  destruct (from_channel_policy _ _ _ _) as [re|e'] eqn:He.
  2:{ intros [= ->]. by apply from_channel_policy_raise in He as [? _]. }
  apply from_channel_policy_inv in He as [Hlen ->].
  unfold is_sane_to_use, fee_for_edge.
  cbn [cltv_expiry_delta fee_base_msat fee_proportional_millionths].
  destruct (Z.of_N (Policy.cltv_expiry_delta pol) >? 14 * 144) eqn:Hcl;
    [discriminate|].
  destruct (is_fee_sane _ amt) eqn:Hsane; [|discriminate].
  cbn [negb]. intros H.
  assert (admissible ci pol scid amt) as Hadm.
  { repeat split; try done; try lia.
    - intros cap E. rewrite E in Hcap. lia.
    - intros hmax E. rewrite E in Hmax. lia. }
  destruct (edge_cost_in_range self scid start_node end_node amt ign mine mc
              ci pol Hci Hpol Hadm Hamt) as (c & fee & Hok & _).
  rewrite (edge_cost_admissible _ _ _ _ _ _ _ _ _ _ Hci Hpol Hadm) in Hok.
  cbn zeta in Hok. rewrite H in Hok. discriminate.
Qed.

(** C3, as far as the code goes: with [ignore_costs] set, an admissible edge
    costs exactly [base_cost] and its fee is reported as 0; the fee term and
    the CLTV term are both left out. *)
Theorem edge_cost_ignore_costs
    (self : LNPathFinder) (scid : ShortChannelID) (start_node end_node : NodeId)
    (amt : Z) (is_mine : bool) (mc : option MyChannels) (c : Cost) (fee : Z) :
  _edge_cost self scid start_node end_node amt true is_mine mc = Ok (c, fee) ->
  c <> Infinity ->
  c = Int base_cost /\ fee = 0.
Proof.
  intros H Hc.
  destruct (edge_cost_inv _ _ _ _ _ _ _ _ _ _ H)
    as [[-> _]|(ci & pol & Hci & Hpol & Hadm)]; [done|].
  rewrite (edge_cost_admissible _ _ _ _ _ _ _ _ _ _ Hci Hpol Hadm) in H.
  by injection H as <- <-.
Qed.

Lemma edge_cost_ignore_costs_witness :
  _edge_cost (three_node_finder None) "chan0002" "B" "D" 1000000000
             true false (Some ∅) = Ok (Int 500, 0)
  /\ Int 500 = Int base_cost /\ 0 = 0.
Proof.
  split; [reflexivity|].
  apply (edge_cost_ignore_costs (three_node_finder None) "chan0002" "B" "D"
           1000000000 false (Some ∅)); [reflexivity|discriminate].
Defined.

(** C3 as stated fails: on channel C2 of the three-node graph, from B with
    cltv 40 and 10^9 msat, the CLTV term is 600 and base cost plus CLTV term
    is 1100, yet the cost is 500. *)
Lemma edge_cost_ignore_costs_counterexample :
  get_policy_for_node (three_node_db None) "chan0002" "B" (Some ∅)
  = Some (Policy.mk 1000 100 40 0 None false)
  /\ _edge_cost (three_node_finder None) "chan0002" "B" "D" 1000000000
                true false (Some ∅) = Ok (Int 500, 0)
  /\ exists cltv_cost with_cltv,
       int_true_div (40 * 1000000000 * 15) 1000000000 = Ok cltv_cost
       /\ cost_eqb (Float cltv_cost) (Int 600) = true
       /\ cost_add (Int base_cost) (Float cltv_cost) = Ok with_cltv
       /\ cost_eqb with_cltv (Int 1100) = true
       /\ cost_eqb (Int 500) with_cltv = false.
Proof.
  split; [reflexivity|]. split; [reflexivity|].
  eexists _, _.
  split; [vm_compute; reflexivity|].
  split; [vm_compute; reflexivity|].
  split; [vm_compute; reflexivity|].
  split; vm_compute; reflexivity.
Qed.

(** ** The route sanity walk *)

Lemma route_loop_app xs e amt cltv :
  route_loop (xs ++ [e]) amt cltv =
  match route_loop xs amt cltv with
  | Some (a, c) =>
      if negb (is_sane_to_use e a) then None
      else Some (a + fee_for_edge e a, c + cltv_expiry_delta e)
  | None => None
  end.
Proof.
  revert amt cltv. induction xs as [|x xs IH]; intros amt cltv; simpl.
  - by destruct (is_sane_to_use e amt).
  - destruct (is_sane_to_use x amt); simpl; [apply IH|done].
Qed.

Lemma route_loop_rev edges invoice cltv0 amt cltv :
  route_loop (rev edges) invoice cltv0 = Some (amt, cltv) ->
  amt = amount_entering edges invoice /\ cltv = cltv0 + cltv_total edges.
Proof.
  revert amt cltv. induction edges as [|e edges IH]; intros amt cltv; simpl.
  - intros [= <- <-]. split; [done|lia].
  - rewrite route_loop_app.
    destruct (route_loop (rev edges) invoice cltv0) as [[a c]|]; [|done].
    destruct (IH a c eq_refl) as [-> ->].
    destruct (is_sane_to_use e _); simpl; [|done].
    intros [= <- <-]. split; [done|lia].
Qed.

(** C2, as far as the code goes: the walk of [is_route_sane_to_use] covers
    every edge except the FIRST one.  Each of the other edges, the last one
    included, adds its fee and its cltv delta; the first edge adds nothing,
    whatever its policy. *)
Theorem route_accumulation_all_but_first
    (first : RouteEdge) (rest : list RouteEdge)
    (invoice_amount_msat min_final_cltv_expiry amt cltv : Z) :
  route_accumulation (first :: rest) invoice_amount_msat min_final_cltv_expiry
  = Some (amt, cltv) ->
  amt = amount_entering rest invoice_amount_msat
  /\ cltv = min_final_cltv_expiry + cltv_total rest
  /\ forall first' : RouteEdge,
       route_accumulation (first' :: rest) invoice_amount_msat
                          min_final_cltv_expiry = Some (amt, cltv).
Proof.
  unfold route_accumulation. simpl. intros H.
  destruct (route_loop_rev _ _ _ _ _ H) as [-> ->]. done.
Qed.

Lemma route_accumulation_all_but_first_witness :
  route_accumulation [edge_to_B; edge_to_D] 1000000 9 = Some (1001100, 49)
  /\ 1001100 = amount_entering [edge_to_D] 1000000
  /\ 49 = 9 + cltv_total [edge_to_D]
  /\ forall first' : RouteEdge,
       route_accumulation [first'; edge_to_D] 1000000 9 = Some (1001100, 49).
Proof.
  split; [reflexivity|].
  apply (route_accumulation_all_but_first edge_to_B [edge_to_D] 1000000 9).
  reflexivity.
Defined.

(** C2 as stated fails: on the two-edge route below the code adds the fee
    and cltv of the last edge (1100 msat, 40 blocks) and leaves out those of
    the first edge (7 msat, 5 blocks); skipping the last edge instead would
    give another result. *)
Lemma route_accumulation_counterexample :
  route_accumulation [edge_to_B; edge_to_D] 1000000 9 = Some (1001100, 49)
  /\ accumulation_skipping_last [edge_to_B; edge_to_D] 1000000 9
     = Some (1000007, 14)
  /\ route_accumulation [edge_to_B; edge_to_D] 1000000 9
     <> accumulation_skipping_last [edge_to_B; edge_to_D] 1000000 9.
Proof. repeat split. vm_compute. discriminate. Qed.

(** ** Costs and the distance table *)

Lemma dist_get_insert (d : gmap string Cost) u c w :
  dist_get (<[u := c]> d) w = if decide (u = w) then c else dist_get d w.
Proof.
  unfold dist_get. rewrite lookup_insert. by destruct (decide (u = w)).
Qed.

Lemma eqb_decide (a b : string) :
  String.eqb a b = bool_decide (a = b).
Proof.
  destruct (String.eqb_spec a b); symmetry.
  - by apply bool_decide_eq_true.
  - by apply bool_decide_eq_false.
Qed.

Lemma dist_get_nonneg (d : gmap string Cost) v :
  (forall w c, d !! w = Some c -> finite_nonneg c) ->
  cost_nonneg (dist_get d v).
Proof.
  intros Hd. unfold dist_get.
  destruct (d !! v) as [c|] eqn:E; [right; eauto|by left].
Qed.

Lemma dist_get_finite (d : gmap string Cost) v :
  finite_nonneg (dist_get d v) -> d !! v = Some (dist_get d v).
Proof. unfold dist_get. by destruct (d !! v). Qed.

Lemma units_zero : units (Int 0) = 0.
Proof. reflexivity. Qed.

Lemma elem_of_pq_put (x y : Cost * Z * string) q :
  y ∈ pq_put x q -> y = x \/ y ∈ q.
Proof.
  induction q as [|z q IH]; simpl.
  - intros ->%list_elem_of_singleton. by left.
  - destruct (item_ltb z x); rewrite !elem_of_cons; [|tauto].
    intros [->|Hin]; [tauto|]. destruct (IH Hin); tauto.
Qed.

(** ** The search invariant *)

Section SearchInvariant.

Variable self : LNPathFinder.
Variable nodeA : option NodeId.
Variable nodeB : NodeId.
Variable is_source : bool.
Variable my_channels : option MyChannels.

Abbreviation inv := (search_inv self nodeB is_source my_channels).
Abbreviation relaxed_by := (relaxed self is_source my_channels).

(** One iteration of the inner loop leaves the state alone or records one
    relaxation: the edge passed every test, its cost [c] and the new
    distance [alt] of [u] are finite, and [alt] improves on the old one. *)
Lemma relax_edge_step amt v st scid st' :
  (forall w c, distance_from_start st !! w = Some c -> finite_nonneg c) ->
  relax_edge self nodeA is_source my_channels amt v st scid = Ok st' ->
  st' = st
  \/ exists u ci mc c fee dv alt,
       (scid ∉ blacklist self)
       /\ get_channel_info (channel_db self) scid my_channels = Some ci
       /\ u = (if String.eqb (node1_id ci) v
               then node2_id ci else node1_id ci)
       /\ my_channels = Some mc
       /\ local_gate nodeA mc scid u v amt = Ok true
       /\ _edge_cost self scid
            (if is_source then u else v) (if is_source then v else u) amt
            (if truthy nodeA then eq_node u nodeA else false)
            (bool_decide (is_Some (mc !! scid))) my_channels
          = Ok (c, fee)
       /\ finite_nonneg c /\ 0 <= fee
       /\ distance_from_start st !! v = Some dv
       /\ cost_add dv c = Ok alt
       /\ finite_nonneg alt
       /\ cost_ltb alt (dist_get (distance_from_start st) u) = true
       /\ st' = {| distance_from_start :=
                     <[u := alt]> (distance_from_start st);
                   prev_node := <[u := (v, scid)]> (prev_node st);
                   nodes_to_explore :=
                     pq_put (alt, amt + fee, u) (nodes_to_explore st) |}.
Proof.
  intros Hd. unfold relax_edge.
  destruct (bool_decide (scid ∈ blacklist self)) eqn:Hbl.
  { intros [= <-]. by left. }
  apply bool_decide_eq_false in Hbl.
  destruct (get_channel_info _ _ _) as [ci|] eqn:Hci; [|discriminate].
  destruct my_channels as [mc|] eqn:Hmc; [|discriminate].
  destruct (local_gate _ _ _ _ _ _) as [[|]|] eqn:Hgate; try discriminate.
  2:{ intros [= <-]. by left. }
  set (u := if String.eqb (node1_id ci) v then node2_id ci else node1_id ci)
    in *.
  destruct (_edge_cost _ _ _ _ _ _ _ _) as [[c fee]|] eqn:Hec; [|discriminate].
  destruct (cost_add _ _) as [alt|] eqn:Hadd; [|discriminate].
  destruct (cost_ltb _ _) eqn:Hlt.
  2:{ intros [= <-]. by left. }
  intros [= <-]. right.
  destruct (edge_cost_finite _ _ _ _ _ _ _ _ _ _ Hec) as (Hc & Hfee & _).
  pose proof (dist_get_nonneg _ v Hd) as Hv.
  destruct (cost_add_nonneg _ _ _ Hv Hc Hadd) as [Halt Hfin].
  pose proof (cost_ltb_finite _ _ Halt Hlt) as Haltf.
  destruct (Hfin Haltf) as [Hvf Hcf].
  exists u, ci, mc, c, fee,
    (dist_get (distance_from_start st) v), alt.
  repeat split; try done. by apply dist_get_finite.
Qed.

Lemma relax_edge_relaxed amt v st scid st' :
  (forall w c, distance_from_start st !! w = Some c -> finite_nonneg c) ->
  relax_edge self nodeA is_source my_channels amt v st scid = Ok st' ->
  relaxed_by v scid st st'.
Proof.
  intros Hd Hr.
  destruct (relax_edge_step _ _ _ _ _ Hd Hr)
    as [->|(u & ci & mc & c & fee & dv & alt & Hbl & Hci & Hu & Hmc & Hgate
            & Hec & Hcf & Hfee & Hdv & Hadd & Halt & Hlt & ->)].
  { by apply relaxed_none. }
  destruct (edge_cost_finite _ _ _ _ _ _ _ _ _ _ Hec) as (_ & _ & Hfin).
  destruct Hfin as (_ & _ & ci' & pol & _ & Hpol & Hadm).
  { intros ->. done. }
  destruct Hadm as (_ & _ & _ & _ & Hlen & _).
  eapply (relaxed_some _ _ _ v scid st _ u alt (amt + fee)); eauto.
  exists ci. split; [done|]. subst u.
  destruct (String.eqb _ _); auto.
Qed.

Lemma relaxed_inv v scid st st' :
  inv st -> relaxed_by v scid st st' -> inv st'.
Proof.
  intros Hinv [->|u alt amt Halt Hlt Hdv Hbl Hlen Hpol _ ->]; [done|].
  destruct Hinv as [Hroot Hrootp Hnn Hreach Hprev].
  assert (u <> nodeB) as HuB.
  { intros ->. unfold dist_get in Hlt. rewrite Hroot in Hlt. simpl in Hlt.
    rewrite cost_ltb_zero in Hlt by by right. done. }
  constructor; cbn [distance_from_start prev_node].
  - by rewrite lookup_insert_ne.
  - by rewrite lookup_insert_ne.
  - intros w c. rewrite lookup_insert.
    destruct (decide (u = w)); [by intros [= <-]|eauto].
  - intros w c. rewrite !lookup_insert.
    destruct (decide (u = w)); [eauto|apply Hreach].
  - intros w x s. rewrite !lookup_insert.
    destruct (decide (u = w)) as [<-|Hne].
    + intros [= <- <-].
      split; [eauto|]. split; [|done].
      destruct (decide (u = v)); [eauto|done].
    + intros Hw. destruct (Hprev _ _ _ Hw) as (Hdw & Hdx & ? & ? & ?).
      split; [done|]. split; [|done].
      destruct (decide (u = x)); [eauto|done].
Qed.

Lemma for_channels_inv amt v chs st st' :
  inv st ->
  for_channels self nodeA is_source my_channels amt v chs st = Ok st' ->
  inv st'.
Proof.
  revert st. induction chs as [|ch chs IH]; intros st Hinv; simpl.
  - by intros [= <-].
  - destruct (relax_edge _ _ _ _ _ _ _ _) as [st1|] eqn:Hr; [|discriminate].
    apply IH. eapply relaxed_inv; [done|].
    eapply relax_edge_relaxed; [|done]. apply Hinv.
Qed.

Lemma pop_inv st q :
  inv st ->
  inv {| distance_from_start := distance_from_start st;
         prev_node := prev_node st;
         nodes_to_explore := q |}.
Proof. intros [? ? ? ? ?]. by constructor. Qed.

Lemma main_loop_inv fuel st ex st' :
  inv st ->
  main_loop fuel self nodeA is_source my_channels st = Some (Ok (ex, st')) ->
  inv st'.
Proof.
  revert st. induction fuel as [|fuel IH]; intros st Hinv; simpl; [done|].
  destruct (pq_get (nodes_to_explore st)) as [[[[d amt] v] q]|].
  2:{ by intros [= <- <-]. }
  destruct (truthy nodeA && eq_node v nodeA).
  { intros [= <- <-]. by apply pop_inv. }
  destruct (negb _).
  { apply IH. by apply pop_inv. }
  destruct (for_channels _ _ _ _ _ _ _ _) as [st2|] eqn:Hfor; [|discriminate].
  apply IH. eapply for_channels_inv; [|done]. by apply pop_inv.
Qed.

(** *** The path invariant: amounts and recorded hops *)

Variable invoice : Z.

Abbreviation inv_hops :=
  (search_inv_hops self nodeA is_source my_channels invoice).

Lemma relax_edge_inv_hops amt v st scid st' :
  inv st -> inv_hops st -> invoice <= amt ->
  scid ∈ get_channels_for_node (channel_db self) v my_channels ->
  relax_edge self nodeA is_source my_channels amt v st scid = Ok st' ->
  inv_hops st'.
Proof.
  intros Hinv [Hq Hp] Hamt Hin Hr.
  destruct (relax_edge_step _ _ _ _ _ (inv_nonneg _ _ _ _ _ Hinv) Hr)
    as [->|(u & ci & mc & c & fee & dv & alt & Hbl & Hci & Hu & Hmc & Hgate
            & Hec & Hcf & Hfee & Hdv & Hadd & Halt & Hlt & ->)]; [done|].
  constructor; cbn [nodes_to_explore prev_node].
  - intros d a n [[= -> -> ->]|H]%elem_of_pq_put; [lia|eauto].
  - intros w x s. rewrite lookup_insert.
    destruct (decide (u = w)) as [<-|]; [|apply Hp].
    intros [= <- <-]. exists amt. split; [done|]. split; [done|].
    split; [done|]. exists ci, mc, c, fee.
    repeat split; try done. by intros ->.
Qed.

(** *** The order invariant *)

Abbreviation ord := (search_inv_order nodeA nodeB).

Lemma chain_units st start chain cs n :
  inv st -> ord st ->
  is_chain (prev_node st) start chain ->
  distance_from_start st !! start = Some cs ->
  n ∈ chain.*1 ->
  exists cn, distance_from_start st !! n = Some cn /\ units cn <= units cs.
Proof.
  intros Hinv Hord. revert start cs.
  induction chain as [|[m s] chain IH]; intros start cs; simpl.
  - intros _ _ Hin. by apply elem_of_nil in Hin.
  - intros [Hp Hchain] Hcs Hin.
    destruct (inv_prev _ _ _ _ _ Hinv _ _ _ Hp) as (_ & [cm Hcm] & _).
    pose proof (ord_prev _ _ _ Hord _ _ _ _ _ Hp Hcs Hcm) as Hle.
    apply elem_of_cons in Hin as [->|Hin]; [eauto|].
    destruct (IH _ _ Hchain Hcm Hin) as (cn & Hcn & Hle').
    exists cn. split; [done|lia].
Qed.

Lemma chain_insert_avoid (prev : gmap string (string * string)) u e start
    chain :
  is_chain prev start chain -> u ∉ start :: chain.*1 ->
  is_chain (<[u := e]> prev) start chain.
Proof.
  revert start. induction chain as [|[m s] chain IH]; intros start; simpl.
  - done.
  - intros [Hp Hchain] Hnot.
    apply not_elem_of_cons in Hnot as [Hne Hnot].
    split; [by rewrite lookup_insert_ne|]. by apply IH.
Qed.

Lemma chain_insert_reroute (prev : gmap string (string * string)) u v s
    start chain chain_v :
  is_chain (<[u := (v, s)]> prev) v chain_v ->
  last (v :: chain_v.*1) = Some nodeB ->
  is_chain prev start chain ->
  last (start :: chain.*1) = Some nodeB ->
  exists chain',
    is_chain (<[u := (v, s)]> prev) start chain'
    /\ last (start :: chain'.*1) = Some nodeB.
Proof.
  intros Hv Hlastv. revert start.
  induction chain as [|[m s'] chain IH]; intros start Hchain Hlast.
  - destruct (decide (start = u)) as [->|Hne].
    + exists ((v, s) :: chain_v). simpl.
      rewrite lookup_insert_eq. split; [done|].
      destruct chain_v; done.
    + exists []. done.
  - destruct (decide (start = u)) as [->|Hne].
    + exists ((v, s) :: chain_v). simpl.
      rewrite lookup_insert_eq. split; [done|].
      destruct chain_v; done.
    + destruct Hchain as [Hp Hchain].
      destruct (IH m Hchain) as (chain' & Hc' & Hl').
      { destruct chain; done. }
      exists ((m, s') :: chain'). simpl.
      rewrite lookup_insert_ne by done. split; [done|].
      destruct chain'; done.
Qed.

Lemma relax_edge_inv_order amt v st scid st' :
  inv st -> ord st ->
  truthy nodeA && eq_node v nodeA = false ->
  relax_edge self nodeA is_source my_channels amt v st scid = Ok st' ->
  ord st'.
Proof.
  intros Hinv Hord Hbrk Hr.
  destruct (relax_edge_step _ _ _ _ _ (inv_nonneg _ _ _ _ _ Hinv) Hr)
    as [->|(u & ci & mc & c & fee & dv & alt & Hbl & Hci & Hu & Hmc & Hgate
            & Hec & Hcf & Hfee & Hdv & Hadd & Halt & Hlt & ->)]; [done|].
  clear Hu.
  pose proof (inv_nonneg _ _ _ _ _ Hinv _ _ Hdv) as Hdvf.
  assert (units dv <= units alt) as HK.
  { destruct dv as [z|[x| | |]]; try done.
    - destruct (ord_int _ _ _ Hord _ _ Hdv) as [->|Hsrc]; [|congruence].
      rewrite (inv_root _ _ _ _ _ Hinv) in Hdv. injection Hdv as <-.
      rewrite units_zero. by apply units_nonneg.
    - destruct (cost_add_float x c alt Hdvf ltac:(by right) Hadd Halt)
        as (w & -> & _ & Hle).
      apply Hle. by eapply ord_float. }
  assert (forall cu, distance_from_start st !! u = Some cu ->
                     units alt < units cu) as HL.
  { intros cu Hcu. unfold dist_get in Hlt. rewrite Hcu in Hlt. simpl in Hlt.
    rewrite cost_ltb_units in Hlt by (eauto using inv_nonneg).
    by apply Z.ltb_lt in Hlt. }
  assert (u <> nodeB) as HuB.
  { intros ->. specialize (HL _ (inv_root _ _ _ _ _ Hinv)).
    rewrite units_zero in HL. pose proof (units_nonneg _ Halt). lia. }
  assert (u <> v) as Huv.
  { intros ->. specialize (HL _ Hdv). lia. }
  assert (exists chain_v,
            is_chain (<[u := (v, scid)]> (prev_node st)) v chain_v
            /\ last (v :: chain_v.*1) = Some nodeB) as (chain_v & Hcv & Hlv).
  { destruct (inv_reached _ _ _ _ _ Hinv _ _ Hdv) as [->|Hsome].
    { exists []. done. }
    destruct (ord_chain _ _ _ Hord _ Hsome) as (chain_v & Hcv & Hlv).
    exists chain_v. split; [|done].
    apply chain_insert_avoid; [done|].
    apply not_elem_of_cons. split; [done|]. intros Hin.
    destruct (chain_units _ _ _ _ _ Hinv Hord Hcv Hdv Hin) as (cu & Hcu & Hle).
    specialize (HL _ Hcu). lia. }
  constructor; cbn [distance_from_start prev_node].
  - intros w x. rewrite lookup_insert.
    destruct (decide (u = w)) as [<-|]; [|by eapply ord_float].
    intros [= ->]. exact (cost_add_representable _ _ _ Hdvf Hcf Hadd).
  - intros w z. rewrite lookup_insert.
    destruct (decide (u = w)) as [<-|]; [|by eapply ord_int].
    intros [= ->]. right.
    destruct (cost_add_int _ _ _ Hadd) as (x & y & -> & ->).
    destruct (edge_cost_finite _ _ _ _ _ _ _ _ _ _ Hec) as (_ & _ & Hfin).
    destruct Hfin as (_ & Hign & _); [done|].
    destruct (Hign y eq_refl) as [Hign' _].
    destruct (truthy nodeA); [|done]. by rewrite Hign'.
  - intros w x s cw cx. rewrite !lookup_insert.
    destruct (decide (u = w)) as [<-|Hw].
    + intros [= <- <-] [= <-].
      destruct (decide (u = v)); [done|].
      rewrite Hdv. by intros [= <-].
    + intros Hp Hcw.
      destruct (decide (u = x)) as [<-|Hx].
      * intros [= <-].
        destruct (inv_prev _ _ _ _ _ Hinv _ _ _ Hp) as (_ & [cu Hcu] & _).
        pose proof (ord_prev _ _ _ Hord _ _ _ _ _ Hp Hcw Hcu).
        specialize (HL _ Hcu). lia.
      * intros Hcx. by eapply ord_prev.
  - intros w. rewrite lookup_insert.
    destruct (decide (u = w)) as [<-|Hw].
    + intros _. exists ((v, scid) :: chain_v). simpl.
      rewrite lookup_insert_eq. split; [done|]. destruct chain_v; done.
    + intros Hsome.
      destruct (ord_chain _ _ _ Hord _ Hsome) as (chain & Hc & Hl).
      by eapply chain_insert_reroute.
Qed.

(** *** The three invariants together *)

Abbreviation inv_all :=
  (search_inv_all self nodeA nodeB is_source my_channels invoice).

Lemma for_channels_inv_all amt v chs st st' :
  inv_all st -> invoice <= amt ->
  truthy nodeA && eq_node v nodeA = false ->
  chs ⊆ get_channels_for_node (channel_db self) v my_channels ->
  for_channels self nodeA is_source my_channels amt v chs st = Ok st' ->
  inv_all st'.
Proof.
  intros Hall Hamt Hbrk. revert st Hall.
  induction chs as [|ch chs IH]; intros st (Hinv & Hhops & Hord) Hsub; simpl.
  - by intros [= <-].
  - destruct (relax_edge _ _ _ _ _ _ _ _) as [st1|] eqn:Hr; [|discriminate].
    apply IH.
    + split; [|split].
      * eapply relaxed_inv; [done|].
        eapply relax_edge_relaxed; [|done]. apply Hinv.
      * eapply relax_edge_inv_hops; [done|done|done| |exact Hr].
        apply Hsub. by left.
      * by eapply relax_edge_inv_order.
    + intros x Hx. apply Hsub. by right.
Qed.

Lemma pop_inv_all st d amt v q :
  nodes_to_explore st = (d, amt, v) :: q ->
  inv_all st ->
  inv_all {| distance_from_start := distance_from_start st;
             prev_node := prev_node st;
             nodes_to_explore := q |}
  /\ invoice <= amt.
Proof.
  intros Hq (Hinv & [Hqu Hp] & [? ? ? ?]).
  split; [split; [by apply pop_inv|split]|].
  - constructor; [|done].
    cbn [nodes_to_explore]. intros d' a n Hin. apply (Hqu d' a n).
    rewrite Hq. by right.
  - by constructor.
  - apply (Hqu d amt v). rewrite Hq. by left.
Qed.

Lemma main_loop_inv_all fuel st ex st' :
  inv_all st ->
  main_loop fuel self nodeA is_source my_channels st = Some (Ok (ex, st')) ->
  inv_all st'.
Proof.
  revert st. induction fuel as [|fuel IH]; intros st Hall; simpl; [done|].
  destruct (nodes_to_explore st) as [|[[d amt] v] q] eqn:Hq; simpl.
  { by intros [= <- <-]. }
  destruct (pop_inv_all _ _ _ _ _ Hq Hall) as [Hall1 Hamt].
  destruct (truthy nodeA && eq_node v nodeA) eqn:Hbrk.
  { by intros [= <- <-]. }
  destruct (negb _); [by apply IH|].
  destruct (for_channels _ _ _ _ _ _ _ _) as [st2|] eqn:Hfor; [|discriminate].
  apply IH. by eapply for_channels_inv_all.
Qed.

End SearchInvariant.

Lemma initial_state_inv self nodeB is_source mc amt :
  search_inv self nodeB is_source mc (initial_state nodeB amt).
Proof.
  constructor; cbn [initial_state distance_from_start prev_node].
  - apply lookup_insert_eq.
  - apply lookup_empty.
  - intros u c. rewrite lookup_insert. destruct (decide (nodeB = u)).
    + by intros [= <-].
    + by rewrite lookup_empty.
  - intros u c. rewrite lookup_insert. destruct (decide (nodeB = u)).
    + by left.
    + by rewrite lookup_empty.
  - intros u v s. rewrite lookup_empty. discriminate.
Qed.

Lemma initial_state_inv_all self nodeA nodeB is_source mc amt :
  search_inv_all self nodeA nodeB is_source mc amt (initial_state nodeB amt).
Proof.
  split; [apply initial_state_inv|]. split.
  - constructor; cbn [initial_state nodes_to_explore prev_node pq_put].
    + intros d a n [= _ -> _]%list_elem_of_singleton. lia.
    + intros u v s. by rewrite lookup_empty.
  - constructor; cbn [initial_state distance_from_start prev_node].
    + intros u x. rewrite lookup_insert. destruct (decide (nodeB = u)).
      * discriminate.
      * by rewrite lookup_empty.
    + intros u z. rewrite lookup_insert. destruct (decide (nodeB = u)).
      * by left.
      * by rewrite lookup_empty.
    + intros u v s cu cv. by rewrite lookup_empty.
    + intros u [? H]. by rewrite lookup_empty in H.
Qed.

(** The state behind a predecessor map returned by [get_distances]. *)
Lemma get_distances_state fuel self nodeA nodeB amt is_source mc prev :
  get_distances fuel self nodeA nodeB amt is_source mc = Some (Ok prev) ->
  exists st,
    search_inv self nodeB is_source mc st
    /\ search_inv_hops self nodeA is_source mc amt st
    /\ search_inv_order nodeA nodeB st
    /\ prev_node st = prev.
Proof.
  unfold get_distances.
  destruct (main_loop _ _ _ _ _ _) as [[[ex st]|e]|] eqn:Hloop; try discriminate.
  intros [= <-]. exists st.
  destruct (main_loop_inv_all _ _ _ _ _ _ _ _ _ _
              (initial_state_inv_all self nodeA nodeB is_source mc amt) Hloop)
    as (? & ? & ?).
  done.
Qed.

(** ** Backtracking *)

Lemma get_path_loop_last fuel nodeB prev start acc res :
  get_path_loop fuel nodeB prev start acc = Some (Ok res) ->
  exists chain,
    res = acc ++ chain
    /\ is_chain prev start chain
    /\ last (start :: chain.*1) = Some nodeB.
Proof.
  revert start acc.
  induction fuel as [|fuel IH]; intros start acc; simpl.
  - destruct (String.eqb_spec start nodeB) as [->|Hne]; [|discriminate].
    intros [= <-]. exists []. by rewrite app_nil_r.
  - destruct (String.eqb_spec start nodeB) as [->|Hne].
    { intros [= <-]. exists []. by rewrite app_nil_r. }
    destruct (prev !! start) as [[n s]|] eqn:Hprev; [|discriminate].
    intros H. destruct (IH _ _ H) as (chain & -> & Hchain & Hlast).
    exists ((n, s) :: chain). rewrite <- app_assoc. done.
Qed.

(** Following the predecessor entries from [start] to [nodeB] terminates
    within as many steps as the chain has entries. *)
Lemma get_path_loop_complete nodeB prev start chain acc :
  is_chain prev start chain ->
  last (start :: chain.*1) = Some nodeB ->
  exists path,
    get_path_loop (length chain) nodeB prev start acc = Some (Ok path).
Proof.
  revert start acc.
  induction chain as [|[m s] chain IH]; intros start acc Hchain Hlast.
  - injection Hlast as ->. simpl. rewrite String.eqb_refl. eauto.
  - simpl. destruct (String.eqb start nodeB); [eauto|].
    destruct Hchain as [-> Hchain]. apply IH; [done|].
    destruct chain; done.
Qed.

Lemma chain_unique (prev : gmap string (string * string)) nodeB start c1 c2 :
  prev !! nodeB = None ->
  is_chain prev start c1 -> last (start :: c1.*1) = Some nodeB ->
  is_chain prev start c2 -> last (start :: c2.*1) = Some nodeB ->
  c1 = c2.
Proof.
  intros Hroot. revert start c2.
  induction c1 as [|[m s] c1 IH]; intros start [|[m' s'] c2]; simpl.
  - done.
  - intros _ [= ->] [Hp _] _. congruence.
  - intros [Hp _] _ _ [= ->]. congruence.
  - intros [Hp H1] Hl1 [Hp' H2] Hl2.
    rewrite Hp in Hp'. injection Hp' as <- <-.
    f_equal.
    apply (IH m); first [done | by destruct c1 | by destruct c2].
Qed.

Lemma chain_suffix (prev : gmap string (string * string)) start chain n :
  is_chain prev start chain -> n ∈ chain.*1 ->
  exists pre suf,
    chain = pre ++ suf /\ pre <> []
    /\ is_chain prev n suf
    /\ last (n :: suf.*1) = last (start :: chain.*1).
Proof.
  revert start. induction chain as [|[m s] chain IH]; intros start; simpl.
  - intros _ Hin. by apply elem_of_nil in Hin.
  - intros [Hp Hchain] Hin.
    apply elem_of_cons in Hin as [->|Hin].
    + exists [(m, s)], chain. repeat split; try done.
    + destruct (IH _ Hchain Hin) as (pre & suf & -> & _ & Hsuf & Hlast).
      exists ((m, s) :: pre), suf. repeat split; done.
Qed.

(** A chain of predecessor entries that ends at a node without entry visits
    no node twice. *)
Lemma chain_NoDup (prev : gmap string (string * string)) nodeB start chain :
  prev !! nodeB = None ->
  is_chain prev start chain ->
  last (start :: chain.*1) = Some nodeB ->
  NoDup (start :: chain.*1).
Proof.
  intros Hroot. revert start.
  induction chain as [|[m s] chain IH]; intros start Hchain Hlast.
  - apply NoDup_singleton.
  - apply NoDup_cons. split.
    + intros Hin.
      destruct (chain_suffix _ _ _ _ Hchain Hin)
        as (pre & suf & Heq & Hne & Hsuf & Hl).
      rewrite Hlast in Hl.
      pose proof (chain_unique _ _ _ _ _ Hroot Hsuf Hl Hchain Hlast) as ->.
      apply (f_equal length) in Heq. rewrite length_app in Heq.
      destruct pre; [done|]. simpl in Heq. lia.
    + destruct Hchain as [_ Hchain]. apply IH; [done|].
      destruct chain; done.
Qed.

Section Chains.

Variable self : LNPathFinder.
Variable nodeB : NodeId.
Variable is_source : bool.
Variable my_channels : option MyChannels.
Variable st : SearchState.
Hypothesis Hinv : search_inv self nodeB is_source my_channels st.

Lemma chain_not_blacklisted start chain n s :
  is_chain (prev_node st) start chain ->
  (n, s) ∈ chain -> s ∉ blacklist self.
Proof.
  revert start. induction chain as [|[m s'] chain IH]; intros start; simpl.
  - intros _ Hin. by apply elem_of_nil in Hin.
  - intros [Hp Hchain] Hin.
    apply elem_of_cons in Hin as [[= -> ->]|Hin]; [|by eapply IH].
    destruct (inv_prev _ _ _ _ _ Hinv _ _ _ Hp) as (_ & _ & H & _).
    done.
Qed.

Lemma chain_ids_well_formed start chain :
  is_chain (prev_node st) start chain ->
  Forall (fun p => String.length p.2 = 8%nat) chain.
Proof.
  revert start. induction chain as [|[m s'] chain IH]; intros start; simpl.
  - constructor.
  - intros [Hp Hchain]. constructor; [|by eapply IH].
    destruct (inv_prev _ _ _ _ _ Hinv _ _ _ Hp) as (_ & _ & _ & H & _).
    done.
Qed.

Lemma chain_hops_resolved start chain start' s :
  is_source = true ->
  is_chain (prev_node st) start chain ->
  (start', s) ∈ hops start chain ->
  is_Some (get_policy_for_node (channel_db self) s start' my_channels).
Proof.
  intros Hsrc. revert start.
  induction chain as [|[m s'] chain IH]; intros start; simpl.
  - intros _ Hin. by apply elem_of_nil in Hin.
  - intros [Hp Hchain] Hin.
    apply elem_of_cons in Hin as [[= -> ->]|Hin]; [|by eapply IH].
    destruct (inv_prev _ _ _ _ _ Hinv _ _ _ Hp) as (_ & _ & _ & _ & H).
    by rewrite Hsrc in H.
Qed.

End Chains.

Lemma chain_triples (prev : gmap string (string * string)) start path u v s :
  is_chain prev start path ->
  (u, v, s) ∈ hop_triples start path ->
  prev !! u = Some (v, s) /\ v ∈ path.*1.
Proof.
  revert start. induction path as [|[n s'] path IH]; intros start; simpl.
  - intros _ []%elem_of_nil.
  - intros [Hp Hchain] [[= -> -> ->]|Hin]%elem_of_cons.
    + split; [done|]. by left.
    + destruct (IH _ Hchain Hin). split; [done|]. by right.
Qed.

(** What a returned path is: a non-empty chain of predecessor entries of a
    state that satisfies the invariants, from [nodeA] to [nodeB]. *)
Lemma find_path_for_payment_state fuel self nodeA nodeB amt mc path :
  find_path_for_payment fuel self nodeA nodeB amt mc = Some (Ok (Some path)) ->
  exists st,
    search_inv self nodeB true (Some (default ∅ mc)) st
    /\ search_inv_hops self (Some nodeA) true (Some (default ∅ mc)) amt st
    /\ is_chain (prev_node st) nodeA path
    /\ path <> []
    /\ last (nodeA :: path.*1) = Some nodeB.
Proof.
  unfold find_path_for_payment.
  destruct (get_distances _ _ _ _ _ _ _) as [[prev|e]|] eqn:Hd; try discriminate.
  destruct (get_distances_state _ _ _ _ _ _ _ _ Hd)
    as (st & Hinv & Hhops & _ & <-).
  unfold get_path.
  destruct (prev_node st !! nodeA) as [entry|] eqn:HA; [|discriminate].
  destruct (get_path_loop _ _ _ _ _) as [[res|e]|] eqn:Hloop; try discriminate.
  intros [= <-].
  destruct (get_path_loop_last _ _ _ _ _ _ Hloop) as (chain & -> & Hc & Hlast).
  exists st. simpl.
  assert (chain <> []) as Hne.
  { intros ->. simpl in Hlast. injection Hlast as ->.
    rewrite (inv_root_prev _ _ _ _ _ Hinv) in HA. discriminate. }
  done.
Qed.

(** ** Properties of the returned path *)

Lemma add_to_blacklist_elem self scid x :
  x ∈ blacklist (add_to_blacklist self scid) <-> x ∈ blacklist self \/ x = scid.
Proof. unfold add_to_blacklist; simpl. set_solver. Qed.

(** C5: a short channel id that is in the blacklist when
    [find_path_for_payment] is called occurs in no pair of the returned
    path. *)
Theorem blacklisted_channel_not_on_path
    (fuel : nat) (self : LNPathFinder) (nodeA nodeB : NodeId) (amt : Z)
    (mc : option MyChannels) (path : Path) (scid : ShortChannelID) :
  find_path_for_payment fuel self nodeA nodeB amt mc = Some (Ok (Some path)) ->
  scid ∈ blacklist self ->
  scid ∉ path.*2.
Proof.
  intros Hfind Hbl Hin.
  destruct (find_path_for_payment_state _ _ _ _ _ _ _ Hfind)
    as (st & Hinv & _ & Hc & _).
  apply list_elem_of_fmap in Hin as ([n s] & -> & Hin).
  by eapply chain_not_blacklisted.
Qed.

(** C7: the source followed by the node ids of the returned pairs are
    pairwise distinct. *)
Theorem path_visits_no_node_twice
    (fuel : nat) (self : LNPathFinder) (nodeA nodeB : NodeId) (amt : Z)
    (mc : option MyChannels) (path : Path) :
  find_path_for_payment fuel self nodeA nodeB amt mc = Some (Ok (Some path)) ->
  NoDup (nodeA :: path.*1).
Proof.
  intros Hfind.
  destruct (find_path_for_payment_state _ _ _ _ _ _ _ Hfind)
    as (st & Hinv & _ & Hc & _ & Hlast).
  eapply chain_NoDup; [|done..].
  apply (inv_root_prev _ _ _ _ _ Hinv).
Qed.

(** C6: on the unchanged snapshot (a local view under which the policies
    resolve as they did during the search), [create_route_from_path]
    succeeds on a returned path, and the route maps back to the path. *)
Theorem path_round_trip
    (fuel : nat) (self : LNPathFinder) (nodeA nodeB : NodeId) (amt : Z)
    (mc mc' : option MyChannels) (path : Path) :
  find_path_for_payment fuel self nodeA nodeB amt mc = Some (Ok (Some path)) ->
  (forall scid node,
     get_policy_for_node (channel_db self) scid node mc'
     = get_policy_for_node (channel_db self) scid node (Some (default ∅ mc))) ->
  exists route,
    create_route_from_path self (Some path) nodeA mc' = Ok route
    /\ pair_of_edge <$> route = path.
Proof.
  intros Hfind Hview.
  destruct (find_path_for_payment_state _ _ _ _ _ _ _ Hfind)
    as (st & Hinv & _ & Hc & _).
  unfold create_route_from_path.
  destruct (route_from_pairs_ok self mc' path nodeA []) as (r & Hr & Hmap).
  - by eapply chain_ids_well_formed.
  - intros start scid Hin. rewrite Hview.
    by eapply chain_hops_resolved.
  - exists r. done.
Qed.

Lemma blacklisted_channel_not_on_path_witness :
  find_path_for_payment 10
    (add_to_blacklist (mkLNPathFinder direct_db ∅) "chan0003")
    "A" "D" 1000000 None
  = Some (Ok (Some [("B", "chan0001"); ("D", "chan0002")]))
  /\ "chan0003" ∉ [("B", "chan0001"); ("D", "chan0002")].*2.
Proof.
  split; [vm_compute; reflexivity|].
  apply (blacklisted_channel_not_on_path 10
           (add_to_blacklist (mkLNPathFinder direct_db ∅) "chan0003")
           "A" "D" 1000000 None).
  - vm_compute; reflexivity.
  - apply add_to_blacklist_elem. by right.
Defined.

Lemma path_visits_no_node_twice_witness :
  find_path_for_payment 10 (three_node_finder None) "A" "D" 1000000 None
  = Some (Ok (Some [("B", "chan0001"); ("D", "chan0002")]))
  /\ NoDup ("A" :: [("B", "chan0001"); ("D", "chan0002")].*1).
Proof.
  split; [vm_compute; reflexivity|].
  apply (path_visits_no_node_twice 10 (three_node_finder None) "A" "D"
           1000000 None).
  vm_compute; reflexivity.
Defined.

Lemma path_round_trip_witness :
  exists route,
    create_route_from_path (three_node_finder None)
      (Some [("B", "chan0001"); ("D", "chan0002")]) "A" None = Ok route
    /\ pair_of_edge <$> route = [("B", "chan0001"); ("D", "chan0002")].
Proof.
  apply (path_round_trip 10 (three_node_finder None) "A" "D" 1000000 None None).
  - vm_compute; reflexivity.
  - intros scid node. reflexivity.
Defined.

(** ** Termination of the search *)

Lemma lex3_wf : well_founded lex3.
Proof.
  intros [[a b] c]. revert b c.
  induction a as [a IHa] using lt_wf_ind. intros b.
  induction b as [b IHb] using lt_wf_ind. intros c.
  induction c as [c IHc] using lt_wf_ind.
  constructor. intros [[a' b'] c'] Hlt. simpl in Hlt.
  destruct Hlt as [Ha|[-> [Hb|[-> Hc]]]]; eauto.
Qed.

Lemma unreached_insert_le (d : gmap string Cost) u a l :
  (unreached (<[u := a]> d) l <= unreached d l)%nat.
Proof.
  induction l as [|w l IH]; simpl; [lia|].
  rewrite lookup_insert.
  destruct (decide (u = w)); destruct (d !! w); lia.
Qed.

Lemma unreached_insert_lt (d : gmap string Cost) u a l :
  u ∈ l -> d !! u = None ->
  (unreached (<[u := a]> d) l < unreached d l)%nat.
Proof.
  intros Hin Hinf. induction l as [|w l IH]; [by apply elem_of_nil in Hin|].
  simpl. rewrite lookup_insert.
  pose proof (unreached_insert_le d u a l).
  destruct (decide (u = w)) as [<-|Hne].
  - rewrite Hinf. lia.
  - apply elem_of_cons in Hin as [?|Hin]; [done|].
    specialize (IH Hin). destruct (d !! w); lia.
Qed.

Lemma unreached_insert_eq (d : gmap string Cost) u a cu l :
  d !! u = Some cu ->
  unreached (<[u := a]> d) l = unreached d l.
Proof.
  intros Hu. induction l as [|w l IH]; simpl; [done|].
  rewrite lookup_insert, IH.
  destruct (decide (u = w)) as [<-|]; [by rewrite Hu|done].
Qed.

Lemma total_dist_insert_le (d : gmap string Cost) u a cu l :
  d !! u = Some cu -> 0 <= units a < units cu ->
  (total_dist (<[u := a]> d) l <= total_dist d l)%nat.
Proof.
  intros Hu Ha. induction l as [|w l IH]; simpl; [lia|].
  rewrite lookup_insert.
  destruct (decide (u = w)) as [<-|]; [rewrite Hu|]; lia.
Qed.

Lemma total_dist_insert_lt (d : gmap string Cost) u a cu l :
  u ∈ l -> d !! u = Some cu -> 0 <= units a < units cu ->
  (total_dist (<[u := a]> d) l < total_dist d l)%nat.
Proof.
  intros Hin Hu Ha. induction l as [|w l IH]; [by apply elem_of_nil in Hin|].
  simpl. rewrite lookup_insert.
  pose proof (total_dist_insert_le d u a cu l Hu Ha).
  destruct (decide (u = w)) as [<-|Hne].
  - rewrite Hu. lia.
  - apply elem_of_cons in Hin as [?|Hin]; [done|].
    specialize (IH Hin). lia.
Qed.

Section Termination.

Variable self : LNPathFinder.
Variable nodeA : option NodeId.
Variable nodeB : NodeId.
Variable is_source : bool.
Variable my_channels : option MyChannels.
Variable nodes : list NodeId.
Hypothesis Hfin : finite_graph (channel_db self) my_channels nodes.

Abbreviation inv := (search_inv self nodeB is_source my_channels).
Abbreviation relaxed_by := (relaxed self is_source my_channels).

(** A relaxation leaves the state alone or lowers the distance measure. *)
Lemma relaxed_progress v scid st st' :
  inv st -> relaxed_by v scid st st' ->
  st' = st \/ lex2 (distance_measure nodes st') (distance_measure nodes st).
Proof.
  intros Hinv [->|u alt amt Halt Hlt _ _ _ _ (ci & Hci & Hu) ->]; [by left|].
  right.
  assert (u ∈ nodes) as Hin.
  { destruct (Hfin _ _ Hci). by destruct Hu as [->| ->]. }
  pose proof (units_nonneg _ Halt) as H0.
  unfold lex2, distance_measure; cbn [fst snd distance_from_start].
  destruct (distance_from_start st !! u) as [cu|] eqn:Hdu.
  - unfold dist_get in Hlt. rewrite Hdu in Hlt. simpl in Hlt.
    rewrite cost_ltb_units in Hlt by (eauto using inv_nonneg).
    apply Z.ltb_lt in Hlt. right. split.
    + by eapply unreached_insert_eq.
    + eapply total_dist_insert_lt; eauto.
  - left. by apply unreached_insert_lt.
Qed.

Lemma for_channels_progress amt v chs st st' :
  inv st ->
  for_channels self nodeA is_source my_channels amt v chs st = Ok st' ->
  inv st'
  /\ (st' = st
      \/ lex2 (distance_measure nodes st') (distance_measure nodes st)).
Proof.
  revert st. induction chs as [|ch chs IH]; intros st Hinv; simpl.
  - intros [= <-]. auto.
  - destruct (relax_edge _ _ _ _ _ _ _ _) as [st1|] eqn:Hr; [|discriminate].
    apply relax_edge_relaxed in Hr; [|apply Hinv].
    pose proof (relaxed_inv _ _ _ _ _ _ _ _ Hinv Hr) as Hinv1.
    intros Hfor. destruct (IH _ Hinv1 Hfor) as [Hinv' Hstep].
    split; [done|].
    destruct (relaxed_progress _ _ _ _ Hinv Hr) as [->|H1]; [done|].
    destruct Hstep as [->|H2]; [by right|].
    right. unfold lex2 in *. lia.
Qed.

(** The exceptions the loop body can raise. *)
Lemma relax_edge_raise amt v st scid e :
  relax_edge self nodeA is_source my_channels amt v st scid = Raise e ->
  e = AttributeError \/ e = AssertionError \/ e = TypeError
  \/ e = OverflowError.
Proof.
  unfold relax_edge.
  destruct (bool_decide _); [discriminate|].
  destruct (get_channel_info _ _ _) as [ci|]; [|intros [= <-]; auto].
  destruct my_channels as [mc|]; [|intros [= <-]; auto].
  destruct (local_gate _ _ _ _ _ _) as [[|]|e'] eqn:Hgate.
  - destruct (_edge_cost _ _ _ _ _ _ _ _) as [[ec fee]|e'] eqn:Hec.
    + destruct (cost_add _ _) as [alt|e'] eqn:Hadd.
      * destruct (cost_ltb _ _); discriminate.
      * intros [= <-]. apply cost_add_raise in Hadd. auto.
    + intros [= <-].
      destruct (edge_cost_raise _ _ _ _ _ _ _ _ _ Hec) as [[-> _]| ->]; auto.
  - discriminate.
  - intros [= <-]. revert Hgate. unfold local_gate.
    destruct (mc !! scid) as [chan|]; [|discriminate].
    destruct (eq_node _ nodeA).
    + destruct (negb _); discriminate.
    + destruct (negb (eq_node v nodeA)); [intros [= <-]; auto|].
      destruct (negb _); discriminate.
Qed.

Lemma for_channels_raise amt v chs st e :
  for_channels self nodeA is_source my_channels amt v chs st = Raise e ->
  e = AttributeError \/ e = AssertionError \/ e = TypeError
  \/ e = OverflowError.
Proof.
  revert st. induction chs as [|ch chs IH]; intros st; simpl; [discriminate|].
  destruct (relax_edge _ _ _ _ _ _ _ _) as [st1|e1] eqn:Hr.
  - apply IH.
  - intros [= <-]. by eapply relax_edge_raise.
Qed.

(** On a consistent snapshot with well-formed ids, with a local view made of
    channels of [nodeA], the only exception of the body while it explores a
    node other than the source is the [OverflowError] of a cost too large
    for a [float]. *)
Lemma relax_edge_raise_consistent amt v st scid e :
  snapshot_consistent (channel_db self) my_channels ->
  local_view_ok (channel_db self) nodeA my_channels ->
  ids_well_formed (channel_db self) my_channels ->
  truthy nodeA && eq_node v nodeA = false ->
  scid ∈ get_channels_for_node (channel_db self) v my_channels ->
  relax_edge self nodeA is_source my_channels amt v st scid = Raise e ->
  e = OverflowError.
Proof.
  intros Hcons (mc & Hmc & Hview) Hids Hbrk Hin.
  unfold relax_edge.
  destruct (bool_decide _); [discriminate|].
  destruct (Hcons _ _ Hin) as (ci & Hci & Hend). rewrite Hci.
  rewrite Hmc.
  destruct (local_gate _ _ _ _ _ _) as [[|]|e'] eqn:Hgate.
  - rewrite <- Hmc.
    destruct (_edge_cost _ _ _ _ _ _ _ _) as [[ec fee]|e'] eqn:Hec.
    + destruct (cost_add _ _) as [alt|e'] eqn:Hadd.
      * destruct (cost_ltb _ _); discriminate.
      * intros [= <-]. by apply cost_add_raise in Hadd.
    + intros [= <-].
      destruct (edge_cost_raise _ _ _ _ _ _ _ _ _ Hec) as [[_ Hlen]| ->];
        [|done].
      by rewrite (Hids _ _ Hin) in Hlen.
  - discriminate.
  - exfalso. revert Hgate. unfold local_gate.
    destruct (mc !! scid) as [chan|] eqn:Hchan; [|discriminate].
    destruct (Hview _ _ _ Hchan Hci) as (a & HA & Htruthy & Ha).
    rewrite Htruthy in Hbrk. simpl in Hbrk.
    subst nodeA. simpl in Hbrk. apply String.eqb_neq in Hbrk.
    assert (eq_node (if String.eqb (node1_id ci) v
                     then node2_id ci else node1_id ci) (Some a) = true)
      as ->.
    { simpl. apply String.eqb_eq.
      destruct (String.eqb_spec (node1_id ci) v) as [E|E];
        destruct Hend as [?|?], Ha as [?|?]; congruence. }
    destruct (negb _); discriminate.
Qed.

Lemma for_channels_raise_consistent amt v chs st e :
  snapshot_consistent (channel_db self) my_channels ->
  local_view_ok (channel_db self) nodeA my_channels ->
  ids_well_formed (channel_db self) my_channels ->
  truthy nodeA && eq_node v nodeA = false ->
  chs ⊆ get_channels_for_node (channel_db self) v my_channels ->
  for_channels self nodeA is_source my_channels amt v chs st = Raise e ->
  e = OverflowError.
Proof.
  intros Hcons Hview Hids Hbrk. revert st.
  induction chs as [|ch chs IH]; intros st Hsub; simpl; [discriminate|].
  destruct (relax_edge _ _ _ _ _ _ _ _) as [st1|e1] eqn:Hr.
  - apply IH. intros x Hx. apply Hsub. by right.
  - intros [= <-]. eapply relax_edge_raise_consistent; try done.
    apply Hsub. by left.
Qed.

(** From any state that satisfies the invariant the loop ends, in one of the
    ways of [exit_ok]; on a consistent snapshot the only exception left is
    [OverflowError]. *)
Lemma main_loop_terminates_from st :
  inv st ->
  exists fuel out,
    main_loop fuel self nodeA is_source my_channels st = Some out
    /\ exit_ok nodeA out
    /\ (snapshot_consistent (channel_db self) my_channels ->
        local_view_ok (channel_db self) nodeA my_channels ->
        ids_well_formed (channel_db self) my_channels ->
        forall e, out = Raise e -> e = OverflowError).
Proof.
  remember (search_measure nodes st) as m eqn:Hm.
  revert st Hm. induction (lex3_wf m) as [m _ IH]. intros st -> Hinv.
  destruct (nodes_to_explore st) as [|[[d amt] v] q] eqn:Hq.
  { exists 1%nat, (Ok (QueueEmpty, st)). simpl. rewrite Hq. simpl.
    split; [done|]. split; [done|]. intros _ _ _ e. discriminate. }
  set (st1 := {| distance_from_start := distance_from_start st;
                 prev_node := prev_node st;
                 nodes_to_explore := q |}).
  assert (inv st1) as Hinv1 by by apply pop_inv.
  assert (lex3 (search_measure nodes st1) (search_measure nodes st)) as Hpop.
  { unfold lex3, search_measure. subst st1. simpl. rewrite Hq. simpl.
    right. split; [done|]. right. split; [done|]. lia. }
  destruct (truthy nodeA && eq_node v nodeA) eqn:Hbrk.
  { exists 1%nat, (Ok (SourcePopped v, st1)). simpl. rewrite Hq. simpl.
    rewrite Hbrk. split; [done|].
    apply andb_true_iff in Hbrk as [Htruthy Heq].
    split; [|intros _ _ _ e; discriminate].
    split; [|done].
    destruct nodeA as [a|]; [|done]. simpl in Heq.
    apply String.eqb_eq in Heq. by subst. }
  destruct (negb (cost_eqb d (dist_get (distance_from_start st) v)))
    eqn:Hstale.
  { destruct (IH _ Hpop st1 eq_refl Hinv1) as (fuel & out & Hrun & Hout).
    exists (S fuel), out. simpl. rewrite Hq. simpl.
    rewrite Hbrk, Hstale. done. }
  destruct (for_channels self nodeA is_source my_channels amt v
              (get_channels_for_node (channel_db self) v my_channels) st1)
    as [st2|e] eqn:Hfor.
  - destruct (for_channels_progress _ _ _ _ _ Hinv1 Hfor) as [Hinv2 Hstep].
    assert (lex3 (search_measure nodes st2) (search_measure nodes st)) as Hlt.
    { destruct Hstep as [->|Hstep]; [done|].
      unfold lex2, distance_measure in Hstep.
      unfold lex3, search_measure in *. subst st1. simpl in *. lia. }
    destruct (IH _ Hlt st2 eq_refl Hinv2) as (fuel & out & Hrun & Hout).
    exists (S fuel), out. simpl. rewrite Hq. simpl.
    rewrite Hbrk, Hstale. fold st1. rewrite Hfor. done.
  - exists 1%nat, (Raise e). simpl. rewrite Hq. simpl.
    rewrite Hbrk, Hstale. fold st1. rewrite Hfor.
    split; [done|]. split.
    + by eapply for_channels_raise.
    + intros Hcons Hview Hids e' [= <-].
      by eapply (for_channels_raise_consistent amt v _ st1).
Qed.

End Termination.

(** C9, as far as the code goes: on a finite graph snapshot [get_distances]
    terminates.  The loop is left because the queue is empty, because the
    specified source was popped, or because the loop body raised
    [AttributeError], [AssertionError], [TypeError] or [OverflowError]; on a
    consistent snapshot with 8-byte channel ids whose local channels all
    touch the source, [OverflowError] is the only exception left. *)
Theorem get_distances_terminates
    (self : LNPathFinder) (nodeA : option NodeId) (nodeB : NodeId)
    (invoice_amount_msat : Z) (is_source : bool)
    (my_channels : option MyChannels) (nodes : list NodeId) :
  finite_graph (channel_db self) my_channels nodes ->
  exists fuel out,
    main_loop fuel self nodeA is_source my_channels
              (initial_state nodeB invoice_amount_msat) = Some out
    /\ get_distances fuel self nodeA nodeB invoice_amount_msat is_source
                     my_channels
       = Some (result_map (fun o => prev_node (snd o)) out)
    /\ exit_ok nodeA out
    /\ (snapshot_consistent (channel_db self) my_channels ->
        local_view_ok (channel_db self) nodeA my_channels ->
        ids_well_formed (channel_db self) my_channels ->
        forall e, out = Raise e -> e = OverflowError).
Proof.
  intros Hfin.
  destruct (main_loop_terminates_from self nodeA nodeB is_source my_channels
              nodes Hfin (initial_state nodeB invoice_amount_msat))
    as (fuel & out & Hrun & Hexit & Hok).
  { apply initial_state_inv. }
  exists fuel, out. unfold get_distances. rewrite Hrun. done.
Qed.

Lemma three_node_db_finite dp mc :
  finite_graph (three_node_db dp) mc ["A"; "B"; "D"].
Proof.
  intros scid ci. simpl.
  destruct (String.eqb scid "chan0001").
  { intros [= <-]. simpl. set_solver. }
  destruct (String.eqb scid "chan0002"); [|discriminate].
  intros [= <-]. simpl. set_solver.
Qed.

Lemma three_node_db_consistent dp mc :
  snapshot_consistent (three_node_db dp) mc.
Proof.
  intros v scid. simpl.
  destruct (String.eqb_spec v "A") as [->|_].
  { intros ->%list_elem_of_singleton. eexists. split; [reflexivity|]. by left. }
  destruct (String.eqb_spec v "B") as [->|_].
  { intros [->|[->|[]%elem_of_nil]%elem_of_cons]%elem_of_cons;
      (eexists; split; [reflexivity|]); [by right|by left]. }
  destruct (String.eqb_spec v "D") as [->|_].
  { intros ->%list_elem_of_singleton. eexists. split; [reflexivity|]. by right. }
  by intros []%elem_of_nil.
Qed.

Lemma three_node_db_ids dp mc : ids_well_formed (three_node_db dp) mc.
Proof.
  intros v scid. simpl.
  destruct (String.eqb v "A").
  { by intros ->%list_elem_of_singleton. }
  destruct (String.eqb v "B").
  { by intros [->|[->|[]%elem_of_nil]%elem_of_cons]%elem_of_cons. }
  destruct (String.eqb v "D").
  { by intros ->%list_elem_of_singleton. }
  by intros []%elem_of_nil.
Qed.

(** An empty local view is fine for any source. *)
Lemma empty_local_view_ok db nodeA : local_view_ok db nodeA (Some ∅).
Proof.
  exists ∅. split; [done|]. intros scid chan ci H.
  by rewrite lookup_empty in H.
Qed.

Lemma get_distances_terminates_witness :
  exists fuel out,
    main_loop fuel (three_node_finder None) (Some "A") true (Some ∅)
              (initial_state "D" 1000000) = Some out
    /\ get_distances fuel (three_node_finder None) (Some "A") "D" 1000000
                     true (Some ∅)
       = Some (result_map (fun o => prev_node (snd o)) out)
    /\ exit_ok (Some "A") out
    /\ (snapshot_consistent (three_node_db None) (Some ∅) ->
        local_view_ok (three_node_db None) (Some "A") (Some ∅) ->
        ids_well_formed (three_node_db None) (Some ∅) ->
        forall e, out = Raise e -> e = OverflowError).
Proof.
  apply (get_distances_terminates (three_node_finder None) (Some "A") "D"
           1000000 true (Some ∅) ["A"; "B"; "D"]).
  apply three_node_db_finite.
Defined.

(** C9 as stated fails: on the three-node graph, a finite and consistent
    snapshot, a search for 10^400 msat leaves the loop with neither an empty
    queue nor the source popped: the CLTV term of the first edge is too
    large for a [float] and the true division raises [OverflowError]. *)
Lemma get_distances_counterexample :
  finite_graph (three_node_db None) (Some ∅) ["A"; "B"; "D"]
  /\ snapshot_consistent (three_node_db None) (Some ∅)
  /\ main_loop 10 (three_node_finder None) (Some "A") true (Some ∅)
               (initial_state "D" (10 ^ 400)) = Some (Raise OverflowError)
  /\ get_distances 10 (three_node_finder None) (Some "A") "D" (10 ^ 400)
                   true (Some ∅) = Some (Raise OverflowError)
  /\ (forall ex st,
        main_loop 10 (three_node_finder None) (Some "A") true (Some ∅)
                  (initial_state "D" (10 ^ 400)) <> Some (Ok (ex, st))).
Proof.
  split; [apply three_node_db_finite|].
  split; [apply three_node_db_consistent|].
  assert (main_loop 10 (three_node_finder None) (Some "A") true (Some ∅)
            (initial_state "D" (10 ^ 400)) = Some (Raise OverflowError)) as H
    by (vm_compute; reflexivity).
  split; [done|]. split.
  - unfold get_distances. by rewrite H.
  - intros ex st. rewrite H. discriminate.
Qed.

(** ** Fuel *)

Lemma main_loop_fuel_mono self nodeA is_source mc fuel fuel' st out :
  main_loop fuel self nodeA is_source mc st = Some out ->
  (fuel <= fuel')%nat ->
  main_loop fuel' self nodeA is_source mc st = Some out.
Proof.
  revert fuel' st. induction fuel as [|fuel IH]; intros fuel' st; [done|].
  destruct fuel' as [|fuel']; [lia|]. simpl.
  destruct (pq_get (nodes_to_explore st)) as [[[[d amt] v] q]|]; [|done].
  destruct (truthy nodeA && eq_node v nodeA); [done|].
  destruct (negb _).
  { intros H ?. apply IH; [done|lia]. }
  destruct (for_channels _ _ _ _ _ _ _ _); [|done].
  intros H ?. apply IH; [done|lia].
Qed.

Lemma get_path_loop_fuel_mono nodeB prev fuel fuel' start acc out :
  get_path_loop fuel nodeB prev start acc = Some out ->
  (fuel <= fuel')%nat ->
  get_path_loop fuel' nodeB prev start acc = Some out.
Proof.
  revert fuel' start acc.
  induction fuel as [|fuel IH]; intros fuel' start acc; simpl.
  - destruct (String.eqb start nodeB) eqn:E; [|done].
    intros H _. destruct fuel'; simpl; by rewrite E.
  - destruct (String.eqb start nodeB) eqn:E.
    { intros H _. destruct fuel'; simpl; by rewrite E. }
    destruct fuel' as [|fuel']; [lia|]. simpl. rewrite E.
    destruct (prev !! start) as [[n s]|]; [|done].
    intros H ?. apply IH; [done|lia].
Qed.

(** ** Path length *)

(** C1 fails on the code: a line of 21 zero-fee channels yields a path of 21
    edges, more than [NUM_MAX_EDGES_IN_PAYMENT_PATH]; only the later sanity
    check on the route rejects it. *)
Theorem path_longer_than_max_edges :
  exists path route,
    find_path_for_payment 100 (line_finder 21) (line_node 0) (line_node 21)
                          5000000 None = Some (Ok (Some path))
    /\ length path = 21%nat
    /\ Z.of_nat (length path) > NUM_MAX_EDGES_IN_PAYMENT_PATH
    /\ create_route_from_path (line_finder 21) (Some path) (line_node 0) None
       = Ok route
    /\ is_route_sane_to_use route 5000000 147 = false.
Proof.
  eexists. eexists.
  split; [vm_compute; reflexivity|].
  split; [reflexivity|].
  split; [reflexivity|].
  split; [vm_compute; reflexivity|].
  vm_compute; reflexivity.
Qed.

(** ** The three-node scenario *)

(** One iteration of the main loop that explores the popped node. *)
Lemma main_loop_explore self nodeA is_source mc fuel dist prev d amt v q st2 :
  truthy nodeA && eq_node v nodeA = false ->
  cost_eqb d (dist_get dist v) = true ->
  for_channels self nodeA is_source mc amt v
    (get_channels_for_node (channel_db self) v mc)
    (mkSearchState dist prev q) = Ok st2 ->
  main_loop (S fuel) self nodeA is_source mc
            (mkSearchState dist prev ((d, amt, v) :: q))
  = main_loop fuel self nodeA is_source mc st2.
Proof.
  intros H1 H2 H3.
  cbn [main_loop pq_get nodes_to_explore distance_from_start prev_node].
  rewrite H1, H2. cbn [negb]. by rewrite H3.
Qed.

(** An edge that leads back to a node at distance 0 leaves the state
    unchanged, whatever its policy: no cost is negative. *)
Lemma relax_edge_no_improvement self nodeA is_source m amt v st scid ci f :
  scid ∉ blacklist self ->
  get_channel_info (channel_db self) scid (Some m) = Some ci ->
  m !! scid = None ->
  String.length scid = 8%nat ->
  amt < 2 ^ 1000 ->
  dist_get (distance_from_start st) v = Float f ->
  cost_nonneg (Float f) ->
  distance_from_start st
    !! (if String.eqb (node1_id ci) v then node2_id ci else node1_id ci)
  = Some (Int 0) ->
  relax_edge self nodeA is_source (Some m) amt v st scid = Ok st.
Proof.
  intros Hbl Hci Hmine Hlen Hamt Hv Hf Hu.
  unfold relax_edge.
  rewrite bool_decide_eq_false_2 by done. rewrite Hci.
  unfold local_gate. rewrite Hmine.
  destruct (_edge_cost _ _ _ _ _ _ _ _) as [[c fee]|e] eqn:Hec.
  - destruct (edge_cost_finite _ _ _ _ _ _ _ _ _ _ Hec) as (Hc & _ & Hfin).
    rewrite Hv.
    destruct (cost_add_float_returns f c) as [alt Hadd].
    { intros y ->. destruct Hfin as (_ & Hint & _); [done|].
      destruct (Hint y eq_refl) as [_ ->]. unfold base_cost.
      split; [lia|].
      assert (2 ^ 9 <= 2 ^ 1000) by (apply Z.pow_le_mono_r; lia).
      change (2 ^ 9) with 512 in *. lia. }
    rewrite Hadd.
    destruct (cost_add_nonneg _ _ _ Hf Hc Hadd) as [Halt _].
    unfold dist_get at 1. rewrite Hu. simpl default.
    by rewrite cost_ltb_zero.
  - apply edge_cost_no_overflow in Hec as [_ Hne]; [done|done].
Qed.

Lemma three_node_path (d_policy : option Policy.t) :
  find_path_for_payment 10 (three_node_finder d_policy) "A" "D" 1000000 None
  = Some (Ok (Some [("B", "chan0001"); ("D", "chan0002")])).
Proof.
  set (self := three_node_finder d_policy).
  set (distD := <["B" := three_node_dist_B]> (<["D" := Int 0]> ∅)
       : gmap string Cost).
  set (prevD := <["B" := ("D", "chan0002")]> ∅ : gmap string (string * string)).
  set (distB := <["A" := three_node_dist_A]> distD).
  set (prevB := <["A" := ("B", "chan0001")]> prevD).
  assert (main_loop 10 self (Some "A") true (Some ∅) (initial_state "D" 1000000)
          = main_loop 9 self (Some "A") true (Some ∅)
              (mkSearchState distD prevD [(three_node_dist_B, 1001100, "B")]))
    as Hstep1.
  { change (initial_state "D" 1000000)
      with (mkSearchState (<["D" := Int 0]> ∅) ∅ [(Int 0, 1000000, "D")]).
    apply main_loop_explore; vm_compute; reflexivity. }
  assert (main_loop 9 self (Some "A") true (Some ∅)
            (mkSearchState distD prevD [(three_node_dist_B, 1001100, "B")])
          = main_loop 8 self (Some "A") true (Some ∅)
              (mkSearchState distB prevB [(three_node_dist_A, 1001100, "A")]))
    as Hstep2.
  { apply main_loop_explore; [reflexivity|vm_compute; reflexivity|].
    change (get_channels_for_node (channel_db self) "B" (Some ∅))
      with ["chan0001"; "chan0002"].
    cbn [for_channels].
    assert (relax_edge self (Some "A") true (Some ∅) 1001100 "B"
              (mkSearchState distD prevD []) "chan0001"
            = Ok (mkSearchState distB prevB
                    [(three_node_dist_A, 1001100, "A")])) as ->
      by (vm_compute; reflexivity).
    assert (relax_edge self (Some "A") true (Some ∅) 1001100 "B"
              (mkSearchState distB prevB [(three_node_dist_A, 1001100, "A")])
              "chan0002"
            = Ok (mkSearchState distB prevB
                    [(three_node_dist_A, 1001100, "A")])) as ->; [|done].
    apply (relax_edge_no_improvement self (Some "A") true ∅ 1001100 "B" _
             "chan0002" (mkChannelInfo "B" "D" None)
             (match three_node_dist_B with
              | Float f => f
              | Int _ => NaN
              end)).
    - apply not_elem_of_empty.
    - reflexivity.
    - apply lookup_empty.
    - reflexivity.
    - assert (2 ^ 21 <= 2 ^ 1000) by (apply Z.pow_le_mono_r; lia).
      change (2 ^ 21) with 2097152 in *. lia.
    - vm_compute; reflexivity.
    - right. vm_compute. discriminate.
    - vm_compute; reflexivity. }
  unfold find_path_for_payment, get_distances.
  change (Some (default ∅ None)) with (Some (∅ : gmap string Channel)).
  rewrite Hstep1, Hstep2. vm_compute. reflexivity.
Qed.

(** C4: in the three-node graph, whatever D published for C2, the search
    from A to D for 1_000_000 msat returns [(B, C1), (D, C2)]; the route
    built from it accumulates a sender amount of 1_001_100 msat, a total fee
    of 1100 msat. *)
Theorem three_node_scenario (d_policy : option Policy.t) :
  find_path_for_payment 10 (three_node_finder d_policy) "A" "D" 1000000 None
  = Some (Ok (Some [("B", "chan0001"); ("D", "chan0002")]))
  /\ (exists route,
        create_route_from_path (three_node_finder d_policy)
          (Some [("B", "chan0001"); ("D", "chan0002")]) "A" None = Ok route
        /\ route_accumulation route 1000000 147 = Some (1001100, 147 + 40)
        /\ is_route_sane_to_use route 1000000 147 = true)
  /\ fee_for_edge_msat 1000000 1000 100 = 1100
  /\ 1001100 - 1000000 = 1100.
Proof.
  split; [apply three_node_path|].
  split; [|split; reflexivity].
  eexists. split; [reflexivity|].
  split; reflexivity.
Qed.

(** ** Further scenarios *)

(** A direct channel with zero fees is taken. *)
Example two_node_direct_path :
  find_path_for_payment 10 (two_node_finder zero_fee_policy) "A" "B" 100000 None
  = Some (Ok (Some [("B", "chan0001")])).
Proof. vm_compute. reflexivity. Qed.

(** A [cltv_expiry_delta] above two weeks of blocks excludes the edge. *)
Example cltv_ceiling_excludes_edge :
  find_path_for_payment 10
    (two_node_finder (Policy.mk 0 0 2017 0 None false)) "A" "B" 100000 None
  = Some (Ok None).
Proof. vm_compute. reflexivity. Qed.

(** A fee of 100 msat on 1000 msat is below 5 sat and accepted; 6000 msat is
    above both thresholds and rejected. *)
Example fee_sanity_on_edge :
  find_path_for_payment 10
    (two_node_finder (Policy.mk 100 0 40 0 None false)) "A" "B" 1000 None
  = Some (Ok (Some [("B", "chan0001")]))
  /\ find_path_for_payment 10
       (two_node_finder (Policy.mk 6000 0 40 0 None false)) "A" "B" 1000 None
     = Some (Ok None).
Proof. split; vm_compute; reflexivity. Qed.

(** A disabled policy excludes the edge; so does a blacklisted channel. *)
Example disabled_or_blacklisted_edge :
  find_path_for_payment 10
    (two_node_finder (Policy.mk 0 0 40 0 None true)) "A" "B" 100000 None
  = Some (Ok None)
  /\ find_path_for_payment 10
       (add_to_blacklist (two_node_finder zero_fee_policy) "chan0001")
       "A" "B" 100000 None
     = Some (Ok None).
Proof. split; vm_compute; reflexivity. Qed.

(** A local channel that does not touch the source trips the assertion of
    the loop body. *)
Example foreign_local_channel_raises :
  find_path_for_payment 10 (three_node_finder None) "A" "D" 1000000
    (Some {[ "chan0002" := mkChannel (fun _ _ => true) (fun _ _ => true) ]})
  = Some (Raise AssertionError).
Proof. vm_compute. reflexivity. Qed.

(** A channel id that is not 8 bytes long trips the assertion of
    [ShortChannelID.normalize] as soon as the edge passes the policy
    tests. *)
Example short_id_raises :
  find_path_for_payment 10 (two_node_finder_ids "c1" zero_fee_policy)
    "A" "B" 100000 None
  = Some (Raise AssertionError).
Proof. vm_compute. reflexivity. Qed.

(** * Further properties of the path finder *)

(** ** Fee sanity and the edge cost *)

(** X1: a sane fee stays sane when the fee gets smaller or the payment
    larger. *)
Theorem is_fee_sane_monotone (fee fee' amt amt' : Z) :
  is_fee_sane fee amt = true ->
  fee' <= fee -> amt <= amt' ->
  is_fee_sane fee' amt' = true.
Proof.
  unfold is_fee_sane. intros H Hfee Hamt.
  destruct (fee <=? 5000) eqn:E1.
  - apply Z.leb_le in E1.
    destruct (fee' <=? 5000) eqn:E2; [done|]. apply Z.leb_gt in E2. lia.
  - destruct (100 * fee <=? amt) eqn:E3; [|done]. apply Z.leb_le in E3.
    destruct (fee' <=? 5000); [done|].
    destruct (100 * fee' <=? amt') eqn:E4; [done|]. apply Z.leb_gt in E4. lia.
Qed.

Lemma is_fee_sane_monotone_witness : is_fee_sane 5900 600000 = true.
Proof.
  apply (is_fee_sane_monotone 6000 5900 600000 600000);
    [reflexivity|lia|lia].
Defined.



(** X3: a cost other than [float('inf')] is at least [base_cost], the
    rounding of the [float] sum included; the fee reported with it is not
    negative, and when costs are not ignored it is the fee of the start
    node's policy for the amount. *)
Theorem edge_cost_at_least_base
    (self : LNPathFinder) (scid : ShortChannelID) (start_node end_node : NodeId)
    (amt : Z) (ign mine : bool) (mc : option MyChannels) (c : Cost) (fee : Z) :
  _edge_cost self scid start_node end_node amt ign mine mc = Ok (c, fee) ->
  c <> Infinity ->
  cost_ltb c (Int base_cost) = false
  /\ 0 <= fee
  /\ (ign = false ->
      exists pol,
        get_policy_for_node (channel_db self) scid start_node mc = Some pol
        /\ fee = fee_for_edge_msat amt (Z.of_N (Policy.fee_base_msat pol))
                   (Z.of_N (Policy.fee_proportional_millionths pol))).
Proof.
  intros H Hc.
  destruct (edge_cost_finite _ _ _ _ _ _ _ _ _ _ H) as (_ & Hfee & Hfin).
  destruct (Hfin Hc) as (Hcf & _ & ci & pol & Hci & Hpol & Hadm).
  rewrite (edge_cost_admissible _ _ _ _ _ _ _ _ _ _ Hci Hpol Hadm) in H.
  destruct Hadm as (_ & Hmin & _).
  assert (0 <= amt) as Hamt by lia.
  destruct ign.
  - injection H as <- <-. split; [|done].
    unfold cost_ltb. simpl. apply Z.ltb_irrefl.
  - cbn zeta in H.
    pose proof (fee_for_edge_msat_nonneg amt (Policy.fee_base_msat pol)
                  (Policy.fee_proportional_millionths pol) Hamt) as Hf.
    assert (0 <= Z.of_N (Policy.cltv_expiry_delta pol) * amt * 15) as Hn
      by (apply Z.mul_nonneg_nonneg; [apply Z.mul_nonneg_nonneg|]; lia).
    destruct (int_true_div _ _) as [cltv_cost|] eqn:Hdiv; [|discriminate].
    destruct (int_true_div_ok _ 1000000000 _ Hn ltac:(lia) Hdiv)
      as (u & -> & Hu & _).
    destruct (cost_add _ _) as [oc|] eqn:Hadd; [|discriminate].
    injection H as <- <-.
    split; [|split; [done|intros _; eauto]].
    set (f := fee_for_edge_msat amt (Z.of_N (Policy.fee_base_msat pol))
                (Z.of_N (Policy.fee_proportional_millionths pol))) in *.
    assert (0 <= base_cost + f) as Hbf by (unfold base_cost; lia).
    destruct (cost_add_int_float _ _ _ Hbf Hu Hadd Hcf)
      as (w & -> & _ & Hle).
    unfold cost_ltb. simpl. apply Z.ltb_ge.
    pose proof UNIT_pos as HU.
    assert (0 <= 500 * UNIT) as H500 by lia.
    assert (500 * UNIT <= (base_cost + f) * UNIT) as Hle2
      by (unfold base_cost; nia).
    pose proof (representable_ge _ _ representable_500 H500 Hle2).
    unfold base_cost. lia.
Qed.

Lemma edge_cost_at_least_base_witness :
  cost_ltb three_node_dist_B (Int base_cost) = false
  /\ 0 <= 1100
  /\ (false = false ->
      exists pol,
        get_policy_for_node (three_node_db None) "chan0002" "B" (Some ∅)
        = Some pol
        /\ 1100 = fee_for_edge_msat 1000000 (Z.of_N (Policy.fee_base_msat pol))
                    (Z.of_N (Policy.fee_proportional_millionths pol))).
Proof.
  apply (edge_cost_at_least_base (three_node_finder None) "chan0002" "B" "D"
           1000000 false false (Some ∅)).
  - vm_compute; reflexivity.
  - discriminate.
Defined.

(** ** The route sanity check *)

Lemma route_loop_edges_sane edges amt cltv res :
  route_loop edges amt cltv = Some res ->
  Forall (fun e => cltv_expiry_delta e <= 14 * 144) edges.
Proof.
  revert amt cltv. induction edges as [|e edges IH]; intros amt cltv; simpl.
  - intros _. constructor.
  - destruct (is_sane_to_use e amt) eqn:Hsane; simpl; [|discriminate].
    intros H. constructor; [|by eapply IH].
    unfold is_sane_to_use in Hsane.
    destruct (cltv_expiry_delta e >? 14 * 144) eqn:E; [discriminate|]. lia.
Qed.

(** X4: a route accepted by [is_route_sane_to_use] has at most 20 edges;
    the cltv accumulated over all edges but the first stays within
    [NBLOCK_CLTV_EXPIRY_TOO_FAR_INTO_FUTURE], the accumulated fee is sane for
    the invoice amount, and each of those edges has a cltv delta of at most
    two weeks of blocks. *)
Theorem route_sane_bounds (route : LNPaymentRoute)
    (invoice_amount_msat min_final_cltv_expiry : Z) :
  is_route_sane_to_use route invoice_amount_msat min_final_cltv_expiry = true ->
  (length route <= 20)%nat
  /\ min_final_cltv_expiry + cltv_total (drop 1 route)
     <= NBLOCK_CLTV_EXPIRY_TOO_FAR_INTO_FUTURE
  /\ is_fee_sane
       (amount_entering (drop 1 route) invoice_amount_msat
        - invoice_amount_msat) invoice_amount_msat = true
  /\ Forall (fun e => cltv_expiry_delta e <= 14 * 144) (drop 1 route).
Proof.
  unfold is_route_sane_to_use, route_accumulation.
  destruct (Z.of_nat (length route) >? NUM_MAX_EDGES_IN_PAYMENT_PATH) eqn:Hlen;
    [discriminate|].
  destruct (route_loop _ _ _) as [[amt cltv]|] eqn:Hloop; [|discriminate].
  destruct (cltv >? NBLOCK_CLTV_EXPIRY_TOO_FAR_INTO_FUTURE) eqn:Hcltv;
    [discriminate|].
  destruct (is_fee_sane _ _) eqn:Hfee; [|discriminate]. intros _.
  pose proof (route_loop_edges_sane _ _ _ _ Hloop) as Hsane.
  apply Forall_rev in Hsane. rewrite rev_involutive in Hsane.
  destruct (route_loop_rev _ _ _ _ _ Hloop) as [-> ->].
  unfold NUM_MAX_EDGES_IN_PAYMENT_PATH, NUM_MAX_HOPS_IN_PAYMENT_PATH in Hlen.
  repeat split; try done; lia.
Qed.

Lemma route_sane_bounds_witness :
  (length [edge_to_B; edge_to_D] <= 20)%nat
  /\ 147 + cltv_total (drop 1 [edge_to_B; edge_to_D])
     <= NBLOCK_CLTV_EXPIRY_TOO_FAR_INTO_FUTURE
  /\ is_fee_sane
       (amount_entering (drop 1 [edge_to_B; edge_to_D]) 1000000 - 1000000)
       1000000 = true
  /\ Forall (fun e => cltv_expiry_delta e <= 14 * 144)
            (drop 1 [edge_to_B; edge_to_D]).
Proof.
  apply (route_sane_bounds [edge_to_B; edge_to_D] 1000000 147). reflexivity.
Defined.

(** X5: a route of at most one edge is judged by the final cltv alone: the
    edge's own fee and cltv delta are never looked at. *)
Theorem short_route_sanity (route : LNPaymentRoute)
    (invoice_amount_msat min_final_cltv_expiry : Z) :
  (length route <= 1)%nat ->
  is_route_sane_to_use route invoice_amount_msat min_final_cltv_expiry
  = (min_final_cltv_expiry <=? NBLOCK_CLTV_EXPIRY_TOO_FAR_INTO_FUTURE).
Proof.
  intros Hlen.
  assert (drop 1 route = []) as Hdrop.
  { destruct route as [|e [|e' route]]; simpl in *; [done|done|lia]. }
  unfold is_route_sane_to_use, route_accumulation. rewrite Hdrop.
  cbn [rev route_loop].
  assert ((Z.of_nat (length route) >? NUM_MAX_EDGES_IN_PAYMENT_PATH) = false)
    as ->.
  { unfold NUM_MAX_EDGES_IN_PAYMENT_PATH, NUM_MAX_HOPS_IN_PAYMENT_PATH. lia. }
  rewrite Z.sub_diag. change (is_fee_sane 0 invoice_amount_msat) with true.
  cbn [negb].
  rewrite Z.gtb_ltb, Z.leb_antisym.
  by destruct (_ <? _).
Qed.

Lemma short_route_sanity_witness :
  is_route_sane_to_use [mkRouteEdge "B" "chan0001" 999999 999999 9999 0]
                       1000 147
  = (147 <=? NBLOCK_CLTV_EXPIRY_TOO_FAR_INTO_FUTURE).
Proof. apply short_route_sanity. simpl. lia. Defined.

Lemma amount_entering_ge edges invoice :
  0 <= invoice -> Forall nonneg_fees edges ->
  invoice <= amount_entering edges invoice.
Proof.
  intros Hinv. induction 1 as [|e edges [Hb Hp] _ IH]; simpl; [lia|].
  unfold fee_for_edge, fee_for_edge_msat.
  assert (0 <= amount_entering edges invoice * fee_proportional_millionths e
               / 1000000) by (apply Z.div_pos; [nia|lia]).
  lia.
Qed.

Lemma amount_entering_app extra rest invoice :
  amount_entering (extra ++ rest) invoice
  = amount_entering extra (amount_entering rest invoice).
Proof. unfold amount_entering. by rewrite fold_right_app. Qed.

(** X6: the accumulated amount only grows with the route: when the fees of
    the edges are not negative, a route that extends another one at the
    sender's end accumulates at least as much, and never less than the
    invoice amount. *)
Theorem route_accumulation_monotone
    (first first' : RouteEdge) (extra rest : list RouteEdge)
    (invoice cltv0 amt1 cltv1 amt2 cltv2 : Z) :
  0 <= invoice ->
  Forall nonneg_fees extra -> Forall nonneg_fees rest ->
  route_accumulation (first :: rest) invoice cltv0 = Some (amt1, cltv1) ->
  route_accumulation (first' :: extra ++ rest) invoice cltv0
  = Some (amt2, cltv2) ->
  invoice <= amt1 /\ amt1 <= amt2.
Proof.
  intros Hinv Hextra Hrest H1 H2.
  unfold route_accumulation in *.
  change (drop 1 (first :: rest)) with rest in H1.
  change (drop 1 (first' :: extra ++ rest)) with (extra ++ rest) in H2.
  destruct (route_loop_rev _ _ _ _ _ H1) as [-> _].
  destruct (route_loop_rev _ _ _ _ _ H2) as [-> _].
  rewrite amount_entering_app.
  pose proof (amount_entering_ge rest invoice Hinv Hrest).
  split; [done|]. apply amount_entering_ge; [lia|done].
Qed.

Lemma route_accumulation_monotone_witness :
  1000000 <= 1000000 /\ 1000000 <= 1001100.
Proof.
  apply (route_accumulation_monotone edge_to_B edge_to_B [edge_to_D] []
           1000000 9 1000000 9 1001100 49).
  - lia.
  - constructor; [unfold nonneg_fees; simpl; lia|constructor].
  - constructor.
  - reflexivity.
  - reflexivity.
Defined.

(** ** More on the search and on the returned path *)

(** X7: a returned path is not empty and its last pair names the
    destination. *)
Theorem path_ends_at_destination
    (fuel : nat) (self : LNPathFinder) (nodeA nodeB : NodeId) (amt : Z)
    (mc : option MyChannels) (path : Path) :
  find_path_for_payment fuel self nodeA nodeB amt mc = Some (Ok (Some path)) ->
  path <> [] /\ last path.*1 = Some nodeB.
Proof.
  intros H.
  destruct (find_path_for_payment_state _ _ _ _ _ _ _ H)
    as (st & _ & _ & _ & Hne & Hlast).
  split; [done|]. destruct path as [|p path]; done.
Qed.

Lemma path_ends_at_destination_witness :
  [("B", "chan0001"); ("D", "chan0002")] <> ([] : list (string * string))
  /\ last [("B", "chan0001"); ("D", "chan0002")].*1 = Some "D".
Proof.
  apply (path_ends_at_destination 10 (three_node_finder None) "A" "D"
           1000000 None).
  vm_compute; reflexivity.
Defined.

(** X8: a payment from a node to itself finds no path: whenever the call
    returns, it returns [None]. *)
Theorem self_payment_finds_no_path
    (fuel : nat) (self : LNPathFinder) (node : NodeId) (amt : Z)
    (mc : option MyChannels) (res : option Path) :
  find_path_for_payment fuel self node node amt mc = Some (Ok res) ->
  res = None.
Proof.
  unfold find_path_for_payment.
  destruct (get_distances _ _ _ _ _ _ _) as [[prev|e]|] eqn:Hd; try discriminate.
  destruct (get_distances_state _ _ _ _ _ _ _ _ Hd)
    as (st & Hinv & _ & _ & <-).
  unfold get_path. rewrite (inv_root_prev _ _ _ _ _ Hinv).
  by intros [= <-].
Qed.

Lemma self_payment_finds_no_path_witness :
  find_path_for_payment 10 (three_node_finder None) "B" "B" 1000000 None
  = Some (Ok None)
  /\ (None : option (list (string * string))) = None.
Proof.
  split; [vm_compute; reflexivity|].
  apply (self_payment_finds_no_path 10 (three_node_finder None) "B" 1000000
           None).
  vm_compute; reflexivity.
Defined.

(** X9: in the predecessor map returned by [get_distances] the destination
    has no entry, and backtracking with [get_path] works from every start
    node: it returns [None] when the start node has no entry and a path
    otherwise; it never raises [KeyError] and never walks on for ever. *)
Theorem get_path_total_on_search_result
    (fuel : nat) (self : LNPathFinder) (nodeA : option NodeId)
    (nodeB : NodeId) (amt : Z) (is_source : bool) (mc : option MyChannels)
    (prev : gmap string (string * string)) (start : NodeId) :
  get_distances fuel self nodeA nodeB amt is_source mc = Some (Ok prev) ->
  prev !! nodeB = None
  /\ exists fuel' res,
       get_path fuel' start nodeB prev = Some (Ok res)
       /\ (is_Some res <-> is_Some (prev !! start)).
Proof.
  intros Hd.
  destruct (get_distances_state _ _ _ _ _ _ _ _ Hd)
    as (st & Hinv & _ & Hord & <-).
  split; [apply (inv_root_prev _ _ _ _ _ Hinv)|].
  unfold get_path.
  destruct (prev_node st !! start) as [[v s]|] eqn:Hp.
  - destruct (ord_chain _ _ _ Hord start) as (chain & Hc & Hlast).
    { by rewrite Hp. }
    destruct (get_path_loop_complete _ _ _ _ [] Hc Hlast) as [path Hpath].
    exists (length chain), (Some path). rewrite Hpath. split; [done|].
    split; eauto.
  - exists 0%nat, None. split; [done|].
    split; intros [? ?]; discriminate.
Qed.

Lemma get_path_total_on_search_result_witness :
  (<["A" := ("B", "chan0001")]> (<["B" := ("D", "chan0002")]> ∅)
     : gmap string (string * string)) !! "D" = None
  /\ exists fuel' res,
       get_path fuel' "B" "D"
         (<["A" := ("B", "chan0001")]> (<["B" := ("D", "chan0002")]> ∅))
       = Some (Ok res)
       /\ (is_Some res
           <-> is_Some
                 ((<["A" := ("B", "chan0001")]>
                     (<["B" := ("D", "chan0002")]> ∅)
                   : gmap string (string * string)) !! "B")).
Proof.
  apply (get_path_total_on_search_result 10 (three_node_finder None)
           (Some "A") "D" 1000000 true (Some ∅)).
  vm_compute; reflexivity.
Defined.

(** X10: on a consistent snapshot every hop of a returned path goes through
    a known channel that is listed for the hop's end node and joins the
    hop's start node and end node. *)
Theorem path_hops_connected
    (fuel : nat) (self : LNPathFinder) (nodeA nodeB : NodeId) (amt : Z)
    (mc : option MyChannels) (path : Path) (u v : NodeId)
    (scid : ShortChannelID) :
  find_path_for_payment fuel self nodeA nodeB amt mc = Some (Ok (Some path)) ->
  snapshot_consistent (channel_db self) (Some (default ∅ mc)) ->
  (u, v, scid) ∈ hop_triples nodeA path ->
  scid ∈ get_channels_for_node (channel_db self) v (Some (default ∅ mc))
  /\ exists ci,
       get_channel_info (channel_db self) scid (Some (default ∅ mc)) = Some ci
       /\ ((node1_id ci = u /\ node2_id ci = v)
           \/ (node1_id ci = v /\ node2_id ci = u)).
Proof.
  intros Hfind Hcons Hin.
  destruct (find_path_for_payment_state _ _ _ _ _ _ _ Hfind)
    as (st & _ & Hhops & Hchain & _).
  destruct (chain_triples _ _ _ _ _ _ Hchain Hin) as [Hp _].
  destruct (hops_prev _ _ _ _ _ _ Hhops _ _ _ Hp)
    as (a & _ & Hlisted & _ & ci & m & c & fee & Hci & Hu & _).
  split; [done|]. exists ci. split; [done|].
  destruct (Hcons _ _ Hlisted) as (ci' & Hci' & Hend).
  rewrite Hci in Hci'. injection Hci' as <-.
  destruct (String.eqb_spec (node1_id ci) v) as [E|E].
  - right. by subst.
  - left. destruct Hend as [?|?]; [done|]. by subst.
Qed.

Lemma path_hops_connected_witness :
  "chan0002" ∈ get_channels_for_node (three_node_db None) "D" (Some ∅)
  /\ exists ci,
       get_channel_info (three_node_db None) "chan0002" (Some ∅) = Some ci
       /\ ((node1_id ci = "B" /\ node2_id ci = "D")
           \/ (node1_id ci = "D" /\ node2_id ci = "B")).
Proof.
  apply (path_hops_connected 10 (three_node_finder None) "A" "D" 1000000 None
           [("B", "chan0001"); ("D", "chan0002")]).
  - vm_compute; reflexivity.
  - apply three_node_db_consistent.
  - simpl. set_solver.
Defined.

(** X11: every hop of a returned path was admissible when it was recorded:
    the start node of the hop publishes a policy for the channel that is not
    disabled, whose cltv delta is at most two weeks of blocks, and that
    accepts, with a sane fee, some amount not below the invoice amount. *)
Theorem path_hops_admissible
    (fuel : nat) (self : LNPathFinder) (nodeA nodeB : NodeId) (amt : Z)
    (mc : option MyChannels) (path : Path) (u v : NodeId)
    (scid : ShortChannelID) :
  find_path_for_payment fuel self nodeA nodeB amt mc = Some (Ok (Some path)) ->
  (u, v, scid) ∈ hop_triples nodeA path ->
  exists pol forwarded,
    get_policy_for_node (channel_db self) scid u (Some (default ∅ mc))
    = Some pol
    /\ Policy.disabled pol = false
    /\ Z.of_N (Policy.cltv_expiry_delta pol) <= 14 * 144
    /\ amt <= forwarded
    /\ Z.of_N (Policy.htlc_minimum_msat pol) <= forwarded
    /\ (forall hmax, Policy.htlc_maximum_msat pol = Some hmax ->
          forwarded <= Z.of_N hmax)
    /\ is_fee_sane
         (fee_for_edge_msat forwarded (Z.of_N (Policy.fee_base_msat pol))
            (Z.of_N (Policy.fee_proportional_millionths pol))) forwarded
       = true.
Proof.
  intros Hfind Hin.
  destruct (find_path_for_payment_state _ _ _ _ _ _ _ Hfind)
    as (st & _ & Hhops & Hchain & _).
  destruct (chain_triples _ _ _ _ _ _ Hchain Hin) as [Hp _].
  destruct (hops_prev _ _ _ _ _ _ Hhops _ _ _ Hp)
    as (a & Ha & _ & _ & ci & m & c & fee & _ & _ & _ & _ & Hec & Hc).
  destruct (edge_cost_finite _ _ _ _ _ _ _ _ _ _ Hec) as (_ & _ & Hfin).
  destruct (Hfin Hc)
    as (_ & _ & ci' & pol & _ & Hpol & Hdis & Hmin & _ & Hmax & _ & Hcl
        & Hsane).
  exists pol, a. done.
Qed.

Lemma path_hops_admissible_witness :
  exists pol forwarded,
    get_policy_for_node (three_node_db None) "chan0002" "B" (Some ∅) = Some pol
    /\ Policy.disabled pol = false
    /\ Z.of_N (Policy.cltv_expiry_delta pol) <= 14 * 144
    /\ 1000000 <= forwarded
    /\ Z.of_N (Policy.htlc_minimum_msat pol) <= forwarded
    /\ (forall hmax, Policy.htlc_maximum_msat pol = Some hmax ->
          forwarded <= Z.of_N hmax)
    /\ is_fee_sane
         (fee_for_edge_msat forwarded (Z.of_N (Policy.fee_base_msat pol))
            (Z.of_N (Policy.fee_proportional_millionths pol))) forwarded
       = true.
Proof.
  apply (path_hops_admissible 10 (three_node_finder None) "A" "D" 1000000 None
           [("B", "chan0001"); ("D", "chan0002")] "B" "D").
  - vm_compute; reflexivity.
  - simpl. set_solver.
Defined.

(** X12: one of our own channels can only be the first hop of a returned
    path: it leaves the source, and [can_pay] accepted an amount not below
    the invoice amount. *)
Theorem local_channel_only_first_hop
    (fuel : nat) (self : LNPathFinder) (nodeA nodeB : NodeId) (amt : Z)
    (mc : option MyChannels) (path : Path) (u v : NodeId)
    (scid : ShortChannelID) (chan : Channel) :
  find_path_for_payment fuel self nodeA nodeB amt mc = Some (Ok (Some path)) ->
  (u, v, scid) ∈ hop_triples nodeA path ->
  default ∅ mc !! scid = Some chan ->
  u = nodeA
  /\ exists forwarded,
       amt <= forwarded /\ can_pay chan forwarded true = true.
Proof.
  intros Hfind Hin Hchan.
  destruct (find_path_for_payment_state _ _ _ _ _ _ _ Hfind)
    as (st & Hinv & Hhops & Hchain & _ & Hlast).
  destruct (chain_triples _ _ _ _ _ _ Hchain Hin) as [Hp Hv].
  destruct (hops_prev _ _ _ _ _ _ Hhops _ _ _ Hp)
    as (a & Ha & _ & _ & ci & m & c & fee & _ & _ & [= <-] & Hgate & _).
  unfold local_gate in Hgate. rewrite Hchan in Hgate. simpl in Hgate.
  destruct (String.eqb_spec u nodeA) as [->|Hne].
  - split; [done|]. exists a. split; [done|].
    by destruct (can_pay chan a true).
  - exfalso.
    destruct (String.eqb_spec v nodeA) as [->|Hne']; [|discriminate].
    pose proof (chain_NoDup _ _ _ _ (inv_root_prev _ _ _ _ _ Hinv) Hchain
                  Hlast) as Hnd.
    apply NoDup_cons in Hnd as [Hnot _]. done.
Qed.

Lemma local_channel_only_first_hop_witness :
  "A" = "A"
  /\ exists forwarded,
       1000000 <= forwarded
       /\ can_pay (mkChannel (fun a _ => a <=? 2000000) (fun _ _ => false))
                  forwarded true = true.
Proof.
  apply (local_channel_only_first_hop 10 (three_node_finder None) "A" "D"
           1000000
           (Some {[ "chan0001" :=
                      mkChannel (fun a _ => a <=? 2000000)
                                (fun _ _ => false) ]})
           [("B", "chan0001"); ("D", "chan0002")] "A" "B" "chan0001").
  - vm_compute; reflexivity.
  - simpl. set_solver.
  - reflexivity.
Defined.

(** ** Blacklist, search without a source, cut-off destination *)

(** X13: after [add_to_blacklist self scid] no returned path uses [scid],
    the channels blacklisted before stay excluded, and the channel database
    is the same. *)
Theorem add_to_blacklist_excludes
    (fuel : nat) (self : LNPathFinder) (scid : ShortChannelID)
    (nodeA nodeB : NodeId) (amt : Z) (mc : option MyChannels) (path : Path) :
  find_path_for_payment fuel (add_to_blacklist self scid) nodeA nodeB amt mc
  = Some (Ok (Some path)) ->
  (scid ∉ path.*2)
  /\ (forall s, s ∈ blacklist self -> s ∉ path.*2)
  /\ channel_db (add_to_blacklist self scid) = channel_db self.
Proof.
  intros Hfind.
  destruct (find_path_for_payment_state _ _ _ _ _ _ _ Hfind)
    as (st & Hinv & _ & Hc & _).
  assert (forall s, s ∈ blacklist (add_to_blacklist self scid) -> s ∉ path.*2)
    as Hex.
  { intros s Hs Hin. apply list_elem_of_fmap in Hin as ([n s'] & -> & Hin).
    by eapply chain_not_blacklisted. }
  split; [|split; [|done]].
  - apply Hex, add_to_blacklist_elem. by right.
  - intros s Hs. apply Hex, add_to_blacklist_elem. by left.
Qed.

Lemma add_to_blacklist_excludes_witness :
  ("chan0003" ∉ [("B", "chan0001"); ("D", "chan0002")].*2)
  /\ (forall s, s ∈ blacklist (mkLNPathFinder direct_db ∅) ->
        s ∉ [("B", "chan0001"); ("D", "chan0002")].*2)
  /\ channel_db (add_to_blacklist (mkLNPathFinder direct_db ∅) "chan0003")
     = channel_db (mkLNPathFinder direct_db ∅).
Proof.
  apply (add_to_blacklist_excludes 10 (mkLNPathFinder direct_db ∅) "chan0003"
           "A" "D" 1000000 None).
  vm_compute; reflexivity.
Defined.

(** X14: without a source ([nodeA] is [None] or empty, as in the beacon
    precomputation) the search never stops early: when the loop is left
    normally, the queue is empty. *)
Theorem search_without_source_exhausts_queue
    (fuel : nat) (self : LNPathFinder) (nodeA : option NodeId)
    (is_source : bool) (mc : option MyChannels) (st : SearchState)
    (ex : LoopExit) (st' : SearchState) :
  truthy nodeA = false ->
  main_loop fuel self nodeA is_source mc st = Some (Ok (ex, st')) ->
  ex = QueueEmpty /\ nodes_to_explore st' = [].
Proof.
  intros Hfalsy. revert st.
  induction fuel as [|fuel IH]; intros st; simpl; [done|].
  destruct (nodes_to_explore st) as [|[[d amt] v] q] eqn:Hq; simpl.
  { by intros [= <- <-]. }
  rewrite Hfalsy. simpl.
  destruct (negb _); [apply IH|].
  destruct (for_channels _ _ _ _ _ _ _ _) as [st2|]; [apply IH|discriminate].
Qed.

Lemma search_without_source_exhausts_queue_witness :
  exists st',
    main_loop 10 (three_node_finder None) None true (Some ∅)
              (initial_state "D" 1000000) = Some (Ok (QueueEmpty, st'))
    /\ QueueEmpty = QueueEmpty /\ nodes_to_explore st' = [].
Proof.
  eexists. split; [vm_compute; reflexivity|].
  eapply (search_without_source_exhausts_queue 10 (three_node_finder None)
            None true (Some ∅) (initial_state "D" 1000000)).
  - reflexivity.
  - vm_compute; reflexivity.
Defined.

Lemma for_channels_all_blacklisted self nodeA is_source mc amt v chs st :
  (forall s, s ∈ chs -> s ∈ blacklist self) ->
  for_channels self nodeA is_source mc amt v chs st = Ok st.
Proof.
  induction chs as [|ch chs IH]; intros Hall; simpl; [done|].
  unfold relax_edge. rewrite bool_decide_eq_true_2.
  - apply IH. intros s Hs. apply Hall. by right.
  - apply Hall. by left.
Qed.

(** X15: when the destination has no channel, or all of its channels are
    blacklisted, the search ends after two tests of the loop condition and
    no path is found. *)
Theorem cut_off_destination_finds_no_path
    (fuel : nat) (self : LNPathFinder) (nodeA nodeB : NodeId) (amt : Z)
    (mc : option MyChannels) :
  (2 <= fuel)%nat ->
  (forall s,
     s ∈ get_channels_for_node (channel_db self) nodeB (Some (default ∅ mc)) ->
     s ∈ blacklist self) ->
  find_path_for_payment fuel self nodeA nodeB amt mc = Some (Ok None).
Proof.
  intros Hfuel Hall.
  destruct fuel as [|[|fuel]]; [lia|lia|].
  unfold find_path_for_payment, get_distances, initial_state.
  cbn [pq_put].
  cbn [main_loop pq_get nodes_to_explore distance_from_start prev_node].
  destruct (truthy (Some nodeA) && eq_node nodeB (Some nodeA)).
  { cbn [result_map snd prev_node]. unfold get_path.
    by rewrite lookup_empty. }
  unfold dist_get at 1. rewrite lookup_insert_eq.
  assert (cost_eqb (Int 0) (default Infinity (Some (Int 0))) = true)
    as -> by reflexivity.
  cbn [negb].
  rewrite for_channels_all_blacklisted by done.
  cbn [nodes_to_explore pq_get result_map snd prev_node]. unfold get_path.
  by rewrite lookup_empty.
Qed.

Lemma cut_off_destination_finds_no_path_witness :
  find_path_for_payment 2
    (add_to_blacklist (two_node_finder zero_fee_policy) "chan0001")
    "A" "B" 100000 None = Some (Ok None).
Proof.
  apply (cut_off_destination_finds_no_path 2
           (add_to_blacklist (two_node_finder zero_fee_policy) "chan0001")
           "A" "B" 100000 None).
  - lia.
  - intros s Hs. apply add_to_blacklist_elem. right.
    simpl in Hs. by apply list_elem_of_singleton in Hs.
Defined.

(** * lnutil.py *)

(** ** Bytes and integers *)

Lemma string_append_cons c (s1 s2 : string) :
  String.append (String c s1) s2 = String c (String.append s1 s2).
Proof. reflexivity. Qed.

Lemma string_append_nil_l (s : string) : String.append EmptyString s = s.
Proof. reflexivity. Qed.

Lemma string_length_append (s1 s2 : string) :
  String.length (String.append s1 s2)
  = (String.length s1 + String.length s2)%nat.
Proof.
  induction s1 as [|c s1 IH]; [done|].
  rewrite string_append_cons. simpl. by rewrite IH.
Qed.

Lemma string_append_assoc (s1 s2 s3 : string) :
  String.append (String.append s1 s2) s3
  = String.append s1 (String.append s2 s3).
Proof.
  induction s1 as [|c s1 IH]; [done|].
  rewrite !string_append_cons. by rewrite IH.
Qed.

Lemma string_append_nil_r (s : string) : String.append s EmptyString = s.
Proof.
  induction s as [|c s IH]; [done|]. rewrite string_append_cons. by rewrite IH.
Qed.

Lemma substring_skip_append (s1 s2 : string) n m :
  substring (String.length s1 + n) m (String.append s1 s2) = substring n m s2.
Proof.
  induction s1 as [|c s1 IH]; [done|]. rewrite string_append_cons. exact IH.
Qed.

Lemma substring_prefix_append (s1 s2 : string) :
  substring 0 (String.length s1) (String.append s1 s2) = s1.
Proof.
  induction s1 as [|c s1 IH].
  - rewrite string_append_nil_l. by destruct s2.
  - rewrite string_append_cons. simpl. by rewrite IH.
Qed.

Lemma be_bytes_length n x : String.length (lnutil.be_bytes n x) = n.
Proof.
  revert x. induction n as [|n IH]; intros x; simpl; [done|].
  rewrite string_length_append, IH. simpl. lia.
Qed.

Lemma from_bytes_loop_append acc s1 s2 :
  lnutil.from_bytes_loop acc (String.append s1 s2)
  = lnutil.from_bytes_loop (lnutil.from_bytes_loop acc s1) s2.
Proof.
  revert acc. induction s1 as [|c s1 IH]; intros acc; [done|].
  rewrite string_append_cons. simpl. apply IH.
Qed.

Lemma byte_of_mod x :
  Z.of_N (Ascii.N_of_ascii (Ascii.ascii_of_N (Z.to_N (x mod 256))))
  = x mod 256.
Proof.
  pose proof (Z.mod_pos_bound x 256 ltac:(lia)).
  rewrite Ascii.N_ascii_embedding by lia. lia.
Qed.

Lemma from_bytes_loop_be_bytes n acc x :
  lnutil.from_bytes_loop acc (lnutil.be_bytes n x)
  = acc * 256 ^ Z.of_nat n + x mod 256 ^ Z.of_nat n.
Proof.
  revert acc x. induction n as [|n IH]; intros acc x.
  - simpl. rewrite Z.mod_1_r. lia.
  - cbn [lnutil.be_bytes]. rewrite from_bytes_loop_append, IH.
    cbn [lnutil.from_bytes_loop]. rewrite byte_of_mod.
    rewrite Nat2Z.inj_succ, Z.pow_succ_r by lia.
    rewrite (Z.rem_mul_r x 256 (256 ^ Z.of_nat n)) by lia. lia.
Qed.

Lemma from_bytes_be_bytes n x :
  0 <= x < 256 ^ Z.of_nat n ->
  lnutil.from_bytes (lnutil.be_bytes n x) = x.
Proof.
  intros Hx. unfold lnutil.from_bytes.
  rewrite from_bytes_loop_be_bytes, Z.mod_small by done. lia.
Qed.

Lemma ascii_byte_bound c : 0 <= Z.of_N (Ascii.N_of_ascii c) < 256.
Proof. pose proof (Ascii.N_ascii_bounded c). lia. Qed.

Lemma from_bytes_loop_bound s acc :
  0 <= acc ->
  acc * 256 ^ Z.of_nat (String.length s)
  <= lnutil.from_bytes_loop acc s
  < (acc + 1) * 256 ^ Z.of_nat (String.length s).
Proof.
  revert acc. induction s as [|c s IH]; intros acc Hacc.
  - simpl. lia.
  - cbn [lnutil.from_bytes_loop String.length].
    pose proof (ascii_byte_bound c).
    specialize (IH (acc * 256 + Z.of_N (Ascii.N_of_ascii c)) ltac:(lia)).
    rewrite Nat2Z.inj_succ, Z.pow_succ_r by lia.
    assert (0 < 256 ^ Z.of_nat (String.length s)) by (apply Z.pow_pos_nonneg; lia).
    nia.
Qed.

Lemma be_bytes_from_bytes_loop s m acc :
  0 <= acc ->
  lnutil.be_bytes (m + String.length s) (lnutil.from_bytes_loop acc s)
  = String.append (lnutil.be_bytes m acc) s.
Proof.
  revert m acc. induction s as [|c s IH]; intros m acc Hacc.
  - simpl. by rewrite Nat.add_0_r, string_append_nil_r.
  - cbn [lnutil.from_bytes_loop String.length].
    pose proof (ascii_byte_bound c).
    replace (m + S (String.length s))%nat with (S m + String.length s)%nat
      by lia.
    rewrite IH by lia. cbn [lnutil.be_bytes].
    replace ((acc * 256 + Z.of_N (Ascii.N_of_ascii c)) / 256) with acc
      by (apply Z.div_unique_pos with (Z.of_N (Ascii.N_of_ascii c)); lia).
    replace ((acc * 256 + Z.of_N (Ascii.N_of_ascii c)) mod 256)
      with (Z.of_N (Ascii.N_of_ascii c))
      by (apply Z.mod_unique_pos with acc; lia).
    rewrite N2Z.id, Ascii.ascii_N_embedding.
    by rewrite string_append_assoc.
Qed.

Lemma to_bytes_from_bytes s :
  lnutil.to_bytes (lnutil.from_bytes s) (String.length s) = lnutil.Returns s.
Proof.
  unfold lnutil.to_bytes, lnutil.from_bytes.
  pose proof (from_bytes_loop_bound s 0 ltac:(lia)) as Hb.
  destruct (_ <? 0) eqn:E1; [apply Z.ltb_lt in E1; lia|].
  destruct (_ <=? _) eqn:E2; [apply Z.leb_le in E2; lia|].
  f_equal. apply (be_bytes_from_bytes_loop s 0 0). lia.
Qed.

(** ** Short channel ids *)

(** X16: [ShortChannelID.from_components] and the three properties are
    inverse to each other on in-range components: the result has 8 bytes and
    [block_height], [txpos], [output_index] give the components back. *)
Theorem from_components_round_trip (bh tx oi : Z) :
  0 <= bh < 2 ^ 24 -> 0 <= tx < 2 ^ 24 -> 0 <= oi < 2 ^ 16 ->
  exists scid,
    lnutil.from_components bh tx oi = lnutil.Returns scid
    /\ String.length scid = 8%nat
    /\ lnutil.block_height scid = bh
    /\ lnutil.txpos scid = tx
    /\ lnutil.output_index scid = oi.
Proof.
  intros Hbh Htx Hoi.
  unfold lnutil.from_components, lnutil.to_bytes.
  destruct (bh <? 0) eqn:E1; [apply Z.ltb_lt in E1; lia|].
  destruct (256 ^ Z.of_nat 3 <=? bh) eqn:E2; [apply Z.leb_le in E2; lia|].
  destruct (tx <? 0) eqn:E3; [apply Z.ltb_lt in E3; lia|].
  destruct (256 ^ Z.of_nat 3 <=? tx) eqn:E4; [apply Z.leb_le in E4; lia|].
  destruct (oi <? 0) eqn:E5; [apply Z.ltb_lt in E5; lia|].
  destruct (256 ^ Z.of_nat 2 <=? oi) eqn:E6; [apply Z.leb_le in E6; lia|].
  eexists. split; [done|].
  unfold lnutil.block_height, lnutil.txpos, lnutil.output_index.
  pose proof (be_bytes_length 3 bh) as L1.
  pose proof (be_bytes_length 3 tx) as L2.
  pose proof (be_bytes_length 2 oi) as L3.
  split; [|split; [|split]].
  - rewrite !string_length_append. lia.
  - rewrite <- L1 at 1. rewrite substring_prefix_append.
    apply from_bytes_be_bytes. lia.
  - replace 3%nat with (String.length (lnutil.be_bytes 3 bh) + 0)%nat at 1
      by lia.
    rewrite substring_skip_append.
    rewrite <- L2 at 1. rewrite substring_prefix_append.
    apply from_bytes_be_bytes. lia.
  - replace 6%nat with (String.length (lnutil.be_bytes 3 bh) + 3)%nat by lia.
    rewrite substring_skip_append.
    replace 3%nat with (String.length (lnutil.be_bytes 3 tx) + 0)%nat at 1
      by lia.
    rewrite substring_skip_append.
    rewrite <- (string_append_nil_r (lnutil.be_bytes 2 oi)).
    rewrite <- L3 at 1. rewrite substring_prefix_append.
    apply from_bytes_be_bytes. lia.
Qed.

Lemma from_components_round_trip_witness :
  exists scid,
    lnutil.from_components 600000 1234 7 = lnutil.Returns scid
    /\ String.length scid = 8%nat
    /\ lnutil.block_height scid = 600000
    /\ lnutil.txpos scid = 1234
    /\ lnutil.output_index scid = 7.
Proof. apply from_components_round_trip; lia. Defined.

(** X17: [from_components] raises [OverflowError] exactly when a component
    is negative or does not fit its 3, 3 or 2 bytes. *)
Theorem from_components_overflow (bh tx oi : Z) :
  lnutil.from_components bh tx oi = lnutil.Raises lnutil.OverflowError
  <-> ~ (0 <= bh < 2 ^ 24 /\ 0 <= tx < 2 ^ 24 /\ 0 <= oi < 2 ^ 16).
Proof.
  unfold lnutil.from_components, lnutil.to_bytes.
  change (256 ^ Z.of_nat 3) with (2 ^ 24).
  change (256 ^ Z.of_nat 2) with (2 ^ 16).
  destruct (bh <? 0) eqn:E1;
    [apply Z.ltb_lt in E1; split; [lia|done]|apply Z.ltb_ge in E1].
  destruct (2 ^ 24 <=? bh) eqn:E2;
    [apply Z.leb_le in E2; split; [lia|done]|apply Z.leb_gt in E2].
  destruct (tx <? 0) eqn:E3;
    [apply Z.ltb_lt in E3; split; [lia|done]|apply Z.ltb_ge in E3].
  destruct (2 ^ 24 <=? tx) eqn:E4;
    [apply Z.leb_le in E4; split; [lia|done]|apply Z.leb_gt in E4].
  destruct (oi <? 0) eqn:E5;
    [apply Z.ltb_lt in E5; split; [lia|done]|apply Z.ltb_ge in E5].
  destruct (2 ^ 16 <=? oi) eqn:E6;
    [apply Z.leb_le in E6; split; [lia|done]|apply Z.leb_gt in E6].
  split; [discriminate|]. intros H. exfalso. apply H. lia.
Qed.

(** X18: an 8-byte short channel id is rebuilt from its three
    components. *)
Theorem from_components_of_properties (scid : ShortChannelID) :
  String.length scid = 8%nat ->
  lnutil.from_components (lnutil.block_height scid) (lnutil.txpos scid)
                         (lnutil.output_index scid)
  = lnutil.Returns scid.
Proof.
  intros Hlen.
  destruct scid as [|c1 [|c2 [|c3 [|c4 [|c5 [|c6 [|c7 [|c8 [|c9 s]]]]]]]]];
    try discriminate.
  unfold lnutil.from_components, lnutil.block_height, lnutil.txpos,
    lnutil.output_index.
  cbn [substring].
  pose proof (to_bytes_from_bytes
                (String c1 (String c2 (String c3 EmptyString)))) as H1.
  pose proof (to_bytes_from_bytes
                (String c4 (String c5 (String c6 EmptyString)))) as H2.
  pose proof (to_bytes_from_bytes (String c7 (String c8 EmptyString))) as H3.
  cbn [String.length] in H1, H2, H3.
  rewrite H1, H2, H3. done.
Qed.

Lemma from_components_of_properties_witness :
  lnutil.from_components (lnutil.block_height "chan0001")
    (lnutil.txpos "chan0001") (lnutil.output_index "chan0001")
  = lnutil.Returns "chan0001".
Proof. apply from_components_of_properties. reflexivity. Defined.

(** ** [count_trailing_zeros] *)

Lemma list_ascii_of_string_append (s1 s2 : string) :
  list_ascii_of_string (String.append s1 s2)
  = list_ascii_of_string s1 ++ list_ascii_of_string s2.
Proof.
  induction s1 as [|c s1 IH]; [done|].
  rewrite string_append_cons. simpl. by rewrite IH.
Qed.

(** The digits of a positive number, least significant first: the index of
    the first ['1'] is the exponent of 2 in the number. *)
Lemma index_of_one_pos_bin (p : positive) (tail : list Ascii.ascii) :
  exists (k : nat) (m : Z),
    lnutil.index_of_char lnutil.char_one
      (rev (list_ascii_of_string (lnutil.pos_bin p)) ++ tail) = Some k
    /\ 0 <= m
    /\ Z.pos p = 2 ^ Z.of_nat k * (2 * m + 1).
Proof.
  induction p as [p IH|p IH|].
  - exists 0%nat, (Z.pos p). cbn [lnutil.pos_bin].
    rewrite list_ascii_of_string_append, rev_app_distr.
    split; [done|]. split; lia.
  - destruct IH as (k & m & Hk & Hm & Hp). exists (S k), m.
    cbn [lnutil.pos_bin].
    rewrite list_ascii_of_string_append, rev_app_distr.
    cbn [list_ascii_of_string rev app lnutil.index_of_char].
    change (Ascii.eqb _ lnutil.char_one) with false. cbv iota.
    rewrite Hk. split; [done|]. split; [done|].
    rewrite Nat2Z.inj_succ, Z.pow_succ_r by lia. lia.
  - exists 0%nat, 0. done.
Qed.

Lemma count_trailing_zeros_factor (idx : Z) :
  idx <> 0 ->
  exists m,
    0 <= lnutil.count_trailing_zeros idx
    /\ 0 <= m
    /\ Z.abs idx = 2 ^ lnutil.count_trailing_zeros idx * (2 * m + 1).
Proof.
  intros Hne.
  unfold lnutil.count_trailing_zeros.
  destruct idx as [|p|p]; [done| |].
  - destruct (index_of_one_pos_bin p []) as (k & m & Hk & Hm & Hp).
    rewrite app_nil_r in Hk.
    change (lnutil.drop_chars 2 (lnutil.bin (Z.pos p))) with (lnutil.pos_bin p).
    rewrite Hk. exists m. split; [lia|]. split; [done|]. simpl. lia.
  - destruct (index_of_one_pos_bin p [Ascii.ascii_of_nat 98])
      as (k & m & Hk & Hm & Hp).
    change (lnutil.drop_chars 2 (lnutil.bin (Z.neg p)))
      with (String (Ascii.ascii_of_nat 98) (lnutil.pos_bin p)).
    cbn [list_ascii_of_string rev].
    rewrite Hk. exists m. split; [lia|]. split; [done|]. simpl. lia.
Qed.

(** X19: [count_trailing_zeros] returns 48 for 0 and, for any other integer,
    negative ones included, the exponent of the largest power of two that
    divides it. *)
Theorem count_trailing_zeros_spec (idx : Z) :
  (idx = 0 -> lnutil.count_trailing_zeros idx = 48)
  /\ (idx <> 0 ->
      exists m,
        0 <= lnutil.count_trailing_zeros idx
        /\ 0 <= m
        /\ Z.abs idx = 2 ^ lnutil.count_trailing_zeros idx * (2 * m + 1)).
Proof.
  split; [by intros ->|]. apply count_trailing_zeros_factor.
Qed.

(** ** Feature bits, fees *)

(** X20: [get_ln_flag_pair_of_bit] swaps the two bits of a pair: the result
    differs from the argument, lies in the same pair (same half), and
    applying the function twice gives the argument back. *)
Theorem flag_pair_involution (flag_bit : Z) :
  lnutil.get_ln_flag_pair_of_bit (lnutil.get_ln_flag_pair_of_bit flag_bit)
  = flag_bit
  /\ lnutil.get_ln_flag_pair_of_bit flag_bit <> flag_bit
  /\ lnutil.get_ln_flag_pair_of_bit flag_bit / 2 = flag_bit / 2.
Proof.
  unfold lnutil.get_ln_flag_pair_of_bit.
  destruct (flag_bit mod 2 =? 0) eqn:E.
  - apply Z.eqb_eq in E.
    assert (((flag_bit + 1) mod 2 =? 0) = false) as ->
      by (apply Z.eqb_neq; Z.to_euclidean_division_equations; lia).
    split; [lia|]. split; [lia|].
    Z.to_euclidean_division_equations; lia.
  - apply Z.eqb_neq in E.
    assert (((flag_bit - 1) mod 2 =? 0) = true) as ->
      by (apply Z.eqb_eq; Z.to_euclidean_division_equations; lia).
    split; [lia|]. split; [lia|].
    Z.to_euclidean_division_equations; lia.
Qed.

(** X21: [calc_fees_for_commitment_tx] charges the whole fee to the
    initiator and nothing to the other side; with [round_to_sat] the fee is a
    multiple of 1000 msat, rounded down by less than one sat. *)
Theorem commitment_fee_split (num_htlcs feerate : Z)
    (is_local_initiator round_to_sat : bool) :
  let fees := lnutil.calc_fees_for_commitment_tx num_htlcs feerate
                is_local_initiator round_to_sat in
  let raw := feerate * (lnutil.COMMITMENT_TX_WEIGHT
                        + num_htlcs * lnutil.HTLC_OUTPUT_WEIGHT) in
  fees (if is_local_initiator then lnutil.REMOTE else lnutil.LOCAL) = 0
  /\ (round_to_sat = false ->
      fees lnutil.LOCAL + fees lnutil.REMOTE = raw)
  /\ (round_to_sat = true ->
      (fees lnutil.LOCAL + fees lnutil.REMOTE) mod 1000 = 0
      /\ raw - 1000 < fees lnutil.LOCAL + fees lnutil.REMOTE <= raw).
Proof.
  unfold lnutil.calc_fees_for_commitment_tx.
  destruct is_local_initiator, round_to_sat; cbn [negb];
    (split; [done|]); (split; [intros ?; try done; lia|]);
    intros ?; try done;
    (split; [rewrite ?Z.add_0_r, ?Z.add_0_l; apply Z.mod_mul; lia|
            Z.to_euclidean_division_equations; lia]).
Qed.

(** X22: for a non-negative feerate both trim thresholds are at least the
    dust limit, and the threshold for received HTLCs is never below the one
    for offered HTLCs. *)
Theorem trim_thresholds_ordered (dust_limit_sat feerate : Z) :
  0 <= feerate ->
  dust_limit_sat
  <= lnutil.offered_htlc_trim_threshold_sat dust_limit_sat feerate
  /\ lnutil.offered_htlc_trim_threshold_sat dust_limit_sat feerate
     <= lnutil.received_htlc_trim_threshold_sat dust_limit_sat feerate.
Proof.
  intros Hfee.
  unfold lnutil.offered_htlc_trim_threshold_sat,
    lnutil.received_htlc_trim_threshold_sat,
    lnutil.HTLC_TIMEOUT_WEIGHT, lnutil.HTLC_SUCCESS_WEIGHT.
  split; Z.to_euclidean_division_equations; lia.
Qed.

Lemma trim_thresholds_ordered_witness :
  546 <= lnutil.offered_htlc_trim_threshold_sat 546 253
  /\ lnutil.offered_htlc_trim_threshold_sat 546 253
     <= lnutil.received_htlc_trim_threshold_sat 546 253.
Proof. apply trim_thresholds_ordered. lia. Defined.

(** ** Shachain *)

Lemma testbit_one (k : Z) : Z.testbit 1 k = (k =? 0).
Proof. destruct k as [|p|p]; [done| |done]. by destruct p. Qed.

Lemma land_bit_zero (i b : Z) :
  0 <= b -> (Z.land i (Z.shiftl 1 b) =? 0) = negb (Z.testbit i b).
Proof.
  intros Hb. destruct (Z.testbit i b) eqn:Hbit; simpl.
  - apply Z.eqb_neq. intros H0.
    assert (Z.testbit (Z.land i (Z.shiftl 1 b)) b = true) as Hc.
    { rewrite Z.land_spec, Hbit, Z.shiftl_spec, Z.sub_diag by lia. done. }
    rewrite H0, Z.bits_0 in Hc. discriminate.
  - apply Z.eqb_eq. apply Z.bits_inj'. intros n Hn.
    rewrite Z.land_spec, Z.bits_0, Z.shiftl_spec, testbit_one by lia.
    destruct (Z.eqb_spec (n - b) 0) as [E|E]; [|apply andb_false_r].
    replace n with b by lia. by rewrite Hbit.
Qed.

Lemma mask_testbit (z n : Z) :
  0 <= z <= 64 -> 0 <= n ->
  Z.testbit (Z.shiftl 1 64 - 1 - (Z.shiftl 1 z - 1)) n
  = (z <=? n) && (n <? 64).
Proof.
  intros Hz Hn.
  replace (Z.shiftl 1 64 - 1 - (Z.shiftl 1 z - 1))
    with (Z.shiftl (Z.ones (64 - z)) z).
  2:{ rewrite Z.ones_equiv, !Z.shiftl_mul_pow2, !Z.mul_1_l by lia.
      replace 64 with (64 - z + z) at 2 by lia.
      rewrite Z.pow_add_r by lia. lia. }
  rewrite Z.shiftl_spec by lia.
  destruct (Z.leb_spec z n) as [Hle|Hlt]; simpl.
  - destruct (Z.ltb_spec n 64) as [H1|H1].
    + apply Z.ones_spec_low. lia.
    + apply Z.ones_spec_high. lia.
  - apply Z.testbit_neg_r. lia.
Qed.

Lemma get_prefix_testbit (idx z n : Z) :
  0 <= z <= 64 -> 0 <= n ->
  Z.testbit (lnutil.get_prefix idx z) n
  = Z.testbit idx n && ((z <=? n) && (n <? 64)).
Proof.
  intros Hz Hn. unfold lnutil.get_prefix.
  by rewrite Z.land_spec, mask_testbit.
Qed.

Lemma testbit_high (idx n : Z) :
  0 <= idx < 2 ^ 64 -> 64 <= n -> Z.testbit idx n = false.
Proof.
  intros Hidx Hn. destruct (decide (idx = 0)) as [->|Hne].
  - apply Z.bits_0.
  - apply Z.bits_above_log2; [lia|].
    assert (Z.log2 idx < 64) by (apply Z.log2_lt_pow2; lia). lia.
Qed.

(** The bits of an index in range, relative to its number of trailing
    zeros. *)
Lemma count_trailing_zeros_bits (idx : Z) :
  0 <= idx < 2 ^ 64 ->
  0 <= lnutil.count_trailing_zeros idx <= 64
  /\ (forall n, 0 <= n < lnutil.count_trailing_zeros idx ->
        Z.testbit idx n = false)
  /\ (idx <> 0 ->
      Z.testbit idx (lnutil.count_trailing_zeros idx) = true
      /\ lnutil.count_trailing_zeros idx < 64).
Proof.
  intros Hidx. destruct (decide (idx = 0)) as [->|Hne].
  - change (lnutil.count_trailing_zeros 0) with 48.
    split; [lia|]. split; [|done]. intros n _. apply Z.bits_0.
  - destruct (count_trailing_zeros_factor idx Hne) as (m & Hz & Hm & Hfac).
    set (z := lnutil.count_trailing_zeros idx) in *.
    rewrite Z.abs_eq in Hfac by lia.
    assert (0 < 2 ^ z) by (apply Z.pow_pos_nonneg; lia).
    assert (z < 64) as Hz64.
    { apply (Z.pow_lt_mono_r_iff 2); [lia|lia|]. nia. }
    split; [lia|]. split.
    + intros n Hn. rewrite Hfac, Z.mul_comm.
      apply Z.mul_pow2_bits_low. lia.
    + intros _. split; [|done].
      rewrite Hfac, Z.mul_comm, Z.mul_pow2_bits by lia.
      rewrite Z.sub_diag, Z.bit0_odd, Z.add_comm, Z.odd_add_mul_2. done.
Qed.

Lemma get_prefix_self (idx : Z) :
  0 <= idx < 2 ^ 64 ->
  lnutil.get_prefix idx (lnutil.count_trailing_zeros idx) = idx.
Proof.
  intros Hidx.
  destruct (count_trailing_zeros_bits idx Hidx) as (Hz & Hlow & _).
  apply Z.bits_inj'. intros n Hn.
  rewrite get_prefix_testbit by lia.
  destruct (Z.leb_spec (lnutil.count_trailing_zeros idx) n) as [H1|H1];
    destruct (Z.ltb_spec n 64) as [H2|H2]; simpl;
    rewrite ?andb_true_r, ?andb_false_r; try done; symmetry.
  - apply testbit_high; lia.
  - apply Hlow. lia.
  - apply Hlow. lia.
Qed.

Section ShachainProofs.

Variable sha256 : string -> string.

(** Where the index has no bit set, the loop neither flips nor hashes. *)
Lemma secret_loop_no_bits (i : Z) (n : nat) (s : string) :
  (forall b, (b < n)%nat -> Z.testbit i (Z.of_nat b) = false) ->
  lnutil.secret_loop sha256 i n s = lnutil.Returns s.
Proof.
  induction n as [|n IH]; intros Hbits; [done|].
  cbn [lnutil.secret_loop].
  rewrite land_bit_zero, Hbits by lia. cbn [negb].
  apply IH. intros b Hb. apply Hbits. lia.
Qed.

(** Two indexes that agree on the bits from [m] up, the first without bits
    below [m]: the loop for the second continues the loop for the first. *)
Lemma secret_loop_split (j k : Z) (m d : nat) (s : string) :
  (forall b, (m <= b < m + d)%nat ->
     Z.testbit k (Z.of_nat b) = Z.testbit j (Z.of_nat b)) ->
  (forall b, (b < m)%nat -> Z.testbit j (Z.of_nat b) = false) ->
  lnutil.secret_loop sha256 k (m + d) s
  = match lnutil.secret_loop sha256 j (m + d) s with
    | lnutil.Returns s1 => lnutil.secret_loop sha256 k m s1
    | lnutil.Raises e => lnutil.Raises e
    end.
Proof.
  revert s. induction d as [|d IH]; intros s Hsame Hlow.
  - rewrite Nat.add_0_r. by rewrite (secret_loop_no_bits j m s).
  - replace (m + S d)%nat with (S (m + d)) by lia.
    cbn [lnutil.secret_loop].
    rewrite !land_bit_zero by lia. rewrite (Hsame (m + d)%nat) by lia.
    destruct (Z.testbit j (Z.of_nat (m + d))); cbn [negb].
    + destruct (lnutil.xor_at _ _ s) as [flipped|]; [|done].
      apply IH; [|done]. intros b Hb. apply Hsame. lia.
    + apply IH; [|done]. intros b Hb. apply Hsame. lia.
Qed.

Lemma shachain_derive_own_index (s : string) (i : Z) :
  0 <= i < 2 ^ 64 ->
  lnutil.shachain_derive sha256 (lnutil.mkShachainElement s i) i
  = lnutil.Returns (lnutil.mkShachainElement s i).
Proof.
  intros Hidx. unfold lnutil.shachain_derive. cbn [lnutil.index lnutil.secret].
  rewrite get_prefix_self, Z.eqb_refl by done. cbn [negb].
  destruct (count_trailing_zeros_bits _ Hidx) as (Hz & Hlow & _).
  unfold lnutil.get_per_commitment_secret_from_seed.
  rewrite secret_loop_no_bits; [done|].
  intros b Hb. apply Hlow. lia.
Qed.

(** X23: deriving an element at its own index gives the element back. *)
Theorem shachain_derive_self (element : lnutil.ShachainElement) :
  0 <= lnutil.index element < 2 ^ 64 ->
  lnutil.shachain_derive sha256 element (lnutil.index element)
  = lnutil.Returns element.
Proof.
  destruct element as [s i]. apply shachain_derive_own_index.
Qed.

(** The derivation spelled out. *)
Lemma shachain_derive_returns element to_index res :
  lnutil.shachain_derive sha256 element to_index = lnutil.Returns res ->
  lnutil.index element
  = lnutil.get_prefix to_index
      (lnutil.count_trailing_zeros (lnutil.index element))
  /\ lnutil.index res = to_index
  /\ lnutil.secret_loop sha256 to_index
       (Z.to_nat (lnutil.count_trailing_zeros (lnutil.index element)))
       (lnutil.secret element)
     = lnutil.Returns (lnutil.secret res).
Proof.
  unfold lnutil.shachain_derive, lnutil.get_per_commitment_secret_from_seed.
  destruct (Z.eqb_spec (lnutil.index element)
              (lnutil.get_prefix to_index
                 (lnutil.count_trailing_zeros (lnutil.index element))))
    as [E|E]; [|discriminate].
  cbn [negb].
  destruct (lnutil.secret_loop _ _ _ _) as [s|e]; [|discriminate].
  by intros [= <-].
Qed.

(** The trailing zeros of a derived index do not exceed those of the index
    it was derived from. *)
Lemma derived_index_zeros (i j : Z) :
  0 <= i < 2 ^ 64 -> 0 <= j < 2 ^ 64 ->
  i = lnutil.get_prefix j (lnutil.count_trailing_zeros i) ->
  lnutil.count_trailing_zeros j <= lnutil.count_trailing_zeros i.
Proof.
  intros Hi Hj Hpre.
  destruct (count_trailing_zeros_bits i Hi) as (Hzi & Hlowi & Hseti).
  destruct (count_trailing_zeros_bits j Hj) as (Hzj & Hlowj & Hsetj).
  set (zi := lnutil.count_trailing_zeros i) in *.
  set (zj := lnutil.count_trailing_zeros j) in *.
  destruct (Z.le_gt_cases zj zi) as [|Hgt]; [done|exfalso].
  assert (forall n, 0 <= n ->
            Z.testbit i n = Z.testbit j n && ((zi <=? n) && (n <? 64))) as Hbits.
  { intros n Hn. rewrite Hpre at 1. by apply get_prefix_testbit. }
  assert (j <> 0) as Hj0.
  { intros ->. assert (i = 0) as ->.
    { apply Z.bits_inj'. intros n Hn. rewrite Hbits, !Z.bits_0 by done. done. }
    subst zi zj. lia. }
  destruct (Hsetj Hj0) as [Hbitj Hzj64].
  assert (Z.testbit i zj = true) as Hbiti.
  { rewrite Hbits, Hbitj by lia. simpl.
    apply andb_true_iff. split; [apply Z.leb_le|apply Z.ltb_lt]; lia. }
  assert (i <> 0) as Hi0 by (intros ->; by rewrite Z.bits_0 in Hbiti).
  destruct (Hseti Hi0) as [Hbitzi _].
  rewrite Hbits, (Hlowj zi) in Hbitzi by lia. done.
Qed.

(** X24: derivations compose: from an element, deriving index [j] and from
    the result index [k] gives what deriving [k] directly gives. *)
Theorem shachain_derive_trans (e e1 e2 : lnutil.ShachainElement) (j k : Z) :
  0 <= lnutil.index e < 2 ^ 64 -> 0 <= j < 2 ^ 64 -> 0 <= k < 2 ^ 64 ->
  lnutil.shachain_derive sha256 e j = lnutil.Returns e1 ->
  lnutil.shachain_derive sha256 e1 k = lnutil.Returns e2 ->
  lnutil.shachain_derive sha256 e k = lnutil.Returns e2.
Proof.
  intros Hi Hj Hk H1 H2.
  destruct (shachain_derive_returns _ _ _ H1) as (Hp1 & Hidx1 & Hl1).
  destruct (shachain_derive_returns _ _ _ H2) as (Hp2 & Hidx2 & Hl2).
  rewrite Hidx1 in Hp2, Hl2.
  pose proof (derived_index_zeros _ _ Hi Hj Hp1) as Hle.
  destruct (count_trailing_zeros_bits _ Hi) as (Hzi & _ & _).
  destruct (count_trailing_zeros_bits _ Hj) as (Hzj & _ & _).
  set (zi := lnutil.count_trailing_zeros (lnutil.index e)) in *.
  set (zj := lnutil.count_trailing_zeros j) in *.
  assert (forall n, 0 <= n ->
            Z.testbit j n = Z.testbit k n && ((zj <=? n) && (n <? 64))) as Hbj.
  { intros n Hn. rewrite Hp2 at 1. by apply get_prefix_testbit. }
  unfold lnutil.shachain_derive, lnutil.get_per_commitment_secret_from_seed.
  fold zi.
  assert (lnutil.index e = lnutil.get_prefix k zi) as Hpk.
  { apply Z.bits_inj'. intros n Hn.
    rewrite Hp1 at 1. rewrite !get_prefix_testbit, Hbj by lia.
    destruct (Z.testbit k n); simpl; [|done].
    destruct (Z.leb_spec zi n), (Z.leb_spec zj n), (Z.ltb_spec n 64);
      simpl; try done; lia. }
  rewrite <- Hpk, Z.eqb_refl. cbn [negb].
  replace (Z.to_nat zi) with (Z.to_nat zj + (Z.to_nat zi - Z.to_nat zj))%nat
    in Hl1 |- * by lia.
  rewrite (secret_loop_split j k).
  - rewrite Hl1, Hl2. destruct e2 as [s2 i2]. simpl in *. by subst.
  - intros b Hb. rewrite (Hbj (Z.of_nat b)) by lia.
    destruct (Z.testbit k (Z.of_nat b)); simpl; [|done].
    symmetry. apply andb_true_iff. split; [apply Z.leb_le|apply Z.ltb_lt]; lia.
  - intros b Hb. rewrite (Hbj (Z.of_nat b)) by lia.
    destruct (Z.leb_spec zj (Z.of_nat b)); [lia|].
    apply andb_false_r.
Qed.

End ShachainProofs.

Lemma shachain_derive_self_witness :
  lnutil.shachain_derive toy_hash (lnutil.mkShachainElement "abcdefgh" 8) 8
  = lnutil.Returns (lnutil.mkShachainElement "abcdefgh" 8).
Proof.
  apply (shachain_derive_self toy_hash (lnutil.mkShachainElement "abcdefgh" 8)).
  simpl. lia.
Defined.

Lemma shachain_derive_trans_witness :
  lnutil.shachain_derive toy_hash (lnutil.mkShachainElement "abcdefgh" 8) 13
  = lnutil.Returns (lnutil.mkShachainElement "dbcdefgh##" 13).
Proof.
  apply (shachain_derive_trans toy_hash
           (lnutil.mkShachainElement "abcdefgh" 8)
           (lnutil.mkShachainElement "ebcdefgh#" 12)
           (lnutil.mkShachainElement "dbcdefgh##" 13) 12 13);
    [simpl; lia|lia|lia|reflexivity|reflexivity].
Defined.

(** ** The revocation store *)

Section RevocationStoreProofs.

Variable sha256 : string -> string.

(** What the loop of [add_next_entry] has checked when it returns. *)
Lemma check_buckets_returns bkts new_element idxs i :
  lnutil.check_buckets sha256 bkts new_element idxs = lnutil.Returns tt ->
  i ∈ idxs ->
  exists this_bucket,
    bkts !! Z.of_nat i = Some this_bucket
    /\ lnutil.shachain_derive sha256 new_element (lnutil.index this_bucket)
       = lnutil.Returns this_bucket.
Proof.
  induction idxs as [|x idxs IH]; simpl; [by intros _ []%elem_of_nil|].
  destruct (bkts !! Z.of_nat x) as [tb|] eqn:Hb; [|discriminate].
  destruct (lnutil.shachain_derive _ _ _) as [e|] eqn:Hd; [|discriminate].
  destruct (bool_decide (e = tb)) eqn:He; [|discriminate].
  apply bool_decide_eq_true in He. subst e. simpl.
  intros Hrest [->|Hin]%elem_of_cons; [eauto|by apply IH].
Qed.

(** A bucket that the new element derives can only answer a lookup of the
    new index with the new secret, or not at all. *)
Lemma older_bucket_lookup (hsh : string) (i : Z) (tb : lnutil.ShachainElement) :
  0 <= i < 2 ^ 64 ->
  lnutil.shachain_derive sha256 (lnutil.mkShachainElement hsh i)
                         (lnutil.index tb) = lnutil.Returns tb ->
  lnutil.shachain_derive sha256 tb i = lnutil.Raises lnutil.UnableToDeriveSecret
  \/ exists el, lnutil.shachain_derive sha256 tb i = lnutil.Returns el
                /\ lnutil.secret el = hsh.
Proof.
  intros Hi Hd.
  destruct (shachain_derive_returns _ _ _ _ Hd) as (Hpre & _ & Hloop).
  cbn [lnutil.index lnutil.secret] in Hpre, Hloop.
  destruct (count_trailing_zeros_bits i Hi) as (Hzi & Hlowi & _).
  set (t := lnutil.index tb) in *.
  unfold lnutil.shachain_derive. fold t.
  destruct (Z.eqb_spec t (lnutil.get_prefix i (lnutil.count_trailing_zeros t)))
    as [E|E]; cbn [negb]; [right|by left].
  (* the index of the bucket is the new index *)
  assert (0 <= lnutil.get_prefix i (lnutil.count_trailing_zeros t) < 2 ^ 64)
    as Ht.
  { unfold lnutil.get_prefix.
    set (mask := Z.shiftl 1 64 - 1
                 - (Z.shiftl 1 (lnutil.count_trailing_zeros t) - 1)).
    assert (0 <= Z.land i mask) as Hnn by (apply Z.land_nonneg; lia).
    split; [done|].
    destruct (Z.lt_ge_cases (Z.land i mask) (2 ^ 64)) as [|Hge]; [done|].
    exfalso.
    assert (0 < Z.land i mask) as Hpos by lia.
    assert (64 <= Z.log2 (Z.land i mask)) as Hlog
      by (apply Z.log2_le_pow2; lia).
    pose proof (Z.bit_log2 _ Hpos) as Hbit.
    rewrite Z.land_spec, (testbit_high i) in Hbit by lia. done. }
  rewrite <- E in Ht.
  destruct (count_trailing_zeros_bits t Ht) as (Hzt & _ & _).
  assert (t = i) as Hti.
  { apply Z.bits_inj'. intros n Hn.
    assert (Z.testbit t n
            = Z.testbit i n
              && ((lnutil.count_trailing_zeros t <=? n) && (n <? 64))) as H1
      by (rewrite E at 1; by apply get_prefix_testbit).
    assert (Z.testbit i n
            = Z.testbit t n
              && ((lnutil.count_trailing_zeros i <=? n) && (n <? 64))) as H2
      by (rewrite Hpre at 1; by apply get_prefix_testbit).
    destruct (Z.testbit t n), (Z.testbit i n); done. }
  rewrite Hti in Hloop |- *.
  unfold lnutil.get_per_commitment_secret_from_seed.
  rewrite secret_loop_no_bits in Hloop by (intros b Hb; apply Hlowi; lia).
  rewrite secret_loop_no_bits by (intros b Hb; apply Hlowi; lia).
  injection Hloop as Hs. eexists. split; [done|]. done.
Qed.

Lemma retrieve_loop_prefix bkts (i : Z) (hsh : string) (l1 l2 : list nat) :
  (forall b, b ∈ l1 ->
     exists tb, bkts !! Z.of_nat b = Some tb
       /\ (lnutil.shachain_derive sha256 tb i
           = lnutil.Raises lnutil.UnableToDeriveSecret
           \/ exists el, lnutil.shachain_derive sha256 tb i = lnutil.Returns el
                         /\ lnutil.secret el = hsh)) ->
  lnutil.retrieve_loop sha256 bkts i (l1 ++ l2) = lnutil.Returns hsh
  \/ lnutil.retrieve_loop sha256 bkts i (l1 ++ l2)
     = lnutil.retrieve_loop sha256 bkts i l2.
Proof.
  induction l1 as [|b l1 IH]; intros Hall; [by right|].
  cbn [app lnutil.retrieve_loop].
  destruct (Hall b) as (tb & -> & [->|(el & -> & <-)]); [by left| |by left].
  apply IH. intros b' Hb'. apply Hall. by right.
Qed.

(** X25: after a successful [add_next_entry], [retrieve_secret] at the index
    that was just filled returns the secret that was added. *)
Theorem retrieve_after_add (store store' : lnutil.RevocationStore)
    (hsh : string) :
  0 <= lnutil.store_index store <= lnutil.START_INDEX ->
  lnutil.add_next_entry sha256 store hsh = lnutil.Returns store' ->
  lnutil.retrieve_secret sha256 store' (lnutil.store_index store)
  = lnutil.Returns hsh
  /\ lnutil.store_index store' = lnutil.store_index store - 1.
Proof.
  intros Hidx. unfold lnutil.add_next_entry.
  set (i := lnutil.store_index store) in *.
  destruct (lnutil.check_buckets _ _ _ _) as [[]|] eqn:Hcheck; [|discriminate].
  intros [= <-]. split; [|done].
  assert (lnutil.START_INDEX = 2 ^ 48 - 1) as HS by reflexivity.
  assert (0 <= i < 2 ^ 64) as Hi by lia.
  destruct (count_trailing_zeros_bits i Hi) as (Hz & _ & Hset).
  set (B := lnutil.count_trailing_zeros i) in *.
  assert (B <= 48) as HB.
  { destruct (decide (i = 0)) as [E|E]; [subst B; by rewrite E|].
    destruct (count_trailing_zeros_factor i E) as (m & _ & Hm & Hfac).
    fold B in Hfac. rewrite Z.abs_eq in Hfac by lia.
    assert (0 < 2 ^ B) by (apply Z.pow_pos_nonneg; lia).
    assert (B < 48); [|lia].
    apply (Z.pow_lt_mono_r_iff 2); [lia|lia|]. nia. }
  unfold lnutil.retrieve_secret. cbn [lnutil.buckets].
  destruct (Z.leb_spec i lnutil.START_INDEX) as [_|?]; [|lia]. cbn [negb].
  replace 49%nat with (Z.to_nat B + S (48 - Z.to_nat B))%nat by lia.
  rewrite seq_app.
  destruct (retrieve_loop_prefix
              (<[B := lnutil.mkShachainElement hsh i]> (lnutil.buckets store))
              i hsh (seq 0 (Z.to_nat B))
              (seq (0 + Z.to_nat B) (S (48 - Z.to_nat B)))) as [H|H].
  - intros b Hb. apply elem_of_seq in Hb.
    destruct (check_buckets_returns _ _ _ b Hcheck) as (tb & Htb & Hd).
    { apply elem_of_seq. lia. }
    exists tb. rewrite lookup_insert_ne by lia. split; [done|].
    by apply older_bucket_lookup.
  - done.
  - rewrite H. cbn [seq lnutil.retrieve_loop].
    replace (Z.of_nat (0 + Z.to_nat B)) with B by lia.
    rewrite lookup_insert_eq.
    rewrite (shachain_derive_own_index sha256 hsh i) by done.
    done.
Qed.

End RevocationStoreProofs.

Lemma retrieve_after_add_witness :
  lnutil.retrieve_secret toy_hash
    {| lnutil.store_index := lnutil.START_INDEX - 1;
       lnutil.buckets :=
         <[0 := lnutil.mkShachainElement "secret000" lnutil.START_INDEX]> ∅ |}
    lnutil.START_INDEX
  = lnutil.Returns "secret000"
  /\ lnutil.START_INDEX - 1 = lnutil.START_INDEX - 1.
Proof.
  apply (retrieve_after_add toy_hash lnutil.new_store
           {| lnutil.store_index := lnutil.START_INDEX - 1;
              lnutil.buckets :=
                <[0 := lnutil.mkShachainElement "secret000"
                         lnutil.START_INDEX]> ∅ |}
           "secret000").
  - unfold lnutil.new_store, lnutil.START_INDEX. simpl. lia.
  - vm_compute. reflexivity.
Defined.

(** ** Termination of the whole query *)

(** X26: on a finite graph snapshot [find_path_for_payment] returns with
    enough fuel: the search ends and the backtracking reaches the
    destination without a missing key.  The only exceptions are those of the
    search loop; on a consistent snapshot with 8-byte channel ids whose local
    channels all touch the source, the only one left is the [OverflowError]
    of a cost too large for a [float]. *)
Theorem find_path_for_payment_terminates
    (self : LNPathFinder) (nodeA nodeB : NodeId) (amt : Z)
    (mc : option MyChannels) (nodes : list NodeId) :
  finite_graph (channel_db self) (Some (default ∅ mc)) nodes ->
  exists fuel res,
    find_path_for_payment fuel self nodeA nodeB amt mc = Some res
    /\ (forall e, res = Raise e ->
          e = AttributeError \/ e = AssertionError \/ e = TypeError
          \/ e = OverflowError)
    /\ (snapshot_consistent (channel_db self) (Some (default ∅ mc)) ->
        local_view_ok (channel_db self) (Some nodeA) (Some (default ∅ mc)) ->
        ids_well_formed (channel_db self) (Some (default ∅ mc)) ->
        forall e, res = Raise e -> e = OverflowError).
Proof.
  intros Hfin.
  destruct (main_loop_terminates_from self (Some nodeA) nodeB true
              (Some (default ∅ mc)) nodes Hfin (initial_state nodeB amt))
    as (f1 & out & Hrun & Hexit & Hnormal).
  { apply initial_state_inv. }
  destruct out as [[ex st]|e].
  - destruct (main_loop_inv_all _ _ _ _ _ _ _ _ _ _
                (initial_state_inv_all self (Some nodeA) nodeB true
                   (Some (default ∅ mc)) amt) Hrun)
      as (Hinv & _ & Hord).
    destruct (prev_node st !! nodeA) as [[v s]|] eqn:Hp.
    + destruct (ord_chain _ _ _ Hord nodeA) as (chain & Hc & Hlast).
      { by rewrite Hp. }
      destruct (get_path_loop_complete _ _ _ _ [] Hc Hlast) as [path Hpath].
      exists (max f1 (length chain)), (Ok (Some path)).
      split; [|split; [discriminate|intros _ _ _ e; discriminate]].
      unfold find_path_for_payment, get_distances.
      rewrite (main_loop_fuel_mono _ _ _ _ _ _ _ _ Hrun) by lia. simpl.
      unfold get_path. rewrite Hp.
      rewrite (get_path_loop_fuel_mono _ _ _ _ _ _ _ Hpath) by lia. done.
    + exists f1, (Ok None).
      split; [|split; [discriminate|intros _ _ _ e; discriminate]].
      unfold find_path_for_payment, get_distances. rewrite Hrun. simpl.
      unfold get_path. by rewrite Hp.
  - exists f1, (Raise e). split; [|split].
    + unfold find_path_for_payment, get_distances. by rewrite Hrun.
    + by intros ? [= <-].
    + intros Hcons Hview Hids e' [= <-]. by apply Hnormal.
Qed.

Lemma find_path_for_payment_terminates_witness :
  exists fuel res,
    find_path_for_payment fuel (three_node_finder None) "A" "D" 1000000 None
    = Some res
    /\ (forall e, res = Raise e ->
          e = AttributeError \/ e = AssertionError \/ e = TypeError
          \/ e = OverflowError)
    /\ (snapshot_consistent (three_node_db None) (Some ∅) ->
        local_view_ok (three_node_db None) (Some "A") (Some ∅) ->
        ids_well_formed (three_node_db None) (Some ∅) ->
        forall e, res = Raise e -> e = OverflowError).
Proof.
  apply (find_path_for_payment_terminates (three_node_finder None) "A" "D"
           1000000 None ["A"; "B"; "D"]).
  apply three_node_db_finite.
Defined.

(** ** The edges of a created route *)

Lemma route_from_pairs_edges self mc path prev_id acc route :
  route_from_pairs self mc path prev_id acc = Ok route ->
  exists edges,
    route = acc ++ edges
    /\ Forall2
         (fun hop e =>
            exists pol,
              get_policy_for_node (channel_db self) hop.2 hop.1.1 mc = Some pol
              /\ from_channel_policy pol hop.2 hop.1.2
                   (get_node_info_for_node_id (channel_db self) hop.1.2)
                 = Ok e)
         (hop_triples prev_id path) edges.
Proof.
  revert prev_id acc.
  induction path as [|[node scid] rest IH]; intros prev_id acc; simpl.
  - intros [= <-]. exists []. rewrite app_nil_r. split; [done|constructor].
  - destruct (get_policy_for_node _ scid prev_id mc) as [pol|] eqn:Hpol.
    2:{ unfold raise_NoChannelPolicy. destruct (normalize scid); discriminate. }
    destruct (from_channel_policy _ _ _ _) as [e|] eqn:He; [|discriminate].
    intros H. destruct (IH _ _ H) as (edges & -> & Hall).
    exists (e :: edges). rewrite <- app_assoc. split; [done|].
    constructor; [|done]. exists pol. done.
Qed.

(** X27: a route built by [create_route_from_path] has one edge per hop; the
    edge carries the fee and cltv fields of the policy published by the
    hop's start node for the channel, the hop's end node as [node_id], and
    the features of that end node (0 when the node is unknown). *)
Theorem created_route_edges
    (self : LNPathFinder) (path : Path) (from_node_id : NodeId)
    (mc : option MyChannels) (route : LNPaymentRoute) :
  create_route_from_path self (Some path) from_node_id mc = Ok route ->
  length route = length path
  /\ Forall2
       (fun hop e =>
          exists pol,
            get_policy_for_node (channel_db self) hop.2 hop.1.1 mc = Some pol
            /\ node_id e = hop.1.2
            /\ short_channel_id e = hop.2
            /\ fee_base_msat e = Z.of_N (Policy.fee_base_msat pol)
            /\ fee_proportional_millionths e
               = Z.of_N (Policy.fee_proportional_millionths pol)
            /\ cltv_expiry_delta e = Z.of_N (Policy.cltv_expiry_delta pol)
            /\ node_features e
               = match get_node_info_for_node_id (channel_db self) hop.1.2 with
                 | Some ni => Z.of_N (features ni)
                 | None => 0
                 end)
       (hop_triples from_node_id path) route.
Proof.
  unfold create_route_from_path. intros H.
  destruct (route_from_pairs_edges _ _ _ _ _ _ H) as (edges & -> & Hall).
  simpl. split.
  - apply Forall2_length in Hall. rewrite <- Hall.
    clear. revert from_node_id.
    induction path as [|[n s] path IH]; intros f; simpl; [done|].
    by rewrite (IH n).
  - eapply Forall2_impl; [exact Hall|].
    intros hop e (pol & Hpol & He).
    apply from_channel_policy_inv in He as [_ ->].
    exists pol. done.
Qed.

Lemma created_route_edges_witness :
  length [mkRouteEdge "B" "chan0001" 0 0 40 0;
          mkRouteEdge "D" "chan0002" 1000 100 40 0]
  = length [("B", "chan0001"); ("D", "chan0002")]
  /\ Forall2
       (fun hop e =>
          exists pol,
            get_policy_for_node (three_node_db None) hop.2 hop.1.1 None
            = Some pol
            /\ node_id e = hop.1.2
            /\ short_channel_id e = hop.2
            /\ fee_base_msat e = Z.of_N (Policy.fee_base_msat pol)
            /\ fee_proportional_millionths e
               = Z.of_N (Policy.fee_proportional_millionths pol)
            /\ cltv_expiry_delta e = Z.of_N (Policy.cltv_expiry_delta pol)
            /\ node_features e
               = match get_node_info_for_node_id (three_node_db None) hop.1.2
                 with
                 | Some ni => Z.of_N (features ni)
                 | None => 0
                 end)
       (hop_triples "A" [("B", "chan0001"); ("D", "chan0002")])
       [mkRouteEdge "B" "chan0001" 0 0 40 0;
        mkRouteEdge "D" "chan0002" 1000 100 40 0].
Proof.
  apply (created_route_edges (three_node_finder None)
           [("B", "chan0001"); ("D", "chan0002")] "A" None).
  reflexivity.
Defined.
